(** * Lock-free stack and queue of cpp-interview-prep, embedded in Rocq

    The development embeds the CAS-based containers of
    - [Concepts/IPC/Synchronization Mechanisms/atomic.cpp]
      ([LockFreeStack], [LockFreeQueue]) and
    - [Concepts/Multithreading/04_atomic_operations.cpp]
      ([LockFreeStack], [ABAProneStack])
    over an explicit heap of nodes.  A member function is a computation in
    a small state monad; retry loops take fuel.  Three sources of
    nondeterminism of the C++ program are resolved by an oracle carried in
    the state: whether [new] throws [std::bad_alloc], whether a
    [compare_exchange_weak] fails spuriously, and what the other threads do
    to the shared memory between two accesses of the running thread.  Each
    access is logged, with the memory order written in the source (none is
    written in the containers, so it is the default,
    [std::memory_order_seq_cst], and interleaving is the right semantics).

    Three member functions of atomic.cpp are not embedded: as they are
    written they are ill-formed C++, so there is no behaviour of theirs to
    embed.  [LockFreeStack::push] hands [new_node->next], which is a
    [std::atomic<Node*>], to the [Node*&] parameter of
    [compare_exchange_weak]; [LockFreeQueue::enqueue] hands the temporary
    [tail_.load()] to the same parameter; [~LockFreeStack()] assigns one
    [std::atomic<Node*>] to another.  The states of these two containers
    that a theorem starts from are given by a predicate on the heap
    ([stack_rep], [queue_shape]) or written out.  The stack of
    04_atomic_operations.cpp, whose [next] is a plain pointer, has all its
    member functions embedded.

    The last part covers [~LockFreeQueue()], [~ABAProneStack()] and the other
    classes of the two files: [AtomicRefCounted], [AtomicSharedPtr],
    [AtomicProducerConsumer], [Spinlock], [MemoryOrderingDemo] and
    [WaitFreeCounter], embedded over the machine of [SharedObject]. *)

From stdpp Require Import gmap list.
From Stdlib Require Import ZArith Lia.

(** ** Addresses, memory orders, atomic cells *)

Abbreviation loc := positive (only parsing).
Abbreviation ptr := (option positive) (only parsing).
Abbreviation nullptr := (@None positive) (only parsing).

(** [std::memory_order] *)
Inductive memory_order :=
  | memory_order_relaxed
  | memory_order_consume
  | memory_order_acquire
  | memory_order_release
  | memory_order_acq_rel
  | memory_order_seq_cst.

(** The pointer-valued fields the containers read and write: the members
    [head_] and [tail_] of the container object, and the [next] and [data]
    members of a heap node. *)
Inductive cell :=
  | Head
  | Tail
  | NextOf (n : loc)
  | DataOf (n : loc).

(** One entry of the access log.  [AtomicLoad], [AtomicStore] and
    [AtomicCas] are operations of [std::atomic], with the value read or
    written and the memory order; an [AtomicCas] records the expected and
    the desired value, the value found and whether the exchange was made.
    [PlainRead] and [PlainWrite] are accesses to a plain pointer field,
    [ReadValue] reads a payload of type [T], [Alloc] and [Free] are [new]
    and [delete]. *)
Inductive event :=
  | AtomicLoad (c : cell) (v : ptr) (mo : memory_order)
  | AtomicStore (c : cell) (v : ptr) (mo : memory_order)
  | AtomicCas (c : cell) (expected desired observed : ptr) (ok : bool)
        (mo : memory_order)
  | PlainRead (c : cell) (v : ptr)
  | PlainWrite (c : cell) (v : ptr)
  | ReadValue (l : loc)
  | Alloc (l : loc)
  | Free (l : loc).

Section Machine.
Context {T : Type}.

(** Heap objects.  [VNode] is a node that stores its element inline
    ([T data], [int data]); [PNode] is a node that stores a pointer to it
    ([std::atomic<T*> data]); [Box] is the object made by [new T(...)]. *)
Inductive object :=
  | VNode (data : T) (next : ptr)
  | PNode (data : ptr) (next : ptr)
  | Box (v : T).

Record memory := Memory {
  heap : gmap positive object;
  head_ : ptr;
  tail_ : ptr
}.

Record oracle := Oracle {
  oom : list bool;              (* true: the next [new] throws *)
  spurious : list bool;         (* true: the next weak CAS fails spuriously *)
  env : list (memory -> memory) (* what other threads do before the next access *)
}.

Record state := State {
  mem : memory;
  trace : list event;           (* newest event first *)
  orc : oracle
}.

Inductive result (A : Type) :=
  | Done (a : A) (s : state)
  | Thrown (s : state)          (* std::bad_alloc leaves the function *)
  | Undefined                   (* null or dangling pointer dereferenced *)
  | Spinning.                   (* the retry loop used up its fuel *)
Global Arguments Done {A} a s.
Global Arguments Thrown {A} s.
Global Arguments Undefined {A}.
Global Arguments Spinning {A}.

Definition M (A : Type) : Type := state -> result A.

Definition ret {A} (a : A) : M A := fun s => Done a s.

Definition bind {A B} (m : M A) (k : A -> M B) : M B :=
  fun s =>
    match m s with
    | Done a s' => k a s'
    | Thrown s' => Thrown s'
    | Undefined => Undefined
    | Spinning => Spinning
    end.

Global Instance M_ret : MRet M := @ret.
Global Instance M_bind : MBind M := fun A B k m => bind m k.

Definition undefined {A} : M A := fun _ => Undefined.
Definition spin {A} : M A := fun _ => Spinning.

(** ** Memory accesses *)

Definition read_cell (m : memory) (c : cell) : option ptr :=
  match c with
  | Head => Some (head_ m)
  | Tail => Some (tail_ m)
  | NextOf n =>
      match heap m !! n with
      | Some (VNode _ nx) => Some nx
      | Some (PNode _ nx) => Some nx
      | _ => None
      end
  | DataOf n =>
      match heap m !! n with
      | Some (PNode d _) => Some d
      | _ => None
      end
  end.

Definition write_cell (m : memory) (c : cell) (v : ptr) : option memory :=
  match c with
  | Head => Some (Memory (heap m) v (tail_ m))
  | Tail => Some (Memory (heap m) (head_ m) v)
  | NextOf n =>
      match heap m !! n with
      | Some (VNode d _) =>
          Some (Memory (<[n := VNode d v]> (heap m)) (head_ m) (tail_ m))
      | Some (PNode d _) =>
          Some (Memory (<[n := PNode d v]> (heap m)) (head_ m) (tail_ m))
      | _ => None
      end
  | DataOf n =>
      match heap m !! n with
      | Some (PNode _ nx) =>
          Some (Memory (<[n := PNode v nx]> (heap m)) (head_ m) (tail_ m))
      | _ => None
      end
  end.

(** Other threads run before the access: the next entry of [env] is
    applied to the shared memory. *)
Definition tick (s : state) : state :=
  match env (orc s) with
  | [] => s
  | f :: fs =>
      State (f (mem s)) (trace s) (Oracle (oom (orc s)) (spurious (orc s)) fs)
  end.

Definition interleave : M unit := fun s => Done tt (tick s).

Definition log (e : event) : M unit :=
  fun s => Done tt (State (mem s) (e :: trace s) (orc s)).

Definition get_cell (c : cell) : M ptr :=
  fun s =>
    match read_cell (mem s) c with
    | Some v => Done v s
    | None => Undefined
    end.

Definition set_cell (c : cell) (v : ptr) : M unit :=
  fun s =>
    match write_cell (mem s) c v with
    | Some m' => Done tt (State m' (trace s) (orc s))
    | None => Undefined
    end.

(** [p->...] with [p] null is undefined behaviour. *)
Definition deref (p : ptr) : M loc :=
  match p with
  | Some l => mret l
  | None => undefined
  end.

(** [c.load(mo)] *)
Definition load (c : cell) (mo : memory_order) : M ptr :=
  _ ← interleave;
  v ← get_cell c;
  _ ← log (AtomicLoad c v mo);
  mret v.

(** [c.store(v, mo)] *)
Definition store (c : cell) (v : ptr) (mo : memory_order) : M unit :=
  _ ← interleave;
  _ ← set_cell c v;
  log (AtomicStore c v mo).

(** [c.compare_exchange_strong(expected, desired, mo)]: the result is the
    boolean returned and the value [expected] holds afterwards. *)
Definition compare_exchange_strong (c : cell) (expected desired : ptr)
    (mo : memory_order) : M (bool * ptr) :=
  _ ← interleave;
  cur ← get_cell c;
  if decide (cur = expected) then
    _ ← set_cell c desired;
    _ ← log (AtomicCas c expected desired cur true mo);
    mret (true, expected)
  else
    _ ← log (AtomicCas c expected desired cur false mo);
    mret (false, cur).

Definition next_spurious : M bool :=
  fun s =>
    match spurious (orc s) with
    | [] => Done false s
    | b :: bs =>
        Done b (State (mem s) (trace s) (Oracle (oom (orc s)) bs (env (orc s))))
    end.

(** [c.compare_exchange_weak(expected, desired, mo)]: as the strong one,
    but it may fail although the cell holds [expected]. *)
Definition compare_exchange_weak (c : cell) (expected desired : ptr)
    (mo : memory_order) : M (bool * ptr) :=
  _ ← interleave;
  cur ← get_cell c;
  fails ← next_spurious;
  if decide (cur = expected) then
    if (fails : bool) then
      _ ← log (AtomicCas c expected desired cur false mo);
      mret (false, cur)
    else
      _ ← set_cell c desired;
      _ ← log (AtomicCas c expected desired cur true mo);
      mret (true, expected)
  else
    _ ← log (AtomicCas c expected desired cur false mo);
    mret (false, cur).

(** Plain (non-atomic) accesses to a pointer field. *)
Definition read (c : cell) : M ptr :=
  _ ← interleave;
  v ← get_cell c;
  _ ← log (PlainRead c v);
  mret v.

Definition write (c : cell) (v : ptr) : M unit :=
  _ ← interleave;
  _ ← set_cell c v;
  log (PlainWrite c v).

(** [p->data] for an inline payload, [*p] for a box. *)
Definition get_value (l : loc) : M T :=
  fun s =>
    match heap (mem s) !! l with
    | Some (VNode d _) => Done d s
    | Some (Box v) => Done v s
    | _ => Undefined
    end.

Definition read_value (l : loc) : M T :=
  _ ← interleave;
  v ← get_value l;
  _ ← log (ReadValue l);
  mret v.

(** [new]: throws when the oracle says so, otherwise the object is placed
    at an address that is not in use. *)
Definition new_ (o : object) : M loc :=
  fun s =>
    let place (bs : list bool) :=
      let l := fresh (dom (heap (mem s))) in
      Done l (State (Memory (<[l := o]> (heap (mem s)))
                            (head_ (mem s)) (tail_ (mem s)))
                    (Alloc l :: trace s)
                    (Oracle bs (spurious (orc s)) (env (orc s)))) in
    match oom (orc s) with
    | [] => place []
    | true :: bs =>
        Thrown (State (mem s) (trace s)
                      (Oracle bs (spurious (orc s)) (env (orc s))))
    | false :: bs => place bs
    end.

(** [delete p] for a non-null [p]; deleting what is not allocated is
    undefined behaviour. *)
Definition free_cell (l : loc) : M unit :=
  fun s =>
    match heap (mem s) !! l with
    | Some _ =>
        Done tt (State (Memory (delete l (heap (mem s)))
                               (head_ (mem s)) (tail_ (mem s)))
                       (trace s) (orc s))
    | None => Undefined
    end.

Definition delete_ (l : loc) : M unit :=
  _ ← interleave;
  _ ← free_cell l;
  log (Free l).

End Machine.

Global Arguments object : clear implicits.
Global Arguments memory : clear implicits.
Global Arguments oracle : clear implicits.
Global Arguments state : clear implicits.
Global Arguments result : clear implicits.
Global Arguments M : clear implicits.

(** ** Objects whose members are atomics of integral type

    The other classes of the two files keep counters, flags and indices in
    [std::atomic] members.  Such an object is a value of a type [Σ]; a
    member function is a computation that reaches the object through its
    members only.  Other threads act between two accesses, as for the
    containers; the order of every atomic access is logged.  The machine
    interleaves whole accesses: that is exact for one thread, and for
    several threads as far as they meet in one atomic member. *)

Module SharedObject.
Section Machine.
Context {Σ : Type}.

Record run := Run {
  this : Σ;                     (* the object *)
  orders : list memory_order;   (* the atomic accesses made, newest first *)
  others : list (Σ → Σ)         (* what other threads do before the next access *)
}.

Inductive outcome (A : Type) :=
  | Returned (a : A) (r : run)
  | Faulted                     (* undefined behaviour *)
  | Starved.                    (* the loop used up its fuel *)
Global Arguments Returned {A} a r.
Global Arguments Faulted {A}.
Global Arguments Starved {A}.

Definition prog (A : Type) : Type := run → outcome A.

Definition unit_ {A} (a : A) : prog A := fun r => Returned a r.

Definition then_ {A B} (c : prog A) (k : A → prog B) : prog B :=
  fun r =>
    match c r with
    | Returned a r' => k a r'
    | Faulted => Faulted
    | Starved => Starved
    end.

#[export] Instance prog_ret : MRet prog := @unit_.
#[export] Instance prog_bind : MBind prog := fun A B k c => then_ c k.

Definition fault {A} : prog A := fun _ => Faulted.
Definition starve {A} : prog A := fun _ => Starved.

(** Other threads run before the access. *)
Definition step (r : run) : run :=
  match others r with
  | [] => r
  | f :: fs => Run (f (this r)) (orders r) fs
  end.

(** One access to the object: [f] gives the value read and the object
    afterwards, or nothing when the access is undefined behaviour. *)
Definition access {A} (f : Σ → option (A * Σ)) (mo : list memory_order)
    : prog A :=
  fun r =>
    let r' := step r in
    match f (this r') with
    | Some (a, σ) => Returned a (Run σ (mo ++ orders r') (others r'))
    | None => Faulted
    end.

(** A member of the object, or a member of something the object owns:
    how to read it and how to write it.  Both fail when the member is not
    there (an index out of bounds, an object that has been deleted). *)
Record member (V : Type) := Member {
  peek : Σ → option V;
  poke : V → Σ → option Σ
}.
Global Arguments Member {V} peek poke.
Global Arguments peek {V} m σ.
Global Arguments poke {V} m v σ.

(** [x.load(mo)] *)
Definition load {V} (x : member V) (mo : memory_order) : prog V :=
  access (λ σ, v ← peek x σ; Some (v, σ)) [mo].

(** [x.store(v, mo)] *)
Definition store {V} (x : member V) (v : V) (mo : memory_order) : prog unit :=
  access (λ σ, σ' ← poke x v σ; Some (tt, σ')) [mo].

(** An atomic read-modify-write: the member receives [f] of its value and
    the value it had is returned. *)
Definition read_modify_write {V} (x : member V) (f : V → V)
    (mo : memory_order) : prog V :=
  access (λ σ, v ← peek x σ; σ' ← poke x (f v) σ; Some (v, σ')) [mo].

(** [x.fetch_add(n, mo)] and [x.fetch_sub(n, mo)] on an integer that wraps
    as [wrap] says. *)
Definition fetch_add (wrap : Z → Z) (x : member Z) (n : Z)
    (mo : memory_order) : prog Z :=
  read_modify_write x (λ v, wrap (v + n)%Z) mo.

Definition fetch_sub (wrap : Z → Z) (x : member Z) (n : Z)
    (mo : memory_order) : prog Z :=
  read_modify_write x (λ v, wrap (v - n)%Z) mo.

(** [std::atomic_flag]: [test_and_set], [test] and [clear]. *)
Definition test_and_set (x : member bool) (mo : memory_order) : prog bool :=
  read_modify_write x (λ _, true) mo.

Definition test (x : member bool) (mo : memory_order) : prog bool :=
  load x mo.

Definition clear (x : member bool) (mo : memory_order) : prog unit :=
  store x false mo.

(** Accesses to a member that is not atomic. *)
Definition read {V} (x : member V) : prog V :=
  access (λ σ, v ← peek x σ; Some (v, σ)) [].

Definition write {V} (x : member V) (v : V) : prog unit :=
  access (λ σ, σ' ← poke x v σ; Some (tt, σ')) [].

(** [std::this_thread::yield()]: a hint to the scheduler. *)
Definition yield : prog unit := mret tt.

(** Calls made one after the other by one thread, with their results. *)
Fixpoint sequence {A} (cs : list (prog A)) : prog (list A) :=
  match cs with
  | [] => mret []
  | c :: cs' => a ← c; rest ← sequence cs'; mret (a :: rest)
  end.

(** The object once the other threads have done all they had to do. *)
Definition at_rest (r : run) : Σ := foldl (λ σ f, f σ) (this r) (others r).

(** A thread that runs alone. *)
Definition alone (σ : Σ) (os : list memory_order) : run := Run σ os [].

(** Another thread runs [c] to its end, without being interrupted. *)
Definition meanwhile {A} (c : prog A) : Σ → Σ :=
  fun σ =>
    match c (Run σ [] []) with
    | Returned _ r => this r
    | _ => σ
    end.

End Machine.

Global Arguments run : clear implicits.
Global Arguments outcome : clear implicits.
Global Arguments prog : clear implicits.
Global Arguments member : clear implicits.

(** [int]: an atomic [int] wraps round on overflow ([atomics.types.int]). *)
Definition int_wrap (z : Z) : Z := ((z + 2 ^ 31) `mod` 2 ^ 32 - 2 ^ 31)%Z.

(** [uint64_t], and [size_t] where it has 64 bits. *)
Definition uint64_wrap (z : Z) : Z := (z `mod` 2 ^ 64)%Z.
Definition size_t_wrap (z : Z) : Z := (z `mod` 2 ^ 64)%Z.

End SharedObject.

(** ** atomic.cpp *)

Module atomic_cpp.

(** *** [template<typename T> class LockFreeStack] (atomic.cpp) *)
Module LockFreeStack.
Section Code.
Context {T : Type}.

(** The state of a stack made by the implicit constructor:
    [std::atomic<Node*> head_{nullptr}]. *)
Definition construct : memory T := Memory ∅ None None.

(** [while (old_head &&
           !head_.compare_exchange_weak(old_head, old_head->next.load())) {}];
    the result is the value of [old_head] when the loop is left. *)
Fixpoint pop_loop (fuel : nat) (old_head : ptr) : M T ptr :=
  match old_head with
  | None => mret None
  | Some l =>
      match fuel with
      | O => spin
      | S fuel' =>
          nx ← load (NextOf l) memory_order_seq_cst;
          '(ok, observed) ←
            compare_exchange_weak Head (Some l) nx memory_order_seq_cst;
          if (ok : bool) then mret (Some l) else pop_loop fuel' observed
      end
  end.

(** [bool pop(T& result)]: the value returned and the value [result] holds
    afterwards. *)
Definition pop (fuel : nat) (result : T) : M T (bool * T) :=
  old_head ← load Head memory_order_seq_cst;
  old_head ← pop_loop fuel old_head;
  match old_head with
  | Some l =>
      v ← read_value l;
      _ ← delete_ l;
      mret (true, v)
  | None => mret (false, result)
  end.

(** [bool empty() const] *)
Definition empty : M T bool :=
  h ← load Head memory_order_seq_cst;
  mret (bool_decide (h = None)).

End Code.
End LockFreeStack.

(** *** [template<typename T> class LockFreeQueue] (atomic.cpp) *)
Module LockFreeQueue.
Section Code.
Context {T : Type}.

(** Storage of a queue object before its constructor has run. *)
Definition blank : memory T := Memory ∅ None None.

(** [LockFreeQueue()] *)
Definition construct : M T unit :=
  dummy ← new_ (PNode None None);
  _ ← store Head (Some dummy) memory_order_seq_cst;
  store Tail (Some dummy) memory_order_seq_cst.

(** One pass through the body of the [while (true)] loop of [dequeue]:
    [Some r] when the pass returns [r], [None] when it goes round again. *)
Definition dequeue_iter (result : T) : M T (option (bool * T)) :=
  first ← load Head memory_order_seq_cst;
  last ← load Tail memory_order_seq_cst;
  first_l ← deref first;
  next ← load (NextOf first_l) memory_order_seq_cst;
  head2 ← load Head memory_order_seq_cst;
  if decide (first = head2) then
    if decide (first = last) then
      match next with
      | None => mret (Some (false, result))
      | Some _ =>
          _ ← compare_exchange_weak Tail last next memory_order_seq_cst;
          mret None
      end
    else
      match next with
      | None => mret None
      | Some next_l =>
          data ← load (DataOf next_l) memory_order_seq_cst;
          match data with
          | None => mret None
          | Some data_l =>
              '(ok, _) ←
                compare_exchange_weak Head first next memory_order_seq_cst;
              if (ok : bool) then
                v ← read_value data_l;
                _ ← delete_ data_l;
                _ ← delete_ first_l;
                mret (Some (true, v))
              else mret None
          end
      end
  else mret None.

(** [bool dequeue(T& result)] *)
Fixpoint dequeue (fuel : nat) (result : T) : M T (bool * T) :=
  match fuel with
  | O => spin
  | S fuel' =>
      r ← dequeue_iter result;
      match r with
      | Some out => mret out
      | None => dequeue fuel' result
      end
  end.

(** [~LockFreeQueue()]:
    [while (Node* old_head = head_.load()) { head_.store(old_head->next);
    delete old_head; }] *)
Fixpoint destroy (fuel : nat) : M T unit :=
  match fuel with
  | O => spin
  | S fuel' =>
      old_head ← load Head memory_order_seq_cst;
      match old_head with
      | None => mret tt
      | Some l =>
          nx ← load (NextOf l) memory_order_seq_cst;
          _ ← store Head nx memory_order_seq_cst;
          _ ← delete_ l;
          destroy fuel'
      end
  end.

End Code.
End LockFreeQueue.

(** *** [class AtomicRefCounted] (atomic.cpp) *)
Module AtomicRefCounted.
Import SharedObject.

(** The object: its member [ref_count_], and whether [delete this] has
    run. *)
Record fields := Fields { the_ref_count : Z; deleted : bool }.

(** [mutable std::atomic<int> ref_count_{1}] *)
Definition construct : fields := Fields 1 false.

(** [ref_count_]; touching a member of a deleted object is undefined
    behaviour. *)
Definition ref_count_ : member fields Z :=
  Member (λ o, if deleted o then None else Some (the_ref_count o))
         (λ v o, if deleted o then None else Some (Fields v false)).

(** [delete this] *)
Definition delete_this : prog fields unit :=
  access (λ o, if deleted o then None
               else Some (tt, Fields (the_ref_count o) true)) [].

(** [void addRef() const] *)
Definition addRef : prog fields unit :=
  _ ← fetch_add int_wrap ref_count_ 1 memory_order_relaxed;
  mret tt.

(** [void release() const] *)
Definition release : prog fields unit :=
  old ← fetch_sub int_wrap ref_count_ 1 memory_order_acq_rel;
  if decide (old = 1%Z) then delete_this else mret tt.

(** [int getRefCount() const] *)
Definition getRefCount : prog fields Z :=
  load ref_count_ memory_order_relaxed.

End AtomicRefCounted.

(** *** [template<typename T> class AtomicSharedPtr] (atomic.cpp) *)
Module AtomicSharedPtr.
Import SharedObject.
Section Code.
Context {T : Type}.

(** [struct ControlBlock { T* ptr; std::atomic<int> ref_count; }] *)
Record ControlBlock := Block { cb_ptr : option positive; cb_ref_count : Z }.

(** What the smart pointers share: the objects of type [T] on the free
    store, the control blocks, and for every [AtomicSharedPtr] that exists,
    by its address, the value of its member [control_block_]. *)
Record world := World {
  objects : gmap positive T;
  blocks : gmap positive ControlBlock;
  pointers : gmap positive (option positive)
}.

(** [control_block_] of the smart pointer at [p] *)
Definition control_block_ (p : positive) : member world (option positive) :=
  Member (λ w, pointers w !! p)
         (λ v w, match pointers w !! p with
                 | Some _ =>
                     Some (World (objects w) (blocks w) (<[p := v]> (pointers w)))
                 | None => None
                 end).

(** [cb->ref_count] *)
Definition ref_count_of (cb : positive) : member world Z :=
  Member (λ w, cb_ref_count <$> blocks w !! cb)
         (λ v w, match blocks w !! cb with
                 | Some b =>
                     Some (World (objects w)
                                 (<[cb := Block (cb_ptr b) v]> (blocks w))
                                 (pointers w))
                 | None => None
                 end).

(** [cb->ptr] *)
Definition ptr_of (cb : positive) : member world (option positive) :=
  Member (λ w, cb_ptr <$> blocks w !! cb)
         (λ v w, match blocks w !! cb with
                 | Some b =>
                     Some (World (objects w)
                                 (<[cb := Block v (cb_ref_count b)]> (blocks w))
                                 (pointers w))
                 | None => None
                 end).

(** [new ControlBlock(ptr)], with [ControlBlock(T* p) : ptr(p),
    ref_count(1)]; the allocation does not fail here. *)
Definition new_ControlBlock (p : option positive) : prog world positive :=
  access (λ w, let cb := fresh (dom (blocks w)) in
               Some (cb, World (objects w) (<[cb := Block p 1]> (blocks w))
                               (pointers w))) [].

(** [delete p] for a [T* p]: nothing for null, undefined behaviour for what
    is not allocated. *)
Definition delete_object (p : option positive) : prog world unit :=
  match p with
  | None => mret tt
  | Some l =>
      access (λ w, match objects w !! l with
                   | Some _ =>
                       Some (tt, World (delete l (objects w)) (blocks w)
                                       (pointers w))
                   | None => None
                   end) []
  end.

(** [delete cb] *)
Definition delete_block (cb : positive) : prog world unit :=
  access (λ w, match blocks w !! cb with
               | Some _ =>
                   Some (tt, World (objects w) (delete cb (blocks w))
                                   (pointers w))
               | None => None
               end) [].

(** A smart pointer comes to exist at [p], with the default member
    initialiser [control_block_{nullptr}], and ceases to exist. *)
Definition begin_lifetime (p : positive) : prog world unit :=
  access (λ w, Some (tt, World (objects w) (blocks w)
                               (<[p := None]> (pointers w)))) [].

Definition end_lifetime (p : positive) : prog world unit :=
  access (λ w, match pointers w !! p with
               | Some _ =>
                   Some (tt, World (objects w) (blocks w)
                                   (delete p (pointers w)))
               | None => None
               end) [].

(** [AtomicSharedPtr() = default] *)
Definition construct (p : positive) : prog world unit :=
  begin_lifetime p.

(** [explicit AtomicSharedPtr(T* ptr)] *)
Definition construct_from (p : positive) (ptr : option positive)
    : prog world unit :=
  _ ← begin_lifetime p;
  match ptr with
  | Some _ =>
      cb ← new_ControlBlock ptr;
      store (control_block_ p) (Some cb) memory_order_seq_cst
  | None => mret tt
  end.

(** [AtomicSharedPtr(const AtomicSharedPtr& other)] *)
Definition construct_copy (p other : positive) : prog world unit :=
  _ ← begin_lifetime p;
  cb ← load (control_block_ other) memory_order_seq_cst;
  match cb with
  | Some c =>
      _ ← fetch_add int_wrap (ref_count_of c) 1 memory_order_seq_cst;
      store (control_block_ p) cb memory_order_seq_cst
  | None => mret tt
  end.

(** [void release()] *)
Definition release (p : positive) : prog world unit :=
  cb ← load (control_block_ p) memory_order_seq_cst;
  _ ← match cb with
      | Some c =>
          old ← fetch_sub int_wrap (ref_count_of c) 1 memory_order_seq_cst;
          if decide (old = 1%Z) then
            q ← read (ptr_of c);
            _ ← delete_object q;
            delete_block c
          else mret tt
      | None => mret tt
      end;
  store (control_block_ p) None memory_order_seq_cst.

(** [~AtomicSharedPtr()] *)
Definition destroy (p : positive) : prog world unit :=
  _ ← release p;
  end_lifetime p.

(** [AtomicSharedPtr& operator=(const AtomicSharedPtr& other)] *)
Definition assign (p other : positive) : prog world unit :=
  if decide (p ≠ other) then
    _ ← release p;
    cb ← load (control_block_ other) memory_order_seq_cst;
    match cb with
    | Some c =>
        _ ← fetch_add int_wrap (ref_count_of c) 1 memory_order_seq_cst;
        store (control_block_ p) cb memory_order_seq_cst
    | None => mret tt
    end
  else mret tt.

(** [T* get() const] *)
Definition get (p : positive) : prog world (option positive) :=
  cb ← load (control_block_ p) memory_order_seq_cst;
  match cb with
  | Some c => read (ptr_of c)
  | None => mret None
  end.

(** [operator bool() const] *)
Definition to_bool (p : positive) : prog world bool :=
  q ← get p;
  mret (bool_decide (q ≠ None)).

(** [T& operator*() const], read as a value. *)
Definition deref (p : positive) : prog world T :=
  q ← get p;
  match q with
  | Some l => access (λ w, v ← objects w !! l; Some (v, w)) []
  | None => fault
  end.

End Code.
Global Arguments ControlBlock : clear implicits.
Global Arguments world : clear implicits.
End AtomicSharedPtr.

(** *** [class AtomicProducerConsumer] (atomic.cpp) *)
Module AtomicProducerConsumer.
Import SharedObject.
Open Scope Z_scope.

(** [static constexpr size_t BUFFER_SIZE = 1024] *)
Definition BUFFER_SIZE : Z := 1024.

(** [struct Item { std::atomic<bool> ready{false}; int data; }]; [data] has
    no initialiser and holds no value until it is assigned. *)
Record Item := MkItem { item_ready : bool; item_data : option Z }.

Record fields := Fields {
  the_write_pos : Z;
  the_read_pos : Z;
  the_buffer : list Item
}.

(** The object after its implicit constructor. *)
Definition construct : fields :=
  Fields 0 0 (replicate (Z.to_nat BUFFER_SIZE) (MkItem false None)).

Definition write_pos_ : member fields Z :=
  Member (λ o, Some (the_write_pos o))
         (λ v o, Some (Fields v (the_read_pos o) (the_buffer o))).

Definition read_pos_ : member fields Z :=
  Member (λ o, Some (the_read_pos o))
         (λ v o, Some (Fields (the_write_pos o) v (the_buffer o))).

(** [buffer_[i]]; an index outside the array is undefined behaviour. *)
Definition item_at (o : fields) (i : Z) : option Item :=
  if decide (0 ≤ i) then the_buffer o !! Z.to_nat i else None.

Definition set_item (o : fields) (i : Z) (it : Item) : fields :=
  Fields (the_write_pos o) (the_read_pos o)
         (<[Z.to_nat i := it]> (the_buffer o)).

(** [buffer_[i].ready] *)
Definition ready_of (i : Z) : member fields bool :=
  Member (λ o, item_ready <$> item_at o i)
         (λ v o, it ← item_at o i;
                 Some (set_item o i (MkItem v (item_data it)))).

(** [buffer_[i].data]; reading it before it has been assigned is undefined
    behaviour. *)
Definition data_of (i : Z) : member fields Z :=
  Member (λ o, it ← item_at o i; item_data it)
         (λ v o, it ← item_at o i;
                 Some (set_item o i (MkItem (item_ready it) (Some v)))).

(** [bool produce(int item)] *)
Definition produce (item : Z) : prog fields bool :=
  current_write ← load write_pos_ memory_order_relaxed;
  let next_write := size_t_wrap (current_write + 1) `mod` BUFFER_SIZE in
  r ← load read_pos_ memory_order_acquire;
  if decide (next_write = r) then mret false
  else
    _ ← write (data_of current_write) item;
    _ ← store (ready_of current_write) true memory_order_release;
    _ ← store write_pos_ next_write memory_order_relaxed;
    mret true.

(** [bool consume(int& item)]: the value returned and the value [item]
    holds afterwards. *)
Definition consume (item : Z) : prog fields (bool * Z) :=
  current_read ← load read_pos_ memory_order_relaxed;
  is_ready ← load (ready_of current_read) memory_order_acquire;
  if negb is_ready then mret (false, item)
  else
    v ← read (data_of current_read);
    _ ← store (ready_of current_read) false memory_order_relaxed;
    _ ← store read_pos_ (size_t_wrap (current_read + 1) `mod` BUFFER_SIZE)
          memory_order_release;
    mret (true, v).

(** [size_t size() const] *)
Definition size : prog fields Z :=
  write_pos ← load write_pos_ memory_order_relaxed;
  read_pos ← load read_pos_ memory_order_relaxed;
  if decide (read_pos ≤ write_pos) then
    mret (size_t_wrap (write_pos - read_pos))
  else
    mret (size_t_wrap (size_t_wrap (BUFFER_SIZE - read_pos) + write_pos)).

Close Scope Z_scope.
End AtomicProducerConsumer.

(** *** [class Spinlock] (atomic.cpp) *)
Module Spinlock.
Import SharedObject.

(** [std::atomic_flag flag_ = ATOMIC_FLAG_INIT]: the object is its flag. *)
Definition construct : bool := false.

Definition flag_ : member bool bool := Member Some (λ v _, Some v).

(** [while (flag_.test(std::memory_order_relaxed)) {
       std::this_thread::yield(); }] *)
Fixpoint wait (fuel : nat) : prog bool unit :=
  match fuel with
  | O => starve
  | S fuel' =>
      held ← test flag_ memory_order_relaxed;
      if (held : bool) then _ ← yield; wait fuel' else mret tt
  end.

(** [void lock()]: [while (flag_.test_and_set(std::memory_order_acquire))
    { ... }]; the inner loop has the fuel that is left. *)
Fixpoint lock (fuel : nat) : prog bool unit :=
  match fuel with
  | O => starve
  | S fuel' =>
      held ← test_and_set flag_ memory_order_acquire;
      if (held : bool) then _ ← wait fuel'; lock fuel' else mret tt
  end.

(** [bool try_lock()] *)
Definition try_lock : prog bool bool :=
  held ← test_and_set flag_ memory_order_acquire;
  mret (negb held).

(** [void unlock()] *)
Definition unlock : prog bool unit :=
  clear flag_ memory_order_release.

End Spinlock.

(** *** [class MemoryOrderingDemo] (atomic.cpp) *)
Module MemoryOrderingDemo.
Import SharedObject.

Record fields := Fields { the_data : Z; the_ready : bool }.

(** [std::atomic<int> data_{0}; std::atomic<bool> ready_{false}] *)
Definition construct : fields := Fields 0 false.

Definition data_ : member fields Z :=
  Member (λ o, Some (the_data o)) (λ v o, Some (Fields v (the_ready o))).

Definition ready_ : member fields bool :=
  Member (λ o, Some (the_ready o)) (λ v o, Some (Fields (the_data o) v)).

(** The three writers: [data_.store(value, d); ready_.store(true, r)]. *)
Definition write_with (d r : memory_order) (value : Z) : prog fields unit :=
  _ ← store data_ value d;
  store ready_ true r.

(** The three readers:
    [while (!ready_.load(r)) { std::this_thread::yield(); }
     return data_.load(d);] *)
Fixpoint read_with (r d : memory_order) (fuel : nat) : prog fields Z :=
  match fuel with
  | O => starve
  | S fuel' =>
      is_ready ← load ready_ r;
      if (is_ready : bool) then load data_ d
      else _ ← yield; read_with r d fuel'
  end.

(** [void write_relaxed(int value)], [int read_relaxed()] *)
Definition write_relaxed : Z → prog fields unit :=
  write_with memory_order_relaxed memory_order_relaxed.
Definition read_relaxed : nat → prog fields Z :=
  read_with memory_order_relaxed memory_order_relaxed.

(** [void write_acq_rel(int value)], [int read_acq_rel()] *)
Definition write_acq_rel : Z → prog fields unit :=
  write_with memory_order_relaxed memory_order_release.
Definition read_acq_rel : nat → prog fields Z :=
  read_with memory_order_acquire memory_order_relaxed.

(** [void write_seq_cst(int value)], [int read_seq_cst()] *)
Definition write_seq_cst : Z → prog fields unit :=
  write_with memory_order_seq_cst memory_order_seq_cst.
Definition read_seq_cst : nat → prog fields Z :=
  read_with memory_order_seq_cst memory_order_seq_cst.

End MemoryOrderingDemo.

End atomic_cpp.

(** ** 04_atomic_operations.cpp *)

Module atomic_operations_04.

(** *** [template<typename T> class LockFreeStack] (04_atomic_operations.cpp) *)
Module LockFreeStack.
Section Code.
Context {T : Type}.

(** [LockFreeStack() : head_(nullptr) {}] *)
Definition construct : memory T := Memory ∅ None None.

(** [while (!head_.compare_exchange_weak(new_node->next, new_node)) {}];
    [next] is a plain [Node*]. *)
Fixpoint push_loop (fuel : nat) (new_node : loc) : M T unit :=
  match fuel with
  | O => spin
  | S fuel' =>
      expected ← read (NextOf new_node);
      '(ok, observed) ←
        compare_exchange_weak Head expected (Some new_node)
          memory_order_seq_cst;
      if (ok : bool) then mret tt
      else
        _ ← write (NextOf new_node) observed;
        push_loop fuel' new_node
  end.

(** [void push(T item)] *)
Definition push (fuel : nat) (item : T) : M T unit :=
  new_node ← new_ (PNode None None);
  box ← new_ (Box item);
  _ ← store (DataOf new_node) (Some box) memory_order_seq_cst;
  h ← load Head memory_order_seq_cst;
  _ ← write (NextOf new_node) h;
  push_loop fuel new_node.

(** [while (old_head &&
           !head_.compare_exchange_weak(old_head, old_head->next)) {}] *)
Fixpoint pop_loop (fuel : nat) (old_head : ptr) : M T ptr :=
  match old_head with
  | None => mret None
  | Some l =>
      match fuel with
      | O => spin
      | S fuel' =>
          nx ← read (NextOf l);
          '(ok, observed) ←
            compare_exchange_weak Head (Some l) nx memory_order_seq_cst;
          if (ok : bool) then mret (Some l) else pop_loop fuel' observed
      end
  end.

(** [std::unique_ptr<T> pop()]: the pointer the result owns. *)
Definition pop (fuel : nat) : M T ptr :=
  old_head ← load Head memory_order_seq_cst;
  old_head ← pop_loop fuel old_head;
  match old_head with
  | Some l =>
      d ← load (DataOf l) memory_order_seq_cst;
      _ ← delete_ l;
      mret d
  | None => mret None
  end.

(** What the caller sees of a [std::unique_ptr<T>]: nothing when it is
    null, else the element it owns, which its destructor then deletes. *)
Definition unique_ptr_take (p : ptr) : M T (option T) :=
  match p with
  | None => mret None
  | Some b =>
      v ← read_value b;
      _ ← delete_ b;
      mret (Some v)
  end.

(** [pop] together with the use and the destruction of its result. *)
Definition pop_value (fuel : nat) : M T (option T) :=
  p ← pop fuel; unique_ptr_take p.

(** [bool empty() const] *)
Definition empty : M T bool :=
  h ← load Head memory_order_seq_cst;
  mret (bool_decide (h = None)).

End Code.
End LockFreeStack.

(** *** [class WaitFreeCounter] (04_atomic_operations.cpp) *)
Module WaitFreeCounter.
Import SharedObject.

(** [WaitFreeCounter() : counter_(0) {}]: the object is its counter, a
    [std::atomic<uint64_t>]. *)
Definition construct : Z := 0%Z.

Definition counter_ : member Z Z := Member Some (λ v _, Some v).

(** [uint64_t increment()] *)
Definition increment : prog Z Z :=
  fetch_add uint64_wrap counter_ 1 memory_order_relaxed.

(** [uint64_t get() const] *)
Definition get : prog Z Z :=
  load counter_ memory_order_relaxed.

(** [uint64_t add(uint64_t value)] *)
Definition add (value : Z) : prog Z Z :=
  fetch_add uint64_wrap counter_ value memory_order_relaxed.

End WaitFreeCounter.

(** *** [class ABAProneStack], over [struct Node { int data; ... }] *)
Module ABAProneStack.

(** [ABAProneStack() : head_(nullptr) {}] *)
Definition construct : memory Z := Memory ∅ None None.

(** [do { new_node->next.store(old_head); }
     while (!head_.compare_exchange_weak(old_head, new_node));] *)
Fixpoint push_loop (fuel : nat) (new_node : loc) (old_head : ptr)
    : M Z unit :=
  match fuel with
  | O => spin
  | S fuel' =>
      _ ← store (NextOf new_node) old_head memory_order_seq_cst;
      '(ok, observed) ←
        compare_exchange_weak Head old_head (Some new_node)
          memory_order_seq_cst;
      if (ok : bool) then mret tt else push_loop fuel' new_node observed
  end.

(** [void push(int data)] *)
Definition push (fuel : nat) (data : Z) : M Z unit :=
  new_node ← new_ (VNode data None);
  old_head ← load Head memory_order_seq_cst;
  push_loop fuel new_node old_head.

(** [bool pop(int& result)] *)
Definition pop (result : Z) : M Z (bool * Z) :=
  old_head ← load Head memory_order_seq_cst;
  match old_head with
  | None => mret (false, result)
  | Some l =>
      next ← load (NextOf l) memory_order_seq_cst;
      '(ok, _) ←
        compare_exchange_strong Head old_head next memory_order_seq_cst;
      if (ok : bool) then
        v ← read_value l;
        _ ← delete_ l;
        mret (true, v)
      else mret (false, result)
  end.

(** [~ABAProneStack()]: [int dummy; while (pop(dummy)) {}] *)
Fixpoint destroy (fuel : nat) (dummy : Z) : M Z unit :=
  match fuel with
  | O => spin
  | S fuel' =>
      '(ok, dummy') ← pop dummy;
      if (ok : bool) then destroy fuel' dummy' else mret tt
  end.

End ABAProneStack.

End atomic_operations_04.

(** * Specification-level definitions *)

(** ** The driver loops of [demonstrateLockFreeDataStructures], and calls
    through the stack interface *)

Section Drivers.
Context {T : Type}.

(** [for (const auto& item : items) { op(item); }] *)
Fixpoint for_each (op : T → M T unit) (items : list T) : M T unit :=
  match items with
  | [] => mret tt
  | item :: items' => _ ← op item; for_each op items'
  end.

(** [while (pop(value)) { ... }]: the values in the order they came out. *)
Fixpoint drain (pop : T → M T (bool * T)) (rounds : nat) (value : T)
    : M T (list T) :=
  match rounds with
  | O => spin
  | S rounds' =>
      '(ok, value') ← pop value;
      if (ok : bool) then
        rest ← drain pop rounds' value';
        mret (value' :: rest)
      else mret []
  end.

(** A call of the stack interface and what the caller sees of it. *)
Inductive call :=
  | Push (v : T)
  | Pop
  | Empty.

Inductive observation :=
  | Pushed
  | Popped (v : option T)
  | IsEmpty (b : bool).

Fixpoint run_calls (perform : call → M T observation) (cs : list call)
    : M T (list observation) :=
  match cs with
  | [] => mret []
  | c :: cs' =>
      o ← perform c;
      os ← run_calls perform cs';
      mret (o :: os)
  end.

(** The stack of 04_atomic_operations.cpp behind the interface. *)
Definition mt_call (fuel : nat) (c : call) : M T observation :=
  match c with
  | Push v => _ ← atomic_operations_04.LockFreeStack.push fuel v; mret Pushed
  | Pop =>
      p ← atomic_operations_04.LockFreeStack.pop fuel;
      v ← atomic_operations_04.LockFreeStack.unique_ptr_take p;
      mret (Popped v)
  | Empty => b ← atomic_operations_04.LockFreeStack.empty; mret (IsEmpty b)
  end.

(** A sequential stack as a list, newest element first. *)
Definition model_call (c : call) (xs : list T) : observation * list T :=
  match c with
  | Push v => (Pushed, v :: xs)
  | Pop =>
      match xs with
      | [] => (Popped None, [])
      | x :: xs' => (Popped (Some x), xs')
      end
  | Empty => (IsEmpty (match xs with [] => true | _ => false end), xs)
  end.

Fixpoint model_run (cs : list call) (xs : list T) : list observation :=
  match cs with
  | [] => []
  | c :: cs' => (model_call c xs).1 :: model_run cs' (model_call c xs).2
  end.

(** The list the calls leave behind. *)
Fixpoint model_end (cs : list call) (xs : list T) : list T :=
  match cs with
  | [] => xs
  | c :: cs' => model_end cs' (model_call c xs).2
  end.

(** Another thread runs [op] to its end, alone. *)
Definition as_env {A} (op : M T A) : memory T → memory T :=
  fun m =>
    match op (State m [] (Oracle [] [] [])) with
    | Done _ s' => mem s'
    | _ => m
    end.

End Drivers.

(** ** Reasoning about one thread that runs alone

    [St m tr sp] is a state without interference and without allocation
    failure; [sp] says which weak exchanges fail spuriously. *)

Section Alone.
Context {T : Type}.

Definition St (m : memory T) (tr : list event) (sp : list bool) : state T :=
  State m tr (Oracle [] sp []).

(** [c] started in [s] returns, with a value and a state that satisfy [Q]:
    it neither throws nor spins nor runs into undefined behaviour. *)
Definition wp {A} (c : M T A) (s : state T) (Q : A → state T → Prop) : Prop :=
  match c s with
  | Done a s' => Q a s'
  | _ => False
  end.

(** [s] is again a state of a thread that runs alone, at most [n] spurious
    failures are still to come, and the memory satisfies [P]. *)
Definition settled (n : nat) (P : memory T → Prop) (s : state T) : Prop :=
  ∃ m tr sp, s = St m tr sp ∧ length sp ≤ n ∧ P m.

Global Arguments wp : simpl never.

End Alone.

(** ** What the heap of a stack looks like *)

Section StackShape.
Context {T : Type}.

(** From [p] on, [h] holds a chain of nodes with inline elements [xs], no
    node twice, ending in null: the heap of the stack of atomic.cpp and of
    [ABAProneStack]. *)
Fixpoint chain (h : gmap positive (object T)) (p : ptr) (xs : list T) : Prop :=
  match xs with
  | [] => p = None
  | x :: xs' =>
      ∃ l nx, p = Some l ∧ h !! l = Some (VNode x nx) ∧
              chain (delete l h) nx xs'
  end.

(** The stack holds the elements [xs], newest first. *)
Definition stack_rep (m : memory T) (xs : list T) : Prop :=
  chain (heap m) (head_ m) xs.

(** The addresses of the first [n] nodes of such a chain, from [p] on. *)
Fixpoint stack_nodes (n : nat) (h : gmap positive (object T)) (p : ptr)
    : list loc :=
  match n, p with
  | S n', Some l =>
      match h !! l with
      | Some (VNode _ nx) => l :: stack_nodes n' (delete l h) nx
      | _ => []
      end
  | _, _ => []
  end.

(** The same for nodes that point at their element: the heap of the stack
    of 04_atomic_operations.cpp. *)
Fixpoint pchain (h : gmap positive (object T)) (p : ptr) (xs : list T) : Prop :=
  match xs with
  | [] => p = None
  | x :: xs' =>
      ∃ l b nx, p = Some l ∧ h !! l = Some (PNode (Some b) nx) ∧
                h !! b = Some (Box x) ∧
                pchain (delete b (delete l h)) nx xs'
  end.

Definition pstack_rep (m : memory T) (xs : list T) : Prop :=
  pchain (heap m) (head_ m) xs.

End StackShape.

(** ** What the heap of a queue looks like

    The nodes from the head node on are linked through [next] and end in
    null; every node after the head node owns a box with an element;
    [tail_] is the last node or the one before it. *)

Section QueueShape.
Context {T : Type}.
Import atomic_cpp.LockFreeQueue.

(** A node behind the head node, the box its [data] points at, and the
    element in the box. *)
Record slot := Slot { slot_node : loc; slot_box : loc; slot_value : T }.

(** [l] and then the nodes [ns] follow one another through [next]; the last
    [next] is null. *)
Fixpoint linked (h : gmap positive (object T)) (l : loc) (ns : list loc) : Prop :=
  match ns with
  | [] => ∃ d, h !! l = Some (PNode d None)
  | n :: ns' => (∃ d, h !! l = Some (PNode d (Some n))) ∧ linked h n ns'
  end.

(** The addresses the queue owns. *)
Definition footprint (hd : loc) (cells : list slot) : list loc :=
  hd :: map slot_node cells ++ map slot_box cells.

(** The node of [c] points at the box of [c], which holds its element. *)
Definition filled (h : gmap positive (object T)) (c : slot) : Prop :=
  (∃ nx, h !! slot_node c = Some (PNode (Some (slot_box c)) nx)) ∧
  h !! slot_box c = Some (Box (slot_value c)).

(** [head_] is the node [hd], whose own [data] does not matter (it is the
    dummy, or a node whose element has been taken); the nodes of [cells]
    follow it; [tail_] is the node [t], with at most one node behind it. *)
Definition queue_shape_at (m : memory T) (hd : loc) (cells : list slot)
    (pre : list loc) (t : loc) (suf : list loc) : Prop :=
  head_ m = Some hd ∧
  NoDup (footprint hd cells) ∧
  linked (heap m) hd (map slot_node cells) ∧
  Forall (filled (heap m)) cells ∧
  hd :: map slot_node cells = pre ++ t :: suf ∧
  length suf ≤ 1 ∧
  tail_ m = Some t.

Definition queue_shape (m : memory T) (hd : loc) (cells : list slot) : Prop :=
  ∃ pre t suf, queue_shape_at m hd cells pre t suf.

(** What [dequeue] with out-parameter [r] returns and leaves on a queue
    with the cells [cells]. *)
Definition dequeue_post (r : T) (m : memory T) (sp : list bool)
    (cells : list slot) (out : bool * T) (s' : state T) : Prop :=
  match cells with
  | [] => out = (false, r) ∧ ∃ tr', s' = St m tr' sp
  | c :: cells' =>
      out = (true, slot_value c) ∧
      settled (length sp) (λ m', queue_shape m' (slot_node c) cells') s'
  end.

End QueueShape.

(** ** Properties of the access log *)

Abbreviation sc := memory_order_seq_cst (only parsing).

(** The memory order of an atomic operation. *)
Definition atomic_order (e : event) : option memory_order :=
  match e with
  | AtomicLoad _ _ mo | AtomicStore _ _ mo | AtomicCas _ _ _ _ _ mo => Some mo
  | _ => None
  end.

(** The event is not an atomic operation, or it is one with
    [memory_order_seq_cst]. *)
Definition seq_cst_if_atomic (e : event) : Prop :=
  match atomic_order e with
  | Some mo => mo = memory_order_seq_cst
  | None => True
  end.

(** [atomics.order]: a load with one of these orders performs an acquire
    operation, a store with one of those a release operation; a
    read-modify-write performs whichever its order gives. *)
Definition performs_acquire (mo : memory_order) : bool :=
  match mo with
  | memory_order_acquire | memory_order_acq_rel | memory_order_seq_cst => true
  | _ => false
  end.

Definition performs_release (mo : memory_order) : bool :=
  match mo with
  | memory_order_release | memory_order_acq_rel | memory_order_seq_cst => true
  | _ => false
  end.

(** An atomic load acquires, an atomic store releases, an exchange does
    both. *)
Definition synchronises (e : event) : Prop :=
  match e with
  | AtomicLoad _ _ mo => performs_acquire mo = true
  | AtomicStore _ _ mo => performs_release mo = true
  | AtomicCas _ _ _ _ _ mo =>
      performs_acquire mo = true ∧ performs_release mo = true
  | _ => True
  end.

(** The event does not put null into [head_] or [tail_]. *)
Definition keeps_ends_non_null (e : event) : Prop :=
  match e with
  | AtomicStore Head v _ | AtomicStore Tail v _ => v ≠ None
  | AtomicCas Head _ d _ true _ | AtomicCas Tail _ d _ true _ => d ≠ None
  | PlainWrite Head v | PlainWrite Tail v => v ≠ None
  | _ => True
  end.

(** The event is a read of [head_] that found it null. *)
Definition observes_empty (e : event) : bool :=
  match e with
  | AtomicLoad Head None _ => true
  | AtomicCas Head _ _ None _ _ => true
  | _ => false
  end.

(** The exchange of [ABAProneStack::pop] lost against another thread. *)
Definition lost_race (evs : list event) : Prop :=
  ∃ l nx cur, cur ≠ Some l ∧
    evs = [AtomicCas Head (Some l) nx cur false sc; AtomicLoad (NextOf l) nx sc;
           AtomicLoad Head (Some l) sc].

Section Logs.
Context {T : Type}.

(** Whatever the state, the events [c] logs all satisfy [P]. *)
Definition emits {A} (P : event → Prop) (c : M T A) : Prop :=
  ∀ s, match c s with
       | Done _ s' | Thrown s' =>
           ∃ evs, trace s' = evs ++ trace s ∧ Forall P evs
       | _ => True
       end.

(** Whenever [c] returns, the value returned, the events logged on the way
    and the memory at the end are related by [R]; nothing is assumed about
    the state [c] starts in. *)
Definition yields {A} (c : M T A)
    (R : A → list event → memory T → Prop) : Prop :=
  ∀ s a s', c s = Done a s' →
    ∃ evs, trace s' = evs ++ trace s ∧ R a evs (mem s').

(** The four loads every pass of [dequeue] starts with, newest first. *)
Definition snapshot (fl : loc) (last next head2 : ptr) : list event :=
  [AtomicLoad Head head2 sc; AtomicLoad (NextOf fl) next sc; AtomicLoad Tail last sc;
   AtomicLoad Head (Some fl) sc].

(** The events of a pass that took an element out. *)
Definition unlinking (fl nl dl : loc) : list event :=
  [Free fl; Free dl; ReadValue dl;
   AtomicCas Head (Some fl) (Some nl) (Some fl) true sc;
   AtomicLoad (DataOf nl) (Some dl) sc].

(** What a pass of [dequeue] does after it has loaded [Some fl] from
    [head_], [last] from [tail_], [next] from [fl->next] and [head2] from
    [head_] again: [o] is its outcome and [rest] what it logs then. *)
Definition pass_outcome (r : T) (o : option (bool * T)) (fl : loc)
    (last next head2 : ptr) (rest : list event) (m : memory T) : Prop :=
  (Some fl = last → next ≠ None →
     o = None ∧
     if decide (head2 = Some fl)
     then ∃ cur ok, rest = [AtomicCas Tail last next cur ok sc]
     else rest = []) ∧
  (∀ out, o = Some (false, out) →
     out = r ∧ rest = [] ∧ Some fl = last ∧ next = None ∧
     head2 = Some fl) ∧
  (∀ v, o = Some (true, v) →
     ∃ nl dl, next = Some nl ∧ Some fl ≠ last ∧ head2 = Some fl ∧
              rest = unlinking fl nl dl ∧ heap m !! fl = None).

(** The container as it was: both members and every object of the heap. *)
Definition preserved (s s' : state T) : Prop :=
  head_ (mem s') = head_ (mem s) ∧ tail_ (mem s') = tail_ (mem s) ∧
  heap (mem s) ⊆ heap (mem s').

End Logs.

(** ** The claims as properties of an operation *)

Section Claims.
Context {T : Type}.

(** A call returns false exactly when one of its reads of [head_] found it
    null. *)
Definition false_iff_observed_empty (pop : M T (bool * T)) : Prop :=
  ∀ s out s', pop s = Done out s' →
    ∃ evs, trace s' = evs ++ trace s ∧
           (out.1 = false ↔ existsb observes_empty evs = true).

(** The node a successful call unlinks is still allocated when the call
    returns: freeing it is left to a later reclamation pass. *)
Definition reclaims_later (take : M T (bool * T)) : Prop :=
  ∀ m tr sp v s' l,
    take (St m tr sp) = Done (true, v) s' → head_ m = Some l →
    is_Some (heap (mem s') !! l).

(** A pass of [dequeue] that loads [head_ == tail_] and a non-null
    [head_->next] goes on with a [compare_exchange_weak] on [tail_]. *)
Definition always_helps (pass : M T (option (bool * T))) : Prop :=
  ∀ s o s' fl nl head2 rest,
    pass s = Done o s' →
    trace s' = rest ++ snapshot fl (Some fl) (Some nl) head2 ++ trace s →
    ∃ cur ok, rest = [AtomicCas Tail (Some fl) (Some nl) cur ok memory_order_seq_cst].

(** The order the policy asks of an access to [head_]: acquire for a load,
    release or acquire-release for an exchange that installs a node. *)
Definition acquire_release_policy (e : event) : Prop :=
  match e with
  | AtomicLoad Head _ mo => mo = memory_order_acquire
  | AtomicCas Head _ (Some _) _ _ mo =>
      mo = memory_order_release ∨ mo = memory_order_acq_rel
  | _ => True
  end.

End Claims.

(** ** States the counterexamples start from *)

(** An [ABAProneStack] holding the single element 1. *)
Definition aba_one : memory Z :=
  as_env (atomic_operations_04.ABAProneStack.push 1 1%Z)
    atomic_operations_04.ABAProneStack.construct.

(** The running thread pops while another thread pushes 2 between its load
    of [head_->next] and its exchange. *)
Definition aba_raced : state Z :=
  State aba_one []
    (Oracle [] [] [id; id; as_env (atomic_operations_04.ABAProneStack.push 1 2%Z)]).

(** A [LockFreeStack] of atomic.cpp holding the single element 7. *)
Definition stack_one : memory Z :=
  Memory {[1%positive := VNode 7%Z None]} (Some 1%positive) None.

(** The running thread pops while another thread pops between its load of
    [head_] and its load of [head_->next]. *)
Definition stack_raced : state Z :=
  State stack_one []
    (Oracle [] [] [id; as_env (atomic_cpp.LockFreeStack.pop 1 0%Z)]).

(** A [LockFreeQueue] holding the single element 5: the head node at
    address 1, the node of the element at 2, the element itself at 3. *)
Definition queue_one : memory Z :=
  Memory {[1%positive := PNode None (Some 2%positive);
           2%positive := PNode (Some 3%positive) None;
           3%positive := Box 5%Z]}
    (Some 1%positive) (Some 2%positive).

(** The same queue with [tail_] one node behind: it still points at the
    head node. *)
Definition queue_lagging : memory Z :=
  Memory {[1%positive := PNode None (Some 2%positive);
           2%positive := PNode (Some 3%positive) None;
           3%positive := Box 5%Z]}
    (Some 1%positive) (Some 1%positive).

(** The running thread starts a pass on the lagging queue; another thread
    dequeues between its load of [head_->next] and its second load of
    [head_]. *)
Definition queue_raced : state Z :=
  State queue_lagging []
    (Oracle [] [] [id; id; id; as_env (atomic_cpp.LockFreeQueue.dequeue 3 0%Z)]).

(** ** States and measures of the further properties *)

(** A stack of 04_atomic_operations.cpp holding the single element 7. *)
Definition mt_one : memory Z :=
  as_env (atomic_operations_04.LockFreeStack.push 1 7%Z)
    atomic_operations_04.LockFreeStack.construct.

(** A [LockFreeStack] of atomic.cpp holding 3, 2, 1: the node of the 3 at
    address 3, and so on. *)
Definition stack_three : memory Z :=
  Memory {[1%positive := VNode 1%Z None;
           2%positive := VNode 2%Z (Some 1%positive);
           3%positive := VNode 3%Z (Some 2%positive)]}
    (Some 3%positive) None.

(** A [LockFreeQueue] holding 5 and 6: the head node at address 1, the
    nodes of the elements at 2 and 4, the elements at 3 and 5. *)
Definition queue_two : memory Z :=
  Memory {[1%positive := PNode None (Some 2%positive);
           2%positive := PNode (Some 3%positive) (Some 4%positive);
           3%positive := Box 5%Z;
           4%positive := PNode (Some 5%positive) None;
           5%positive := Box 6%Z]}
    (Some 1%positive) (Some 4%positive).

(** An [ABAProneStack] holding 3, 2, 1. *)
Definition aba_three : memory Z :=
  as_env (_ ← atomic_operations_04.ABAProneStack.push 1 1%Z;
          _ ← atomic_operations_04.ABAProneStack.push 1 2%Z;
          atomic_operations_04.ABAProneStack.push 1 3%Z)
    atomic_operations_04.ABAProneStack.construct.

(** Another thread pops twice, allocates an [int] of its own and pushes 9:
    the node of the 9 gets the address the node of the 3 had. *)
Definition aba_recycle : memory Z → memory Z :=
  as_env (_ ← atomic_operations_04.ABAProneStack.pop 0%Z;
          _ ← atomic_operations_04.ABAProneStack.pop 0%Z;
          _ ← new_ (Box 0%Z);
          atomic_operations_04.ABAProneStack.push 1 9%Z).

(** ** Other threads at work on the stack of 04_atomic_operations.cpp *)

Section Interference.
Context {T : Type}.

(** The memory once the other threads have made their next step. *)
Definition after (en : list (memory T → memory T)) (m : memory T) : memory T :=
  match en with
  | [] => m
  | f :: _ => f m
  end.

(** A stack that holds [ys] lies apart from the objects at the addresses
    [own]: none of them is a node or an element of it. *)
Definition apart (own : list loc) (m : memory T) (ys : list T) : Prop :=
  pchain (foldr delete (heap m) own) (head_ m) ys.

(** The step [f] of other threads makes [g ys] of a stack that holds [ys],
    and leaves every object alone that lies apart from the stack. *)
Definition acts_as (f : memory T → memory T) (g : list T → list T) : Prop :=
  ∀ own m ys,
    Forall (λ o, is_Some (heap m !! o)) own → apart own m ys →
    Forall (λ o, heap (f m) !! o = heap m !! o) own ∧ apart own (f m) (g ys).


(** What the first [k] of the steps with the effects [gs] make of [ys]. *)
Definition effect_of (k : nat) (gs : list (list T → list T)) (ys : list T)
    : list T :=
  foldl (λ ys g, g ys) ys (take k gs).


End Interference.

Definition sum_of (vs : list Z) : Z := foldr Z.add 0%Z vs.

(** A call that changes a [WaitFreeCounter], and by how much. *)
Inductive counter_call :=
  | Increment
  | Add (value : Z).

Definition counter_perform (c : counter_call) : SharedObject.prog Z Z :=
  match c with
  | Increment => atomic_operations_04.WaitFreeCounter.increment
  | Add value => atomic_operations_04.WaitFreeCounter.add value
  end.

Definition amount (c : counter_call) : Z :=
  match c with
  | Increment => 1%Z
  | Add value => value
  end.

(** ** The ring buffer of [AtomicProducerConsumer] as a queue *)

Section Ring.
Import SharedObject atomic_cpp.AtomicProducerConsumer.
Open Scope Z_scope.

(** The buffer holds the items [xs], oldest first: they sit in the slots
    from [read_pos_] on, round the end of the array, with [ready] set;
    [write_pos_] is the slot behind them; every other slot has [ready]
    clear. *)
Definition holds (q : fields) (xs : list Z) : Prop :=
  0 ≤ the_read_pos q < BUFFER_SIZE ∧
  the_write_pos q = (the_read_pos q + Z.of_nat (length xs)) `mod` BUFFER_SIZE ∧
  Z.of_nat (length xs) < BUFFER_SIZE ∧
  length (the_buffer q) = Z.to_nat BUFFER_SIZE ∧
  (∀ (i : nat) x, xs !! i = Some x →
     item_at q ((the_read_pos q + Z.of_nat i) `mod` BUFFER_SIZE) =
     Some (MkItem true (Some x))) ∧
  (∀ j, 0 ≤ j < BUFFER_SIZE →
     Z.of_nat (length xs) ≤ (j - the_read_pos q) `mod` BUFFER_SIZE →
     ∃ d, item_at q j = Some (MkItem false d)).

(** A call and what the caller sees of it. *)
Inductive ring_call :=
  | Produce (item : Z)
  | Consume
  | Size.

Inductive ring_answer :=
  | Produced (ok : bool)
  | Consumed (item : option Z)
  | Sized (n : Z).

(** [item] is the variable handed to [consume]. *)
Definition ring_perform (item : Z) (c : ring_call) : prog fields ring_answer :=
  match c with
  | Produce v => ok ← produce v; mret (Produced ok)
  | Consume =>
      '(ok, v) ← consume item;
      mret (Consumed (if (ok : bool) then Some v else None))
  | Size => n ← size; mret (Sized n)
  end.

(** A queue that takes at most [BUFFER_SIZE - 1] items. *)
Definition ring_model (c : ring_call) (xs : list Z) : ring_answer * list Z :=
  match c with
  | Produce v =>
      if decide (Z.of_nat (length xs) < BUFFER_SIZE - 1)
      then (Produced true, xs ++ [v]) else (Produced false, xs)
  | Consume =>
      match xs with
      | [] => (Consumed None, [])
      | x :: xs' => (Consumed (Some x), xs')
      end
  | Size => (Sized (Z.of_nat (length xs)), xs)
  end.

Fixpoint ring_model_run (cs : list ring_call) (xs : list Z)
    : list ring_answer :=
  match cs with
  | [] => []
  | c :: cs' => (ring_model c xs).1 :: ring_model_run cs' (ring_model c xs).2
  end.

(** The items the calls leave in that queue. *)
Fixpoint ring_model_end (cs : list ring_call) (xs : list Z) : list Z :=
  match cs with
  | [] => xs
  | c :: cs' => ring_model_end cs' (ring_model c xs).2
  end.

(** A buffer whose items lie round the end of the array: 1023 times an
    item has been produced and consumed, which leaves [read_pos_] and
    [write_pos_] at the last slot; then 8 and 9 have been produced. *)
Definition ring_wrapped : fields :=
  meanwhile
    (sequence (ring_perform 0 <$>
                 (concat (replicate 1023 [Produce 0; Consume]) ++
                  [Produce 8; Produce 9])))
    construct.

End Ring.

(** ** The invariant of [AtomicSharedPtr] *)

(** The smart pointer of an entry of [pointers] holds the control block
    [cb]. *)
Abbreviation holder cb :=
  (λ kv : positive * option positive, kv.2 = Some cb).

Section Owners.
Import SharedObject atomic_cpp.AtomicSharedPtr.
Context {T : Type}.

(** The smart pointers that hold the control block [cb]. *)
Definition owners (w : world T) (cb : positive)
    : gmap positive (option positive) :=
  filter (holder cb) (pointers w).

(** Every smart pointer that is not empty holds a control block that
    exists; the count of a control block is the number of smart pointers
    that hold it, and is not zero; its [ptr] is an object that exists; no
    two control blocks manage the same object. *)
Definition sound (w : world T) : Prop :=
  (∀ p cb, pointers w !! p = Some (Some cb) → is_Some (blocks w !! cb)) ∧
  (∀ cb b, blocks w !! cb = Some b →
     cb_ref_count b = Z.of_nat (size (owners w cb)) ∧
     (0 < cb_ref_count b < 2 ^ 31)%Z ∧
     ∃ l, cb_ptr b = Some l ∧ is_Some (objects w !! l)) ∧
  (∀ cb1 cb2 b1 b2,
     blocks w !! cb1 = Some b1 → blocks w !! cb2 = Some b2 →
     cb_ptr b1 = cb_ptr b2 → cb1 = cb2).

(** No control block manages the object at [l]. *)
Definition unmanaged (w : world T) (l : positive) : Prop :=
  ∀ cb b, blocks w !! cb = Some b → cb_ptr b ≠ Some l.

(** What [release], run by a smart pointer that held [a], makes of the
    world [w]: the last owner deletes the object and the control block,
    any other owner takes one off the count. *)
Definition released (w w' : world T) (a : option positive) : Prop :=
  match a with
  | None => objects w' = objects w ∧ blocks w' = blocks w
  | Some c =>
      ∃ l n, blocks w !! c = Some (Block (Some l) n) ∧
        if decide (n = 1%Z)
        then objects w' = delete l (objects w) ∧ blocks w' = delete c (blocks w)
        else objects w' = objects w ∧
             blocks w' = <[c := Block (Some l) (n - 1)]> (blocks w)
  end.

End Owners.

Section Worlds.
Import SharedObject atomic_cpp.AtomicSharedPtr.

(** An [int] on the free store that no smart pointer manages yet. *)
Definition one_object : world Z := World {[1%positive := 7%Z]} ∅ ∅.

(** [AtomicSharedPtr<int> a(new int(7)); AtomicSharedPtr<int> b(a);], with
    [a] at address 10 and [b] at address 11. *)
Definition two_owners : world Z :=
  meanwhile (_ ← construct_from 10 (Some 1%positive); construct_copy 11 10)
    one_object.

End Worlds.

(** * Proofs *)

(** ** Rules for a thread that runs alone *)

Section Specs.

Context {T : Type}.

Lemma wp_bind {A B} (c : M T A) (k : A → M T B) s Q :
  wp c s (λ a s', wp (k a) s' Q) → wp (c ≫= k) s Q.
Proof.
  unfold wp, mbind, M_bind, bind. destruct (c s); auto.
Qed.

Lemma wp_ret {A} (a : A) s (Q : A → state T → Prop) : Q a s → wp (mret a) s Q.
Proof. done. Qed.

Lemma wp_mono {A} (c : M T A) s (Q Q' : A → state T → Prop) :
  wp c s Q → (∀ a s', Q a s' → Q' a s') → wp c s Q'.
Proof. unfold wp. destruct (c s); auto. Qed.

Lemma wp_Done {A} (c : M T A) s (Q : A → state T → Prop) :
  wp c s Q ↔ ∃ a s', c s = Done a s' ∧ Q a s'.
Proof.
  unfold wp. split.
  - destruct (c s); try done. eauto.
  - intros (a & s' & -> & HQ). done.
Qed.

Lemma wp_load c mo m tr sp v (Q : ptr → state T → Prop) :
  read_cell m c = Some v →
  Q v (St m (AtomicLoad c v mo :: tr) sp) →
  wp (load c mo) (St m tr sp) Q.
Proof.
  intros Hr HQ. unfold wp, load, mbind, M_bind, bind, interleave, get_cell, log; simpl.
  rewrite Hr. simpl. done.
Qed.

Lemma wp_store c mo m m' tr sp v (Q : unit → state T → Prop) :
  write_cell m c v = Some m' →
  Q tt (St m' (AtomicStore c v mo :: tr) sp) →
  wp (store c v mo) (St m tr sp) Q.
Proof.
  intros Hr HQ. unfold wp, store, mbind, M_bind, bind, interleave, set_cell, log; simpl.
  rewrite Hr. simpl. done.
Qed.

Lemma wp_read c m tr sp v (Q : ptr → state T → Prop) :
  read_cell m c = Some v →
  Q v (St m (PlainRead c v :: tr) sp) →
  wp (read c) (St m tr sp) Q.
Proof.
  intros Hr HQ. unfold wp, read, mbind, M_bind, bind, interleave, get_cell, log; simpl.
  rewrite Hr. simpl. done.
Qed.

Lemma wp_write c m m' tr sp v (Q : unit → state T → Prop) :
  write_cell m c v = Some m' →
  Q tt (St m' (PlainWrite c v :: tr) sp) →
  wp (write c v) (St m tr sp) Q.
Proof.
  intros Hr HQ. unfold wp, write, mbind, M_bind, bind, interleave, set_cell, log; simpl.
  rewrite Hr. simpl. done.
Qed.

(** A weak exchange on a cell that holds the expected value: it fails when
    the oracle says so and succeeds otherwise. *)
Lemma wp_cas_weak c mo m tr sp e d (Q : bool * ptr → state T → Prop) :
  read_cell m c = Some e →
  (∀ sp', sp = true :: sp' → Q (false, e) (St m (AtomicCas c e d e false mo :: tr) sp')) →
  (head sp ≠ Some true →
   ∃ m', write_cell m c d = Some m' ∧
         Q (true, e) (St m' (AtomicCas c e d e true mo :: tr) (tail sp))) →
  wp (compare_exchange_weak c e d mo) (St m tr sp) Q.
Proof.
  intros Hr Hspur Hok.
  unfold wp, compare_exchange_weak, mbind, M_bind, bind, interleave, get_cell,
    next_spurious, set_cell, log; simpl.
  rewrite Hr. destruct sp as [|[] sp']; simpl.
  - destruct (decide (e = e)); [|done]. simpl.
    destruct Hok as (m' & -> & HQ); [done|]. done.
  - destruct (decide (e = e)); [|done]. simpl. by apply Hspur.
  - destruct (decide (e = e)); [|done]. simpl.
    destruct Hok as (m' & -> & HQ); [done|]. done.
Qed.

Lemma wp_new o m tr sp (Q : loc → state T → Prop) :
  (∀ l, heap m !! l = None →
        Q l (St (Memory (<[l := o]> (heap m)) (head_ m) (tail_ m))
                (Alloc l :: tr) sp)) →
  wp (new_ o) (St m tr sp) Q.
Proof.
  intros HQ. unfold wp, new_; simpl. apply HQ.
  apply not_elem_of_dom, is_fresh.
Qed.

Lemma wp_delete l o m tr sp (Q : unit → state T → Prop) :
  heap m !! l = Some o →
  Q tt (St (Memory (delete l (heap m)) (head_ m) (tail_ m)) (Free l :: tr) sp) →
  wp (delete_ l) (St m tr sp) Q.
Proof.
  intros Hl HQ. unfold wp, delete_, mbind, M_bind, bind, interleave, free_cell, log; simpl.
  rewrite Hl. done.
Qed.

Lemma wp_read_value l m tr sp v (Q : T → state T → Prop) :
  (∃ nx, heap m !! l = Some (VNode v nx)) ∨ heap m !! l = Some (Box v) →
  Q v (St m (ReadValue l :: tr) sp) →
  wp (read_value l) (St m tr sp) Q.
Proof.
  intros Hl HQ. unfold wp, read_value, mbind, M_bind, bind, interleave, get_value, log; simpl.
  destruct Hl as [[nx ->] | ->]; done.
Qed.

End Specs.

(** ** The stack of atomic.cpp, one thread alone *)

Section IpcStack.

Context {T : Type}.

Import atomic_cpp.LockFreeStack.

Lemma ipc_pop_loop_spec fuel : ∀ (m : memory T) tr sp l x nx,
  length sp < fuel →
  head_ m = Some l →
  heap m !! l = Some (VNode x nx) →
  wp (pop_loop fuel (Some l)) (St m tr sp)
     (λ r s', r = Some l ∧
        ∃ tr' sp', s' = St (Memory (heap m) nx (tail_ m)) tr' sp' ∧
                   length sp' ≤ length sp).
Proof.
  induction fuel as [|fuel IH]; intros m tr sp l x nx Hf Hhd Hl; [lia|].
  destruct m as [h hd tl]; simpl in *. subst hd.
  apply wp_bind. eapply wp_load; [by simpl; rewrite Hl|].
  apply wp_bind. apply wp_cas_weak; [done|..].
  - intros sp' ->. simpl in *.
    eapply wp_mono; [eapply IH; simpl; eauto; lia|].
    intros r s' (-> & tr' & sp'' & -> & Hle). simpl in *.
    split; [done|]. eexists _, _. split; [done|lia].
  - intros _. eexists. split; [done|]. apply wp_ret.
    split; [done|]. eexists _, _. split; [done|]. destruct sp; simpl; lia.
Qed.

Lemma ipc_pop_spec_cons fuel (m : memory T) tr sp r x xs :
  length sp < fuel →
  stack_rep m (x :: xs) →
  wp (pop fuel r) (St m tr sp)
     (λ out s', out = (true, x) ∧ settled (length sp) (λ m', stack_rep m' xs) s').
Proof.
  intros Hf (l & nx & Hhd & Hl & Hch). destruct m as [h hd tl]; simpl in *. subst hd.
  apply wp_bind. eapply wp_load; [done|].
  apply wp_bind. eapply wp_mono; [eapply ipc_pop_loop_spec; simpl; eauto|].
  intros ? s' (-> & tr' & sp' & -> & Hle). simpl in *.
  apply wp_bind. eapply wp_read_value; [left; simpl; eauto|].
  apply wp_bind. eapply wp_delete; [simpl; eauto|]. simpl.
  apply wp_ret. split; [done|].
  eexists _, _, _. split_and!; [done|done|]. done.
Qed.

Lemma ipc_pop_spec_nil fuel (m : memory T) tr sp r :
  stack_rep m [] →
  wp (pop fuel r) (St m tr sp)
     (λ out s', out = (false, r) ∧ ∃ tr', s' = St m tr' sp).
Proof.
  intros Hrep. destruct m as [h hd tl]; unfold stack_rep in *; simpl in *. subst hd.
  apply wp_bind. eapply wp_load; [done|].
  destruct fuel; simpl; (apply wp_bind, wp_ret; apply wp_ret; eauto).
Qed.

End IpcStack.

(** ** The stack of 04_atomic_operations.cpp, one thread alone *)

Section MtStack.

Context {T : Type}.

Import atomic_operations_04.LockFreeStack.

Lemma pchain_mono (h h' : gmap positive (object T)) p xs :
  pchain h p xs → h ⊆ h' → pchain h' p xs.
Proof.
  revert h h' p. induction xs as [|x xs IH]; intros h h' p; simpl; [done|].
  intros (l & b & nx & -> & Hl & Hb & Hch) Hsub. exists l, b, nx.
  split_and!; [done|..].
  - eapply lookup_weaken; eauto.
  - eapply lookup_weaken; eauto.
  - eapply IH; [done|]. by do 2 apply delete_mono.
Qed.

Lemma mt_push_loop_spec fuel : ∀ (m : memory T) tr sp nn b v xs,
  length sp < fuel →
  heap m !! nn = Some (PNode (Some b) (head_ m)) →
  heap m !! b = Some (Box v) →
  pchain (delete b (delete nn (heap m))) (head_ m) xs →
  wp (push_loop fuel nn) (St m tr sp)
     (λ _, settled (length sp) (λ m', pstack_rep m' (v :: xs))).
Proof.
  induction fuel as [|fuel IH]; intros m tr sp nn b v xs Hf Hnn Hb Hch; [lia|].
  destruct m as [h hd tl]; simpl in *.
  assert (nn ≠ b) as Hne by (intros ->; congruence).
  apply wp_bind. eapply wp_read; [by simpl; rewrite Hnn|].
  apply wp_bind. apply wp_cas_weak; [done|..].
  - intros sp' ->. simpl in *.
    apply wp_bind. eapply wp_write; [by simpl; rewrite Hnn|].
    eapply wp_mono.
    + eapply IH; simpl; [lia|by rewrite lookup_insert_eq| |].
      * rewrite lookup_insert_ne by done. done.
      * by rewrite delete_insert_eq.
    + intros _ s' (m' & tr' & sp'' & -> & Hle & Hrep).
      exists m', tr', sp''. split_and!; [done|lia|done].
  - intros _. eexists. split; [done|]. apply wp_ret.
    eexists _, _, _. split_and!; [done|..].
    + destruct sp; simpl; lia.
    + exists nn, b, hd. simpl. done.
Qed.

Lemma mt_push_spec fuel (m : memory T) tr sp v xs :
  length sp < fuel →
  pstack_rep m xs →
  wp (push fuel v) (St m tr sp)
     (λ _, settled (length sp) (λ m', pstack_rep m' (v :: xs))).
Proof.
  intros Hf Hrep. destruct m as [h hd tl]; unfold pstack_rep in *; simpl in *.
  apply wp_bind, wp_new. intros l Hl. simpl.
  apply wp_bind, wp_new. intros b Hb. simpl in *.
  assert (l ≠ b) as Hne by (intros ->; by rewrite lookup_insert_eq in Hb).
  rewrite lookup_insert_ne in Hb by done.
  apply wp_bind. eapply wp_store.
  { simpl. rewrite lookup_insert_ne, lookup_insert_eq by done. done. }
  apply wp_bind. eapply wp_load; [done|]. simpl.
  apply wp_bind. eapply wp_write; [by simpl; rewrite lookup_insert_eq|].
  eapply mt_push_loop_spec; simpl; [done|by rewrite lookup_insert_eq| |].
  - rewrite !lookup_insert_ne, lookup_insert_eq by done. done.
  - eapply pchain_mono; [done|].
    apply map_subseteq_spec. intros i o Hi.
    assert (i ≠ l) by congruence. assert (i ≠ b) by congruence.
    by rewrite !lookup_delete_ne, !lookup_insert_ne.
Qed.

Lemma mt_pop_loop_spec fuel : ∀ (m : memory T) tr sp l d nx,
  length sp < fuel →
  head_ m = Some l →
  heap m !! l = Some (PNode d nx) →
  wp (pop_loop fuel (Some l)) (St m tr sp)
     (λ r s', r = Some l ∧
        ∃ tr' sp', s' = St (Memory (heap m) nx (tail_ m)) tr' sp' ∧
                   length sp' ≤ length sp).
Proof.
  induction fuel as [|fuel IH]; intros m tr sp l d nx Hf Hhd Hl; [lia|].
  destruct m as [h hd tl]; simpl in *. subst hd.
  apply wp_bind. eapply wp_read; [by simpl; rewrite Hl|].
  apply wp_bind. apply wp_cas_weak; [done|..].
  - intros sp' ->. simpl in *.
    eapply wp_mono; [eapply IH; simpl; eauto; lia|].
    intros r s' (-> & tr' & sp'' & -> & Hle). simpl in *.
    split; [done|]. eexists _, _. split; [done|lia].
  - intros _. eexists. split; [done|]. apply wp_ret.
    split; [done|]. eexists _, _. split; [done|]. destruct sp; simpl; lia.
Qed.

Lemma mt_pop_spec_cons fuel (m : memory T) tr sp x xs :
  length sp < fuel →
  pstack_rep m (x :: xs) →
  wp (pop_value fuel) (St m tr sp)
     (λ out s', out = Some x ∧ settled (length sp) (λ m', pstack_rep m' xs) s').
Proof.
  intros Hf (l & b & nx & Hhd & Hl & Hb & Hch).
  destruct m as [h hd tl]; simpl in *. subst hd.
  assert (l ≠ b) as Hne by (intros ->; congruence).
  apply wp_bind. apply wp_bind. eapply wp_load; [done|].
  apply wp_bind. eapply wp_mono; [eapply mt_pop_loop_spec; simpl; eauto|].
  intros ? s' (-> & tr' & sp' & -> & Hle). simpl in *.
  apply wp_bind. eapply wp_load; [by simpl; rewrite Hl|].
  apply wp_bind. eapply wp_delete; [simpl; eauto|]. simpl.
  apply wp_ret. simpl.
  apply wp_bind. eapply wp_read_value.
  { right. simpl. rewrite lookup_delete_ne by done. done. }
  apply wp_bind. eapply wp_delete.
  { simpl. rewrite lookup_delete_ne by done. done. }
  apply wp_ret. split; [done|].
  eexists _, _, _. split_and!; [done|done|]. done.
Qed.

Lemma mt_pop_spec_nil fuel (m : memory T) tr sp :
  pstack_rep m [] →
  wp (pop_value fuel) (St m tr sp)
     (λ out s', out = None ∧ ∃ tr', s' = St m tr' sp).
Proof.
  intros Hrep. destruct m as [h hd tl]; unfold pstack_rep in *; simpl in *. subst hd.
  apply wp_bind. apply wp_bind. eapply wp_load; [done|].
  destruct fuel; simpl; (apply wp_bind, wp_ret; apply wp_ret; apply wp_ret; eauto).
Qed.

End MtStack.

(** ** The queue, one thread alone *)

Section Queue.

Context {T : Type}.

Import atomic_cpp.LockFreeQueue.

Lemma linked_ext (h h' : gmap positive (object T)) l ns :
  linked h l ns → (∀ i, i ∈ l :: ns → h' !! i = h !! i) → linked h' l ns.
Proof.
  revert l. induction ns as [|n ns IH]; intros l; simpl.
  - intros [d Hd] Hext. exists d. rewrite Hext; [done|set_solver].
  - intros [[d Hd] Hl] Hext. split.
    + exists d. rewrite Hext; [done|set_solver].
    + apply IH; [done|]. intros i Hi. apply Hext. apply elem_of_cons. by right.
Qed.

Lemma filled_ext (h h' : gmap positive (object T)) c :
  filled h c → h' !! slot_node c = h !! slot_node c →
  h' !! slot_box c = h !! slot_box c → filled h' c.
Proof. intros [[nx Hn] Hb] Hen Heb. split; [exists nx|]; congruence. Qed.

Lemma settled_mono n n' (P P' : memory T → Prop) s :
  settled n P s → n ≤ n' → (∀ m, P m → P' m) → settled n' P' s.
Proof.
  intros (m & tr & sp & -> & Hle & HP) Hn HPP'.
  exists m, tr, sp. split_and!; [done|lia|auto].
Qed.

Lemma footprint_nodes hd (cells : list (@slot T)) i :
  i ∈ hd :: map slot_node cells → i ∈ footprint hd cells.
Proof. unfold footprint. rewrite !elem_of_cons, elem_of_app. tauto. Qed.

Lemma footprint_allocated (m : memory T) hd cells pre t suf i :
  queue_shape_at m hd cells pre t suf → i ∈ footprint hd cells →
  is_Some (heap m !! i).
Proof.
  intros (_ & _ & Hl & Hf & _) Hi. unfold footprint in Hi.
  apply elem_of_cons in Hi as [->|Hi].
  { destruct cells; simpl in Hl; [destruct Hl as [d ->]|destruct Hl as [[d ->] _]]; eauto. }
  apply elem_of_app in Hi as [Hi|Hi];
    apply list_elem_of_fmap in Hi as (c & -> & Hc);
    rewrite Forall_forall in Hf; destruct (Hf c Hc) as [[nx Hn] Hb]; eauto.
Qed.

Lemma shape_ext (h h' : gmap positive (object T)) hp tp hd cells pre t suf :
  queue_shape_at (Memory h hp tp) hd cells pre t suf →
  (∀ i, i ∈ footprint hd cells → h' !! i = h !! i) →
  queue_shape_at (Memory h' hp tp) hd cells pre t suf.
Proof.
  intros (Hh & Hnd & Hl & Hf & Heq & Hlen & Ht) Hext. simpl in *.
  split_and!; simpl; try done.
  - eapply linked_ext; [done|]. intros i Hi. by apply Hext, footprint_nodes.
  - rewrite Forall_forall in Hf |- *. intros c Hc.
    eapply filled_ext; [by apply Hf|..]; apply Hext; unfold footprint;
      rewrite elem_of_cons, elem_of_app, !list_elem_of_fmap; eauto.
Qed.

Lemma tail_in_footprint (m : memory T) hd cells pre t suf :
  queue_shape_at m hd cells pre t suf → t ∈ footprint hd cells.
Proof.
  intros (_ & _ & _ & _ & Heq & _). apply footprint_nodes. rewrite Heq.
  apply elem_of_app. right. apply elem_of_cons. by left.
Qed.

Lemma construct_spec (tr : list event) (sp : list bool) :
  wp construct (St (blank (T:=T)) tr sp)
     (λ _ s', ∃ hd tr',
        s' = St (Memory {[hd := PNode None None]} (Some hd) (Some hd)) tr' sp ∧
        queue_shape (mem s') hd []).
Proof.
  unfold construct, blank.
  apply wp_bind, wp_new. intros hd _. simpl.
  apply wp_bind. eapply wp_store; [done|]. simpl.
  eapply wp_store; [done|]. simpl.
  eexists hd, _. split; [done|]. exists [], hd, []. simpl.
  split_and!; simpl; try done.
  - apply NoDup_singleton.
  - exists None. by rewrite lookup_insert_eq.
  - lia.
Qed.

Lemma dequeue_spec_at fuel : ∀ (m : memory T) tr sp r hd cells pre t suf,
  queue_shape_at m hd cells pre t suf →
  length sp + length suf < fuel →
  wp (dequeue fuel r) (St m tr sp) (dequeue_post r m sp cells).
Proof.
  induction fuel as [|fuel IH];
    intros m tr sp r hd cells pre t suf Hshape Hf; [lia|].
  destruct Hshape as (Hh & Hnd & Hl & Hfill & Heq & Hlen & Ht).
  destruct m as [h hp tp]; simpl in *. subst hp tp.
  apply wp_bind. unfold dequeue_iter.
  apply wp_bind. eapply wp_load; [done|].
  apply wp_bind. eapply wp_load; [done|].
  apply wp_bind, wp_ret.
  destruct cells as [|c cells]; simpl in *.
  - (* no element: head_ = tail_ and head_->next is null *)
    assert (t = hd) as ->.
    { destruct pre as [|p [|p' pre]]; simpl in Heq; congruence. }
    destruct Hl as [d Hd].
    apply wp_bind. eapply wp_load; [by simpl; rewrite Hd|].
    apply wp_bind. eapply wp_load; [done|].
    cbn beta. rewrite !decide_True by done.
    apply wp_ret, wp_ret. split; [done|]. eauto.
  - destruct Hl as [[d Hd] Hl].
    apply Forall_cons in Hfill as [[[nx Hn] Hb] Hfill].
    apply wp_bind. eapply wp_load; [by simpl; rewrite Hd|].
    apply wp_bind. eapply wp_load; [done|].
    cbn beta. rewrite decide_True by done.
    destruct pre as [|p pre]; simpl in Heq.
    + (* tail_ lags behind on the old dummy: help it forward *)
      injection Heq as -> Hsuf.
      rewrite decide_True by done.
      apply wp_bind, wp_cas_weak; [done|..].
      * intros sp' ->. simpl in *. apply wp_ret.
        eapply wp_mono.
        { eapply (IH _ _ _ r t (c :: cells) [] t suf); simpl; [|lia].
          split_and!; simpl; try done.
          - split; eauto.
          - apply Forall_cons. split; [split|]; eauto.
          - by rewrite Hsuf. }
        intros out s' (-> & Hs'). split; [done|].
        eapply settled_mono; [done|simpl; lia|done].
      * intros _. eexists. split; [done|]. apply wp_ret.
        destruct suf as [|n suf]; [done|]. injection Hsuf as <- Hsuf.
        destruct suf; [|simpl in Hlen; lia].
        eapply wp_mono.
        { eapply (IH _ _ _ r t (c :: cells) [t] (slot_node c) []); simpl.
          - split_and!; simpl; try done.
            + split; eauto.
            + apply Forall_cons. split; [split|]; eauto.
            + by rewrite <- Hsuf.
            + lia.
          - destruct sp; simpl in *; lia. }
        intros out s' (-> & Hs'). split; [done|].
        eapply settled_mono; [done|destruct sp; simpl; lia|done].
    + (* head_ != tail_: take the element of head_->next *)
      injection Heq as -> Heq.
      assert (t ∈ map slot_node (c :: cells)) as Htin.
      { simpl. rewrite Heq. apply elem_of_app. right. apply elem_of_cons. by left. }
      unfold footprint in Hnd. simpl in Hnd.
      apply NoDup_cons in Hnd as [Hhd Hnd].
      assert (p ≠ t) as Hpt.
      { intros ->. apply Hhd. simpl in Htin.
        rewrite elem_of_cons, elem_of_app. rewrite elem_of_cons in Htin. tauto. }
      rewrite decide_False by congruence.
      apply wp_bind. eapply wp_load; [by simpl; rewrite Hn|].
      apply wp_bind, wp_cas_weak; [done|..].
      * intros sp' ->. simpl in *. apply wp_ret.
        eapply wp_mono.
        { eapply (IH _ _ _ r p (c :: cells) (p :: pre) t suf); simpl; [|lia].
          split_and!; simpl; try done.
          - unfold footprint. simpl. by apply NoDup_cons.
          - split; eauto.
          - apply Forall_cons. split; [split|]; eauto.
          - by rewrite Heq. }
        intros out s' (-> & Hs'). split; [done|].
        eapply settled_mono; [done|simpl; lia|done].
      * intros _. eexists. split; [done|].
        apply NoDup_cons in Hnd as [Hnode Hnd].
        assert (p ≠ slot_node c ∧ p ≠ slot_box c) as [Hp1 Hp2].
        { split; intros ->; apply Hhd; rewrite elem_of_cons, elem_of_app,
            elem_of_cons; tauto. }
        assert (slot_node c ≠ slot_box c) as Hnb by (intros Hx; congruence).
        apply wp_bind. eapply wp_read_value; [right; done|].
        apply wp_bind. eapply wp_delete; [done|]. simpl.
        apply wp_bind. eapply wp_delete.
        { simpl. rewrite lookup_delete_ne by done. done. }
        simpl. apply wp_ret. apply wp_ret. split; [done|].
        eexists _, _, _. split_and!; [done|destruct sp; simpl; lia|].
        assert (∀ i, i ∈ footprint (slot_node c) cells →
                     delete p (delete (slot_box c) h) !! i = h !! i) as Hext.
        { intros i Hi. unfold footprint in Hi.
          assert (i ≠ p).
          { intros ->. apply Hhd. rewrite elem_of_cons, elem_of_app,
              elem_of_cons. rewrite elem_of_cons, elem_of_app in Hi. tauto. }
          assert (i ≠ slot_box c).
          { intros ->. apply elem_of_cons in Hi as [Hi|Hi]; [congruence|].
            apply NoDup_app in Hnd as (_ & Hdisj & Hnd).
            apply elem_of_app in Hi as [Hi|Hi].
            - apply (Hdisj _ Hi). apply elem_of_cons. by left.
            - apply NoDup_cons in Hnd as [? _]. done. }
          by rewrite !lookup_delete_ne. }
        destruct pre as [|p' pre]; simpl in Heq.
        -- (* the tail is the new head or its successor *)
           injection Heq as <- Heq. exists [], (slot_node c), suf.
           eapply shape_ext; [|exact Hext].
           split_and!; simpl; try done.
           ++ unfold footprint. apply NoDup_cons. split; [|].
              ** intros Hin. apply Hnode.
                 rewrite elem_of_app in Hin |- *. rewrite elem_of_cons. tauto.
              ** apply NoDup_app in Hnd as (Hn1 & Hdisj & Hn2).
                 apply NoDup_cons in Hn2 as [_ Hn2].
                 apply NoDup_app. split_and!; [done| |done].
                 intros i Hi Hi2. apply (Hdisj i Hi).
                 apply elem_of_cons. by right.
           ++ by rewrite Heq.
        -- injection Heq as <- Heq.
           exists (slot_node c :: pre), t, suf.
           eapply shape_ext; [|exact Hext].
           split_and!; simpl; try done.
           ++ unfold footprint. apply NoDup_cons. split; [|].
              ** intros Hin. apply Hnode.
                 rewrite elem_of_app in Hin |- *. rewrite elem_of_cons. tauto.
              ** apply NoDup_app in Hnd as (Hn1 & Hdisj & Hn2).
                 apply NoDup_cons in Hn2 as [_ Hn2].
                 apply NoDup_app. split_and!; [done| |done].
                 intros i Hi Hi2. apply (Hdisj i Hi).
                 apply elem_of_cons. by right.
           ++ by rewrite Heq.
Qed.

End Queue.

(** ** What an operation logs, in any state *)

Section Traces.

Context {T : Type}.

Lemma emits_ret {A} P (a : A) : emits P (mret a : M T A).
Proof. intros s. exists []. done. Qed.

Lemma emits_bind {A B} P (c : M T A) (k : A → M T B) :
  emits P c → (∀ a, emits P (k a)) → emits P (c ≫= k).
Proof.
  intros Hc Hk s. specialize (Hc s). unfold mbind, M_bind, bind.
  destruct (c s) as [a s1|s1| |]; try done.
  destruct Hc as (evs1 & Ht1 & Hf1). specialize (Hk a s1).
  destruct (k a s1) as [b s2|s2| |]; try done;
    destruct Hk as (evs2 & Ht2 & Hf2); exists (evs2 ++ evs1);
    (split; [by rewrite Ht2, Ht1, app_assoc|by apply Forall_app]).
Qed.

Lemma emits_silent {A} P (c : M T A) :
  (∀ s, match c s with
        | Done _ s' | Thrown s' => trace s' = trace s
        | _ => True
        end) →
  emits P c.
Proof.
  intros Hc s. specialize (Hc s).
  destruct (c s); try done; exists []; done.
Qed.

Lemma emits_interleave P : emits P (interleave (T:=T)).
Proof.
  apply emits_silent. intros s. unfold interleave, tick. simpl.
  by destruct (env (orc s)).
Qed.

Lemma emits_get_cell P c : emits P (get_cell (T:=T) c).
Proof.
  apply emits_silent. intros s. unfold get_cell.
  by destruct (read_cell (mem s) c).
Qed.

Lemma emits_set_cell P c v : emits P (set_cell (T:=T) c v).
Proof.
  apply emits_silent. intros s. unfold set_cell.
  by destruct (write_cell (mem s) c v).
Qed.

Lemma emits_get_value P l : emits P (get_value (T:=T) l).
Proof.
  apply emits_silent. intros s. unfold get_value.
  by destruct (heap (mem s) !! l) as [[]|].
Qed.

Lemma emits_free_cell P l : emits P (free_cell (T:=T) l).
Proof.
  apply emits_silent. intros s. unfold free_cell.
  by destruct (heap (mem s) !! l).
Qed.

Lemma emits_next_spurious P : emits P (next_spurious (T:=T)).
Proof.
  apply emits_silent. intros s. unfold next_spurious.
  by destruct (spurious (orc s)).
Qed.

Lemma emits_log P e : P e → emits P (log (T:=T) e).
Proof. intros He s. exists [e]. split; [done|]. by apply Forall_singleton. Qed.

Lemma emits_deref P p : emits P (deref (T:=T) p).
Proof. destruct p; [apply emits_ret|done]. Qed.

Lemma emits_spin {A} P : emits P (spin : M T A).
Proof. done. Qed.

Lemma emits_load P c mo :
  (∀ v, P (AtomicLoad c v mo)) → emits P (load (T:=T) c mo).
Proof.
  intros HP. unfold load.
  apply emits_bind; [apply emits_interleave|intros _].
  apply emits_bind; [apply emits_get_cell|intros v].
  apply emits_bind; [by apply emits_log|intros _]. apply emits_ret.
Qed.

Lemma emits_store P c v mo :
  P (AtomicStore c v mo) → emits P (store (T:=T) c v mo).
Proof.
  intros HP. unfold store.
  apply emits_bind; [apply emits_interleave|intros _].
  apply emits_bind; [apply emits_set_cell|intros _]. by apply emits_log.
Qed.

Lemma emits_read P c : (∀ v, P (PlainRead c v)) → emits P (read (T:=T) c).
Proof.
  intros HP. unfold read.
  apply emits_bind; [apply emits_interleave|intros _].
  apply emits_bind; [apply emits_get_cell|intros v].
  apply emits_bind; [by apply emits_log|intros _]. apply emits_ret.
Qed.

Lemma emits_write P c v : P (PlainWrite c v) → emits P (write (T:=T) c v).
Proof.
  intros HP. unfold write.
  apply emits_bind; [apply emits_interleave|intros _].
  apply emits_bind; [apply emits_set_cell|intros _]. by apply emits_log.
Qed.

Lemma emits_cas_weak P c e d mo :
  (∀ cur ok, P (AtomicCas c e d cur ok mo)) →
  emits P (compare_exchange_weak (T:=T) c e d mo).
Proof.
  intros HP. unfold compare_exchange_weak.
  apply emits_bind; [apply emits_interleave|intros _].
  apply emits_bind; [apply emits_get_cell|intros cur].
  apply emits_bind; [apply emits_next_spurious|intros fails].
  destruct (decide (cur = e)); [destruct fails|].
  - apply emits_bind; [by apply emits_log|intros _]. apply emits_ret.
  - apply emits_bind; [apply emits_set_cell|intros _].
    apply emits_bind; [by apply emits_log|intros _]. apply emits_ret.
  - apply emits_bind; [by apply emits_log|intros _]. apply emits_ret.
Qed.

Lemma emits_cas_strong P c e d mo :
  (∀ cur ok, P (AtomicCas c e d cur ok mo)) →
  emits P (compare_exchange_strong (T:=T) c e d mo).
Proof.
  intros HP. unfold compare_exchange_strong.
  apply emits_bind; [apply emits_interleave|intros _].
  apply emits_bind; [apply emits_get_cell|intros cur].
  destruct (decide (cur = e)).
  - apply emits_bind; [apply emits_set_cell|intros _].
    apply emits_bind; [by apply emits_log|intros _]. apply emits_ret.
  - apply emits_bind; [by apply emits_log|intros _]. apply emits_ret.
Qed.

Lemma emits_read_value P l : P (ReadValue l) → emits P (read_value (T:=T) l).
Proof.
  intros HP. unfold read_value.
  apply emits_bind; [apply emits_interleave|intros _].
  apply emits_bind; [apply emits_get_value|intros v].
  apply emits_bind; [by apply emits_log|intros _]. apply emits_ret.
Qed.

Lemma emits_delete P l : P (Free l) → emits P (delete_ (T:=T) l).
Proof.
  intros HP. unfold delete_.
  apply emits_bind; [apply emits_interleave|intros _].
  apply emits_bind; [apply emits_free_cell|intros _]. by apply emits_log.
Qed.

Lemma emits_new P (o : object T) : (∀ l, P (Alloc l)) → emits P (new_ o).
Proof.
  intros HP s. unfold new_.
  destruct (oom (orc s)) as [|[] bs]; simpl.
  - eexists [_]. split; [done|]. by apply Forall_singleton.
  - exists []. done.
  - eexists [_]. split; [done|]. by apply Forall_singleton.
Qed.

End Traces.

Create HintDb emits.
#[export] Hint Resolve emits_ret emits_deref emits_spin : emits.
#[export] Hint Extern 1 (emits _ (load _ _)) => apply emits_load; done : emits.
#[export] Hint Extern 1 (emits _ (store _ _ _)) => apply emits_store; done : emits.
#[export] Hint Extern 1 (emits _ (read _)) => apply emits_read; done : emits.
#[export] Hint Extern 1 (emits _ (write _ _)) => apply emits_write; done : emits.
#[export] Hint Extern 1 (emits _ (compare_exchange_weak _ _ _ _)) =>
  apply emits_cas_weak; done : emits.
#[export] Hint Extern 1 (emits _ (compare_exchange_strong _ _ _ _)) =>
  apply emits_cas_strong; done : emits.
#[export] Hint Extern 1 (emits _ (read_value _)) => apply emits_read_value; done : emits.
#[export] Hint Extern 1 (emits _ (delete_ _)) => apply emits_delete; done : emits.
#[export] Hint Extern 1 (emits _ (new_ _)) => apply emits_new; done : emits.

Section Yields.

Context {T : Type}.

Lemma yields_load c mo :
  yields (load (T:=T) c mo) (λ v evs _, evs = [AtomicLoad c v mo]).
Proof.
  intros s v s'. unfold load, mbind, M_bind, bind, interleave, get_cell, log.
  destruct (read_cell (mem (tick s)) c) as [w|]; [|done]. simpl.
  intros [= <- <-]. simpl. eexists [_]. split; [|done].
  unfold tick. by destruct (env (orc s)).
Qed.

Lemma yields_cas_weak c e d mo :
  yields (compare_exchange_weak (T:=T) c e d mo)
    (λ r evs _, ∃ cur, evs = [AtomicCas c e d cur r.1 mo] ∧ r.2 = cur ∧
                       (r.1 = true → cur = e)).
Proof.
  intros s r s'.
  unfold compare_exchange_weak, mbind, M_bind, bind, interleave, get_cell,
    next_spurious, set_cell, log.
  assert (trace (tick s) = trace s) as Ht.
  { unfold tick. by destruct (env (orc s)). }
  destruct (read_cell (mem (tick s)) c) as [cur|]; [|done].
  destruct (spurious (orc (tick s))) as [|fails sp]; simpl.
  - destruct (decide (cur = e)) as [->|Hne]; simpl.
    + destruct (write_cell (mem (tick s)) c d); [|done]. simpl.
      intros [= <- <-]. simpl. rewrite Ht. eexists [_]. split; [done|]. eauto.
    + intros [= <- <-]. simpl. rewrite Ht. eexists [_]. split; [done|].
      exists cur. done.
  - destruct (decide (cur = e)) as [->|Hne]; [destruct fails|]; simpl.
    + intros [= <- <-]. simpl. rewrite Ht. eexists [_]. split; [done|].
      exists e. done.
    + destruct (write_cell (mem (tick s)) c d); [|done]. simpl.
      intros [= <- <-]. simpl. rewrite Ht. eexists [_]. split; [done|]. eauto.
    + intros [= <- <-]. simpl. rewrite Ht. eexists [_]. split; [done|].
      exists cur. done.
Qed.

Lemma yields_cas_strong c e d mo :
  yields (compare_exchange_strong (T:=T) c e d mo)
    (λ r evs _, ∃ cur, evs = [AtomicCas c e d cur r.1 mo] ∧ r.2 = cur ∧
                       (r.1 = true ↔ cur = e)).
Proof.
  intros s r s'.
  unfold compare_exchange_strong, mbind, M_bind, bind, interleave, get_cell,
    set_cell, log.
  assert (trace (tick s) = trace s) as Ht.
  { unfold tick. by destruct (env (orc s)). }
  destruct (read_cell (mem (tick s)) c) as [cur|]; [|done].
  destruct (decide (cur = e)) as [->|Hne]; simpl.
  - destruct (write_cell (mem (tick s)) c d); [|done]. simpl.
    intros [= <- <-]. simpl. rewrite Ht. eexists [_]. split; [done|].
    exists e. done.
  - intros [= <- <-]. simpl. rewrite Ht. eexists [_]. split; [done|].
    exists cur. split_and!; [done|done|]. split; [done|]. intros ->. done.
Qed.

Lemma yields_read_value l :
  yields (read_value (T:=T) l) (λ _ evs _, evs = [ReadValue l]).
Proof.
  intros s v s'.
  unfold read_value, mbind, M_bind, bind, interleave, get_value, log.
  assert (trace (tick s) = trace s) as Ht.
  { unfold tick. by destruct (env (orc s)). }
  destruct (heap (mem (tick s)) !! l) as [[]|]; try done; simpl;
    intros [= <- <-]; simpl; rewrite Ht; eexists [_]; done.
Qed.

Lemma yields_delete l :
  yields (delete_ (T:=T) l) (λ _ evs m, evs = [Free l] ∧ heap m !! l = None).
Proof.
  intros s v s'.
  unfold delete_, mbind, M_bind, bind, interleave, free_cell, log.
  assert (trace (tick s) = trace s) as Ht.
  { unfold tick. by destruct (env (orc s)). }
  destruct (heap (mem (tick s)) !! l); [|done]. simpl.
  destruct v. intros [= <-]. simpl. rewrite Ht. eexists [_]. split; [done|].
  split; [done|]. apply lookup_delete_eq.
Qed.

End Yields.

(** ** The log of [pop] *)

Section Obs.

Context {T : Type}.

Lemma bind_Done_inv {A B} (c : M T A) (k : A → M T B) s b s2 :
  (c ≫= k) s = Done b s2 → ∃ a s1, c s = Done a s1 ∧ k a s1 = Done b s2.
Proof.
  unfold mbind, M_bind, bind. destruct (c s) as [a s1| | |]; try done. eauto.
Qed.

Lemma ret_Done_inv {A} (a b : A) (s s' : state T) :
  (mret a : M T A) s = Done b s' → b = a ∧ s' = s.
Proof. by intros [= <- <-]. Qed.

Import atomic_cpp.LockFreeStack.

Lemma ipc_pop_loop_yields fuel : ∀ p,
  yields (T:=T) (pop_loop fuel p)
    (λ q evs _,
       (q = None ↔ p = None ∨ existsb observes_empty evs = true) ∧
       (∀ l, q = Some l →
             ∃ nx tr0, evs = AtomicCas Head (Some l) nx (Some l) true
                               memory_order_seq_cst :: tr0)).
Proof.
  induction fuel as [|fuel IH]; intros [l|] s q s' Hrun; simpl in Hrun;
    try done.
  - apply ret_Done_inv in Hrun as [-> ->]. exists []. simpl.
    split_and!; [done| |done]. split; [auto|done].
  - apply bind_Done_inv in Hrun as (nx & s1 & H1 & Hrun).
    apply bind_Done_inv in Hrun as ([ok obs] & s2 & H2 & Hrun).
    apply yields_load in H1 as (e1 & Ht1 & ->).
    apply yields_cas_weak in H2 as (e2 & Ht2 & cur & -> & Hobs & Hok).
    simpl in *. subst obs. destruct ok.
    + apply ret_Done_inv in Hrun as [-> ->]. specialize (Hok eq_refl) as ->.
      eexists [_; _]. split; [by rewrite Ht2, Ht1|]. simpl. split.
      * split; [done|]. intros [?|?]; done.
      * intros ? [= <-]. eauto.
    + apply IH in Hrun as (e3 & Ht3 & Hiff & Hlast).
      exists (e3 ++ [AtomicCas Head (Some l) nx cur false memory_order_seq_cst;
                     AtomicLoad (NextOf l) nx memory_order_seq_cst]).
      split; [by rewrite Ht3, Ht2, Ht1, <- app_assoc|]. split.
      * rewrite Hiff, existsb_app. simpl. rewrite orb_false_r.
        destruct cur; simpl.
        -- rewrite orb_false_r. split; [intros [?|?]; [done|auto]|].
           intros [?|?]; [done|auto].
        -- rewrite orb_true_r. split; auto.
      * intros l' Hq. destruct (Hlast l' Hq) as (nx' & tr0 & ->).
        simpl. eauto.
  - apply ret_Done_inv in Hrun as [-> ->]. exists []. simpl.
    split_and!; [done| |done]. split; [auto|done].
Qed.

(** What a call of [pop] of atomic.cpp logs, whatever the other threads do. *)
Lemma ipc_pop_yields fuel r :
  yields (T:=T) (pop fuel r)
    (λ out evs m,
       (out.1 = false ↔ existsb observes_empty evs = true) ∧
       (out.1 = false → out.2 = r) ∧
       (out.1 = true →
        ∃ l nx tr0,
          evs = Free l :: ReadValue l ::
                AtomicCas Head (Some l) nx (Some l) true memory_order_seq_cst :: tr0 ∧
          heap m !! l = None)).
Proof.
  intros s out s' Hrun. unfold pop in Hrun.
  apply bind_Done_inv in Hrun as (p & s1 & H1 & Hrun).
  apply bind_Done_inv in Hrun as (q & s2 & H2 & Hrun).
  apply yields_load in H1 as (e1 & Ht1 & ->).
  apply ipc_pop_loop_yields in H2 as (e2 & Ht2 & Hiff & Hlast).
  destruct q as [l|].
  - apply bind_Done_inv in Hrun as (v & s3 & H3 & Hrun).
    apply bind_Done_inv in Hrun as (u & s4 & H4 & Hrun).
    apply ret_Done_inv in Hrun as [-> ->].
    apply yields_read_value in H3 as (e3 & Ht3 & ->).
    apply yields_delete in H4 as (e4 & Ht4 & -> & Hfree).
    destruct (Hlast l eq_refl) as (nx & tr0 & ->).
    eexists (_ :: _ :: _ :: tr0 ++ [_]).
    split; [by rewrite Ht4, Ht3, Ht2, Ht1; simpl; rewrite <- app_assoc|].
    simpl. split_and!; [|done|eauto].
    split; [done|]. intros Hex. exfalso.
    assert (Some l = None) as [=]. apply Hiff.
    rewrite existsb_app in Hex. simpl in *. rewrite orb_false_r in Hex.
    apply orb_true_iff in Hex as [?|?]; [by right|left].
    by destruct p.
  - apply ret_Done_inv in Hrun as [-> ->].
    exists (e2 ++ [AtomicLoad Head p memory_order_seq_cst]).
    split; [by rewrite Ht2, Ht1, <- app_assoc|]. simpl.
    split_and!; [|done|done]. split; [|done]. intros _.
    rewrite existsb_app. simpl. rewrite orb_false_r.
    destruct Hiff as [Hiff _]. destruct (Hiff eq_refl) as [-> | ->]; [|done].
    by rewrite orb_true_r.
Qed.

End Obs.

(** ** The logs of [ABAProneStack::pop] and of [dequeue] *)

Section AbaObs.

Import atomic_operations_04.ABAProneStack.

Lemma aba_pop_yields r :
  yields (pop r)
    (λ out evs _,
       (out.1 = false ↔ existsb observes_empty evs = true ∨ lost_race evs) ∧
       (out.1 = false → out.2 = r)).
Proof.
  intros s out s' Hrun. unfold pop in Hrun.
  apply bind_Done_inv in Hrun as (p & s1 & H1 & Hrun).
  apply yields_load in H1 as (e1 & Ht1 & ->).
  destruct p as [l|].
  - apply bind_Done_inv in Hrun as (nx & s2 & H2 & Hrun).
    apply bind_Done_inv in Hrun as ([ok obs] & s3 & H3 & Hrun).
    apply yields_load in H2 as (e2 & Ht2 & ->).
    apply yields_cas_strong in H3 as (e3 & Ht3 & cur & -> & Hobs & Hok).
    simpl in *. subst obs. destruct ok.
    + apply bind_Done_inv in Hrun as (v & s4 & H4 & Hrun).
      apply bind_Done_inv in Hrun as (u & s5 & H5 & Hrun).
      apply ret_Done_inv in Hrun as [-> ->].
      apply yields_read_value in H4 as (e4 & Ht4 & ->).
      apply yields_delete in H5 as (e5 & Ht5 & -> & _).
      assert (cur = Some l) as -> by by apply Hok.
      eexists [_; _; _; _; _].
      split; [by rewrite Ht5, Ht4, Ht3, Ht2, Ht1|]. simpl.
      split; [|done]. split; [done|].
      intros [?|(? & ? & ? & ? & ?)]; done.
    + apply ret_Done_inv in Hrun as [-> ->].
      eexists [_; _; _]. split; [by rewrite Ht3, Ht2, Ht1|]. simpl.
      split; [|done]. split; [|done]. intros _.
      destruct cur as [c|]; [|by left]. right. exists l, nx, (Some c).
      split; [|done]. intros Heq. apply Hok in Heq. done.
  - apply ret_Done_inv in Hrun as [-> ->].
    eexists [_]. split; [by rewrite Ht1|]. simpl. split; [|done].
    split; [by left|done].
Qed.

End AbaObs.

Section QueueObs.

Context {T : Type}.

Import atomic_cpp.LockFreeQueue.

Lemma load_alone c mo (s : state T) v s1 :
  env (orc s) = [] → load c mo s = Done v s1 →
  read_cell (mem s) c = Some v ∧ mem s1 = mem s ∧ orc s1 = orc s.
Proof.
  intros He. unfold load, mbind, M_bind, bind, interleave, get_cell, log, tick.
  rewrite He. destruct (read_cell (mem s) c) as [w|]; [|done]. simpl.
  by intros [= <- <-].
Qed.

Lemma dequeue_iter_run r (s : state T) o s' :
  dequeue_iter r s = Done o s' →
  ∃ fl last next head2 rest,
    trace s' = rest ++ snapshot fl last next head2 ++ trace s ∧
    pass_outcome r o fl last next head2 rest (mem s') ∧
    (env (orc s) = [] → head2 = Some fl).
Proof.
  intros Hrun. unfold dequeue_iter in Hrun.
  apply bind_Done_inv in Hrun as (first & s1 & H1 & Hrun).
  apply bind_Done_inv in Hrun as (last & s2 & H2 & Hrun).
  apply bind_Done_inv in Hrun as (fl & s3 & H3 & Hrun).
  apply bind_Done_inv in Hrun as (next & s4 & H4 & Hrun).
  apply bind_Done_inv in Hrun as (head2 & s5 & H5 & Hrun).
  assert (first = Some fl ∧ s3 = s2) as [-> ->].
  { destruct first; [|done]. by apply ret_Done_inv in H3 as [-> ->]. }
  clear H3.
  assert (env (orc s) = [] → head2 = Some fl) as Halone.
  { intros He.
    apply (load_alone _ _ _ _ _ He) in H1 as (Hf & Hm1 & Ho1).
    rewrite <- Ho1 in He.
    apply (load_alone _ _ _ _ _ He) in H2 as (_ & Hm2 & Ho2).
    rewrite <- Ho2 in He.
    apply (load_alone _ _ _ _ _ He) in H4 as (_ & Hm4 & Ho4).
    rewrite <- Ho4 in He.
    apply (load_alone _ _ _ _ _ He) in H5 as (Hh & _).
    rewrite Hm4, Hm2, Hm1 in Hh. simpl in *. congruence. }
  apply yields_load in H1 as (e1 & Ht1 & ->).
  apply yields_load in H2 as (e2 & Ht2 & ->).
  apply yields_load in H4 as (e4 & Ht4 & ->).
  apply yields_load in H5 as (e5 & Ht5 & ->).
  assert (trace s5 = snapshot fl last next head2 ++ trace s) as Hsnap.
  { by rewrite Ht5, Ht4, Ht2, Ht1. }
  clear Ht1 Ht2 Ht4 Ht5.
  exists fl, last, next, head2.
  destruct (decide (Some fl = head2)) as [<-|Hh2].
  - destruct (decide (Some fl = last)) as [<-|Hlast].
    + destruct next as [nl|].
      * apply bind_Done_inv in Hrun as ([ok obs] & s6 & H6 & Hrun).
        apply ret_Done_inv in Hrun as [-> ->].
        apply yields_cas_weak in H6 as (e6 & Ht6 & cur & -> & _).
        eexists [_]. split; [by rewrite Ht6, Hsnap|]. split; [|done].
        split_and!; [|done|done].
        intros _ _. split; [done|]. rewrite decide_True by done. eauto.
      * apply ret_Done_inv in Hrun as [-> ->].
        exists []. split; [exact Hsnap|]. split; [|done].
        split_and!; [done| |done].
        intros out [= <-]. done.
    + destruct next as [nl|].
      * apply bind_Done_inv in Hrun as (data & s6 & H6 & Hrun).
        apply yields_load in H6 as (e6 & Ht6 & ->).
        destruct data as [dl|].
        -- apply bind_Done_inv in Hrun as ([ok obs] & s7 & H7 & Hrun).
           apply yields_cas_weak in H7 as (e7 & Ht7 & cur & -> & _ & Hok).
           simpl in *. destruct ok.
           ++ apply bind_Done_inv in Hrun as (v & s8 & H8 & Hrun).
              apply bind_Done_inv in Hrun as (u & s9 & H9 & Hrun).
              apply bind_Done_inv in Hrun as (u' & s10 & H10 & Hrun).
              apply ret_Done_inv in Hrun as [-> ->].
              apply yields_read_value in H8 as (e8 & Ht8 & ->).
              apply yields_delete in H9 as (e9 & Ht9 & -> & _).
              apply yields_delete in H10 as (e10 & Ht10 & -> & Hfree).
              rewrite (Hok eq_refl) in *.
              exists (unlinking fl nl dl).
              split; [by rewrite Ht10, Ht9, Ht8, Ht7, Ht6, Hsnap|].
              split; [|done]. split_and!; [done|done|].
              intros v' [= <-]. exists nl, dl. done.
           ++ apply ret_Done_inv in Hrun as [-> ->].
              eexists [_; _]. split; [by rewrite Ht7, Ht6, Hsnap|].
              split; [|done]. split_and!; done.
        -- apply ret_Done_inv in Hrun as [-> ->].
           eexists [_]. split; [by rewrite Ht6, Hsnap|].
           split; [|done]. split_and!; done.
      * apply ret_Done_inv in Hrun as [-> ->].
        exists []. split; [exact Hsnap|]. split; [|done]. split_and!; done.
  - apply ret_Done_inv in Hrun as [-> ->].
    exists []. split; [exact Hsnap|]. split; [|done].
    split_and!; [|done|done].
    intros _ _. split; [done|]. by rewrite decide_False.
Qed.

(** What a whole call of [dequeue] ends with. *)
Lemma dequeue_yields fuel r :
  yields (T:=T) (dequeue fuel r)
    (λ out evs m,
       (out.1 = false →
        out.2 = r ∧
        ∃ l tr0, evs = snapshot l (Some l) None (Some l) ++ tr0) ∧
       (out.1 = true →
        ∃ fl nl dl tr0, evs = unlinking fl nl dl ++ tr0 ∧
                        heap m !! fl = None)).
Proof.
  induction fuel as [|fuel IH]; intros s out s' Hrun; simpl in Hrun; [done|].
  apply bind_Done_inv in Hrun as (o & s1 & H1 & Hrun).
  apply dequeue_iter_run in H1
    as (fl & last & next & head2 & rest & Ht1 & (_ & Hf & Ht) & _).
  rewrite app_assoc in Ht1.
  destruct o as [[[] v]|].
  - apply ret_Done_inv in Hrun as [-> ->].
    destruct (Ht v eq_refl) as (nl & dl & -> & _ & -> & -> & Hfree).
    eexists. split; [exact Ht1|]. simpl. split; [done|]. intros _.
    eexists fl, nl, dl, _. done.
  - apply ret_Done_inv in Hrun as [-> ->].
    destruct (Hf v eq_refl) as (-> & -> & <- & -> & ->).
    eexists. split; [exact Ht1|]. simpl. split; [|done]. intros _.
    split; [done|]. exists fl, []. done.
  - apply IH in Hrun as (e2 & Ht2 & Hfalse & Htrue).
    exists (e2 ++ (rest ++ snapshot fl last next head2)).
    split; [by rewrite Ht2, Ht1, app_assoc|].
    split.
    + intros Ho. destruct (Hfalse Ho) as (-> & l & tr0 & ->).
      split; [done|]. eexists l, _. by rewrite <- app_assoc.
    + intros Ho. destruct (Htrue Ho) as (fl' & nl & dl & tr0 & -> & ?).
      eexists fl', nl, dl, _. by rewrite <- app_assoc.
Qed.

End QueueObs.

(** ** [ABAProneStack] alone; memory orders; allocation failure *)

Section AbaSeq.

Import atomic_operations_04.ABAProneStack.

Lemma wp_cas_strong {T} c mo (m m' : memory T) tr sp e d
    (Q : bool * ptr → state T → Prop) :
  read_cell m c = Some e →
  write_cell m c d = Some m' →
  Q (true, e) (St m' (AtomicCas c e d e true mo :: tr) sp) →
  wp (compare_exchange_strong c e d mo) (St m tr sp) Q.
Proof.
  intros Hr Hw HQ.
  unfold wp, compare_exchange_strong, mbind, M_bind, bind, interleave,
    get_cell, set_cell, log; simpl.
  rewrite Hr. rewrite decide_True by done. simpl. rewrite Hw. done.
Qed.

Lemma aba_pop_spec_cons (m : memory Z) tr sp r x xs :
  stack_rep m (x :: xs) →
  wp (pop r) (St m tr sp)
     (λ out s', out = (true, x) ∧ settled (length sp) (λ m', stack_rep m' xs) s').
Proof.
  intros (l & nx & Hhd & Hl & Hch). destruct m as [h hd tl]; simpl in *. subst hd.
  apply wp_bind. eapply wp_load; [done|].
  apply wp_bind. eapply wp_load; [by simpl; rewrite Hl|].
  apply wp_bind. eapply wp_cas_strong; [done|done|].
  apply wp_bind. eapply wp_read_value; [left; simpl; eauto|].
  apply wp_bind. eapply wp_delete; [simpl; eauto|]. simpl.
  apply wp_ret. split; [done|].
  eexists _, _, _. split_and!; [done|done|]. done.
Qed.

Lemma aba_pop_spec_nil (m : memory Z) tr sp r :
  stack_rep m [] →
  wp (pop r) (St m tr sp)
     (λ out s', out = (false, r) ∧ ∃ tr', s' = St m tr' sp).
Proof.
  intros Hrep. destruct m as [h hd tl]; unfold stack_rep in *; simpl in *. subst hd.
  apply wp_bind. eapply wp_load; [done|]. apply wp_ret. eauto.
Qed.

End AbaSeq.

(** Walks through a computation: every step is a logging primitive that
    the hints know, a case distinction of the source, or the loop itself
    (the induction hypothesis). *)
Ltac emits_walk :=
  repeat first
    [ solve [auto with emits]
    | apply emits_bind; [solve [auto with emits]|intros ?]
    | case_decide
    | case_match ].

Section Orders.

Context {T : Type}.

Lemma ipc_pop_loop_orders fuel : ∀ p,
  emits (T:=T) seq_cst_if_atomic (atomic_cpp.LockFreeStack.pop_loop fuel p).
Proof. induction fuel as [|fuel IH]; intros [l|]; simpl; emits_walk. Qed.

Lemma ipc_pop_orders fuel r :
  emits (T:=T) seq_cst_if_atomic (atomic_cpp.LockFreeStack.pop fuel r).
Proof.
  pose proof ipc_pop_loop_orders.
  unfold atomic_cpp.LockFreeStack.pop. emits_walk.
Qed.

Lemma ipc_empty_orders :
  emits (T:=T) seq_cst_if_atomic atomic_cpp.LockFreeStack.empty.
Proof. unfold atomic_cpp.LockFreeStack.empty. emits_walk. Qed.

Lemma construct_orders :
  emits (T:=T) seq_cst_if_atomic atomic_cpp.LockFreeQueue.construct.
Proof. unfold atomic_cpp.LockFreeQueue.construct. emits_walk. Qed.

Lemma dequeue_iter_orders r :
  emits (T:=T) seq_cst_if_atomic (atomic_cpp.LockFreeQueue.dequeue_iter r).
Proof. unfold atomic_cpp.LockFreeQueue.dequeue_iter. emits_walk. Qed.

Lemma dequeue_orders fuel r :
  emits (T:=T) seq_cst_if_atomic (atomic_cpp.LockFreeQueue.dequeue fuel r).
Proof.
  pose proof dequeue_iter_orders.
  induction fuel as [|fuel IH]; simpl; emits_walk.
Qed.

(** No operation of the queue puts null into [head_] or [tail_]. *)

Lemma cas_weak_non_null c e (d : loc) mo :
  emits (T:=T) keeps_ends_non_null (compare_exchange_weak c e (Some d) mo).
Proof. apply emits_cas_weak. intros cur ok. by destruct c, ok. Qed.

Local Hint Resolve cas_weak_non_null : emits.

Lemma construct_non_null :
  emits (T:=T) keeps_ends_non_null atomic_cpp.LockFreeQueue.construct.
Proof. unfold atomic_cpp.LockFreeQueue.construct. emits_walk. Qed.

Lemma dequeue_iter_non_null r :
  emits (T:=T) keeps_ends_non_null (atomic_cpp.LockFreeQueue.dequeue_iter r).
Proof. unfold atomic_cpp.LockFreeQueue.dequeue_iter. emits_walk. Qed.

Lemma dequeue_non_null fuel r :
  emits (T:=T) keeps_ends_non_null (atomic_cpp.LockFreeQueue.dequeue fuel r).
Proof.
  pose proof dequeue_iter_non_null.
  induction fuel as [|fuel IH]; simpl; emits_walk.
Qed.

Lemma mt_push_loop_orders fuel nn :
  emits (T:=T) seq_cst_if_atomic
    (atomic_operations_04.LockFreeStack.push_loop fuel nn).
Proof. induction fuel as [|fuel IH]; simpl; emits_walk. Qed.

Lemma mt_push_orders fuel v :
  emits (T:=T) seq_cst_if_atomic (atomic_operations_04.LockFreeStack.push fuel v).
Proof.
  pose proof mt_push_loop_orders.
  unfold atomic_operations_04.LockFreeStack.push. emits_walk.
Qed.

Lemma mt_pop_loop_orders fuel : ∀ p,
  emits (T:=T) seq_cst_if_atomic
    (atomic_operations_04.LockFreeStack.pop_loop fuel p).
Proof. induction fuel as [|fuel IH]; intros [l|]; simpl; emits_walk. Qed.

Lemma mt_pop_orders fuel :
  emits (T:=T) seq_cst_if_atomic (atomic_operations_04.LockFreeStack.pop fuel).
Proof.
  pose proof mt_pop_loop_orders.
  unfold atomic_operations_04.LockFreeStack.pop. emits_walk.
Qed.

Lemma mt_empty_orders :
  emits (T:=T) seq_cst_if_atomic atomic_operations_04.LockFreeStack.empty.
Proof. unfold atomic_operations_04.LockFreeStack.empty. emits_walk. Qed.

Lemma queue_destroy_orders fuel :
  emits (T:=T) seq_cst_if_atomic (atomic_cpp.LockFreeQueue.destroy fuel).
Proof. induction fuel as [|fuel IH]; simpl; emits_walk. Qed.

End Orders.

Section AllocFail.

Context {T : Type}.

Lemma new_throws (o : object T) s bs :
  oom (orc s) = true :: bs →
  new_ o s = Thrown (State (mem s) (trace s)
                       (Oracle bs (spurious (orc s)) (env (orc s)))).
Proof. intros Ho. unfold new_. by rewrite Ho. Qed.

Lemma new_places (o : object T) s bs :
  oom (orc s) = false :: bs →
  ∃ l, heap (mem s) !! l = None ∧
       new_ o s =
         Done l (State (Memory (<[l := o]> (heap (mem s)))
                               (head_ (mem s)) (tail_ (mem s)))
                       (Alloc l :: trace s)
                       (Oracle bs (spurious (orc s)) (env (orc s)))).
Proof.
  intros Ho. unfold new_. rewrite Ho. eexists. split; [|done].
  apply not_elem_of_dom, is_fresh.
Qed.

Lemma first_new_throws {A} (o : object T) (k : loc → M T A) s bs :
  oom (orc s) = true :: bs →
  ∃ s', (new_ o ≫= k) s = Thrown s' ∧ mem s' = mem s.
Proof.
  intros Ho. unfold mbind, M_bind, bind. rewrite (new_throws _ _ _ Ho).
  eexists. done.
Qed.

End AllocFail.

(** ** Loops over the elements *)

Section Sequences.

Context {T : Type}.

Lemma wp_then {A B} (c : M T A) (k : A → M T B) s n (R : A → Prop)
    (P : memory T → Prop) Q :
  wp c s (λ a s', R a ∧ settled n P s') →
  (∀ a m tr sp, R a → length sp ≤ n → P m → wp (k a) (St m tr sp) Q) →
  wp (c ≫= k) s Q.
Proof.
  intros Hc Hk. apply wp_bind. eapply wp_mono; [exact Hc|].
  intros a s' (HR & m & tr & sp & -> & Hle & HP). by apply Hk.
Qed.

Lemma for_each_spec (I : list T → memory T → Prop) (f : list T → T → list T)
    (op : T → M T unit) n :
  (∀ m tr sp xs v, length sp ≤ n → I xs m →
     wp (op v) (St m tr sp) (λ _, settled (length sp) (I (f xs v)))) →
  ∀ items m tr sp xs, length sp ≤ n → I xs m →
    wp (for_each op items) (St m tr sp)
       (λ _, settled (length sp) (I (foldl f xs items))).
Proof.
  intros Hop. induction items as [|v items IH]; intros m tr sp xs Hn HI; simpl.
  - apply wp_ret. exists m, tr, sp. done.
  - eapply (wp_then _ _ _ _ (λ _, True)).
    + eapply wp_mono; [by apply Hop|]. intros a s' Hs'. split; [done|exact Hs'].
    + intros _ m' tr' sp' _ Hle HI'. simpl in *.
      eapply wp_mono; [apply IH; [lia|done]|].
      intros a s' Hs'. eapply settled_mono; [exact Hs'|lia|done].
Qed.

Lemma drain_spec (I : list T → memory T → Prop)
    (pop : T → M T (bool * T)) n :
  (∀ m tr sp r, length sp ≤ n → I [] m →
     wp (pop r) (St m tr sp)
        (λ out s', out = (false, r) ∧ settled (length sp) (I []) s')) →
  (∀ m tr sp r x xs, length sp ≤ n → I (x :: xs) m →
     wp (pop r) (St m tr sp)
        (λ out s', out = (true, x) ∧ settled (length sp) (I xs) s')) →
  ∀ xs rounds m tr sp r, length xs < rounds → length sp ≤ n → I xs m →
    wp (drain pop rounds r) (St m tr sp)
       (λ out s', out = xs ∧ settled (length sp) (I []) s').
Proof.
  intros Hnil Hcons.
  induction xs as [|x xs IH]; intros rounds m tr sp r Hr Hn HI;
    (destruct rounds as [|rounds]; [simpl in Hr; lia|]); simpl.
  - eapply wp_then; [by apply Hnil|].
    intros out m' tr' sp' -> Hle HI'. apply wp_ret. split; [done|].
    exists m', tr', sp'. done.
  - eapply wp_then; [by apply Hcons|].
    intros out m' tr' sp' -> Hle HI'. cbn beta iota.
    apply wp_bind. eapply wp_mono; [apply IH; [simpl in Hr; lia|lia|done]|].
    intros rest s' (-> & Hs'). apply wp_ret. split; [done|].
    eapply settled_mono; [exact Hs'|lia|done].
Qed.

Lemma foldl_cons_rev (items xs : list T) :
  foldl (λ acc v, v :: acc) xs items = rev items ++ xs.
Proof.
  revert xs. induction items as [|v items IH]; intros xs; simpl; [done|].
  by rewrite IH, <- app_assoc.
Qed.

End Sequences.

(** ** The stack of 04_atomic_operations.cpp against a list *)

Section Refinement.

Context {T : Type}.

Lemma mt_empty_spec (m : memory T) tr sp xs :
  pstack_rep m xs →
  wp atomic_operations_04.LockFreeStack.empty (St m tr sp)
     (λ b s', b = match xs with [] => true | _ => false end ∧
              ∃ tr', s' = St m tr' sp).
Proof.
  intros Hrep. destruct m as [h hd tl]. unfold pstack_rep in Hrep. simpl in *.
  apply wp_bind. eapply wp_load; [done|]. apply wp_ret. split; [|eauto].
  destruct xs; simpl in Hrep.
  - by subst hd.
  - by destruct Hrep as (l & b & nx & -> & _).
Qed.

Lemma mt_call_spec fuel (c : call) (m : memory T) tr sp xs :
  pstack_rep m xs → length sp < fuel →
  wp (mt_call fuel c) (St m tr sp)
     (λ o s', o = (model_call c xs).1 ∧
              settled (length sp) (λ m', pstack_rep m' (model_call c xs).2) s').
Proof.
  intros Hrep Hf. destruct c as [v| |]; simpl.
  - apply wp_bind. eapply wp_mono; [by apply mt_push_spec|].
    intros [] s' Hs'. apply wp_ret. done.
  - destruct xs as [|x xs]; simpl.
    + pose proof (mt_pop_spec_nil fuel m tr sp Hrep) as Hpop.
      unfold atomic_operations_04.LockFreeStack.pop_value in Hpop. apply wp_Done in Hpop as (o & s' & Hrun & -> & tr' & ->).
      apply bind_Done_inv in Hrun as (p & s1 & H1 & H2).
      unfold wp, mbind, M_bind, bind. rewrite H1, H2. simpl. split; [done|].
      exists m, tr', sp. done.
    + pose proof (mt_pop_spec_cons fuel m tr sp x xs Hf Hrep) as Hpop.
      unfold atomic_operations_04.LockFreeStack.pop_value in Hpop. apply wp_Done in Hpop as (o & s' & Hrun & -> & Hs').
      apply bind_Done_inv in Hrun as (p & s1 & H1 & H2).
      unfold wp, mbind, M_bind, bind. rewrite H1, H2. simpl. done.
  - apply wp_bind. eapply wp_mono; [by apply mt_empty_spec|].
    intros b s' (-> & tr' & ->). apply wp_ret. split; [done|].
    exists m, tr', sp. done.
Qed.

Lemma run_calls_spec (I : list T → memory T → Prop)
    (perform : call → M T observation) n :
  (∀ c m tr sp xs, I xs m → length sp ≤ n →
     wp (perform c) (St m tr sp)
        (λ o s', o = (model_call c xs).1 ∧
                 settled (length sp) (I (model_call c xs).2) s')) →
  ∀ cs m tr sp xs, I xs m → length sp ≤ n →
    wp (run_calls perform cs) (St m tr sp)
       (λ os s', os = model_run cs xs ∧
                 settled (length sp) (I (model_end cs xs)) s').
Proof.
  intros Hperf. induction cs as [|c cs IH]; intros m tr sp xs HI Hn; simpl.
  - apply wp_ret. split; [done|]. exists m, tr, sp. done.
  - eapply wp_then; [by apply Hperf|].
    intros o m' tr' sp' -> Hle HI'. cbn beta.
    apply wp_bind. eapply wp_mono; [apply IH; [done|lia]|].
    intros os s' (-> & Hs'). apply wp_ret. split; [done|].
    eapply settled_mono; [exact Hs'|lia|done].
Qed.

End Refinement.

(** ** Helper facts about the example states *)

Section More.

Context {T : Type}.

Lemma preserved_refl (s s' : state T) : mem s' = mem s → preserved s s'.
Proof. intros Hm. unfold preserved. rewrite Hm. done. Qed.

End More.

Lemma stack_one_rep : stack_rep stack_one [7%Z].
Proof. exists 1%positive, None. vm_compute. done. Qed.

Lemma queue_one_shape : queue_shape queue_one 1%positive [Slot 2 3 5%Z].
Proof.
  exists [1%positive], 2%positive, []. split_and!.
  - reflexivity.
  - apply (bool_decide_unpack _). vm_compute. exact I.
  - split; [exists None|exists (Some 3%positive)]; vm_compute; reflexivity.
  - apply Forall_singleton. split; [exists None|]; vm_compute; reflexivity.
  - reflexivity.
  - simpl. lia.
  - reflexivity.
Qed.

(** * The claims

    Of the claims about the two stacks and the queue, the ones that concern
    [pop] and [dequeue] alone and the memory orders are settled here.  The
    others ask what [push] or [enqueue] of atomic.cpp do, which cannot be
    compiled; what holds of the member functions around them is proved in
    the next part. *)

(** C3, as the code has it.  A [pop] or a [dequeue] that returns true has
    deleted the node it unlinked before it returns: the last things it did
    are the exchange on [head_] that unlinked the node, the read of the
    payload and the [delete]s, and on return the node is not allocated.
    Nothing is retired and no hazard record is consulted; this holds
    whatever the other threads do meanwhile. *)
Theorem unlinked_node_is_deleted_at_once {T} (fuel : nat) (r v : T)
    (s s' : state T) :
  (atomic_cpp.LockFreeStack.pop fuel r s = Done (true, v) s' →
   ∃ l nx tr0,
     trace s' = Free l :: ReadValue l ::
                AtomicCas Head (Some l) nx (Some l) true memory_order_seq_cst :: tr0 ∧
     heap (mem s') !! l = None) ∧
  (atomic_cpp.LockFreeQueue.dequeue fuel r s = Done (true, v) s' →
   ∃ fl nl dl tr0,
     trace s' = Free fl :: Free dl :: ReadValue dl ::
                AtomicCas Head (Some fl) (Some nl) (Some fl) true
                  memory_order_seq_cst :: tr0 ∧
     heap (mem s') !! fl = None).
Proof.
  split; intros Hrun.
  - apply ipc_pop_yields in Hrun as (evs & Ht & _ & _ & Htrue).
    destruct (Htrue eq_refl) as (l & nx & tr0 & -> & Hfree).
    exists l, nx, (tr0 ++ trace s). by rewrite Ht.
  - apply dequeue_yields in Hrun as (evs & Ht & _ & Htrue).
    destruct (Htrue eq_refl) as (fl & nl & dl & tr0 & -> & Hfree).
    exists fl, nl, dl,
      (AtomicLoad (DataOf nl) (Some dl) memory_order_seq_cst :: tr0 ++ trace s).
    by rewrite Ht.
Qed.

Lemma unlinked_node_is_deleted_at_once_witness :
  ∃ s',
    atomic_cpp.LockFreeStack.pop 1 0%Z (St stack_one [] []) =
      Done (true, 7%Z) s' ∧
    ∃ l nx tr0,
      trace s' = Free l :: ReadValue l ::
                 AtomicCas Head (Some l) nx (Some l) true memory_order_seq_cst :: tr0 ∧
      heap (mem s') !! l = None.
Proof.
  eexists. split; [vm_compute; reflexivity|].
  apply (proj1 (unlinked_node_is_deleted_at_once 1 0%Z 7%Z
                  (St stack_one [] []) _)).
  vm_compute. reflexivity.
Defined.

(** C3, as stated, fails: on a stack holding one element and on a queue
    holding one element the node that was the head is gone from the heap
    when [pop], respectively [dequeue], returns. *)
Lemma deferred_reclamation_counterexample :
  ¬ reclaims_later (atomic_cpp.LockFreeStack.pop 1 0%Z) ∧
  ¬ reclaims_later (atomic_cpp.LockFreeQueue.dequeue 2 0%Z).
Proof.
  split; intros Hclaim.
  - destruct (Hclaim stack_one [] [] 7%Z _ 1%positive
                ltac:(vm_compute; reflexivity) ltac:(vm_compute; reflexivity))
      as [o Ho].
    vm_compute in Ho. discriminate.
  - destruct (Hclaim queue_one [] [] 5%Z _ 1%positive
                ltac:(vm_compute; reflexivity) ltac:(vm_compute; reflexivity))
      as [o Ho].
    vm_compute in Ho. discriminate.
Qed.

(** The same defect seen from a second thread: it has loaded [head_], the
    first thread pops and deletes that node, and the second thread's
    [old_head->next.load()] reads freed memory. *)
Example pop_reads_freed_node :
  atomic_cpp.LockFreeStack.pop 1 0%Z stack_raced = Undefined.
Proof. vm_compute. reflexivity. Qed.

(** C5, as the code has it.  [LockFreeStack::pop] of atomic.cpp returns
    false exactly when one of its reads of [head_] found it null, whatever
    the other threads do.  [ABAProneStack::pop] returns false exactly when
    its load of [head_] found it null or its one exchange lost against
    another thread.  Running alone, both return false on an empty stack
    at once (the retry loop is not entered: any fuel will do, also none)
    and leave it as it was, and on a stack with top [x] both return true with [x]
    and leave the rest. *)
Theorem pop_reports_empty {T} (fuel : nat) (r : T) (z : Z) :
  false_iff_observed_empty (atomic_cpp.LockFreeStack.pop fuel r) ∧
  (∀ s out s',
     atomic_operations_04.ABAProneStack.pop z s = Done out s' →
     ∃ evs, trace s' = evs ++ trace s ∧
            (out.1 = false ↔
             existsb observes_empty evs = true ∨ lost_race evs)) ∧
  (∀ n m tr sp, stack_rep m [] →
     ∃ tr', atomic_cpp.LockFreeStack.pop n r (St m tr sp) =
            Done (false, r) (St m tr' sp)) ∧
  (∀ m tr sp, stack_rep m [] →
     ∃ tr', atomic_operations_04.ABAProneStack.pop z (St m tr sp) =
            Done (false, z) (St m tr' sp)) ∧
  (∀ m tr sp x xs, stack_rep m (x :: xs) → length sp < fuel →
     ∃ s', atomic_cpp.LockFreeStack.pop fuel r (St m tr sp) =
           Done (true, x) s' ∧
           settled (length sp) (λ m', stack_rep m' xs) s') ∧
  (∀ m tr sp x xs, stack_rep m (x :: xs) →
     ∃ s', atomic_operations_04.ABAProneStack.pop z (St m tr sp) =
           Done (true, x) s' ∧
           settled (length sp) (λ m', stack_rep m' xs) s').
Proof.
  split_and!.
  - intros s out s' Hrun.
    apply ipc_pop_yields in Hrun as (evs & Ht & Hiff & _). eauto.
  - intros s out s' Hrun.
    apply aba_pop_yields in Hrun as (evs & Ht & Hiff & _). eauto.
  - intros n m tr sp Hrep.
    destruct (proj1 (wp_Done _ _ _) (ipc_pop_spec_nil n m tr sp r Hrep))
      as (out & s' & Hrun & -> & tr' & ->).
    eauto.
  - intros m tr sp Hrep.
    destruct (proj1 (wp_Done _ _ _) (aba_pop_spec_nil m tr sp z Hrep))
      as (out & s' & Hrun & -> & tr' & ->).
    eauto.
  - intros m tr sp x xs Hrep Hf.
    destruct (proj1 (wp_Done _ _ _) (ipc_pop_spec_cons fuel m tr sp r x xs Hf Hrep))
      as (out & s' & Hrun & -> & Hs').
    eauto.
  - intros m tr sp x xs Hrep.
    destruct (proj1 (wp_Done _ _ _) (aba_pop_spec_cons m tr sp z x xs Hrep))
      as (out & s' & Hrun & -> & Hs').
    eauto.
Qed.

Lemma pop_reports_empty_witness :
  stack_rep stack_one [7%Z] ∧ length [true] < 2 ∧
  ∃ s', atomic_cpp.LockFreeStack.pop 2 0%Z (St stack_one [] [true]) =
        Done (true, 7%Z) s' ∧
        settled (length [true]) (λ m', stack_rep m' []) s'.
Proof.
  split_and!; [exact stack_one_rep|simpl; lia|].
  apply (proj1 (proj2 (proj2 (proj2 (proj2
           (pop_reports_empty 2 0%Z 0%Z)))))).
  - exact stack_one_rep.
  - simpl; lia.
Defined.

(** C5, as stated, fails for [ABAProneStack::pop]: the stack holds 1, a
    second thread pushes 2 just before the exchange, and the call returns
    false although every read of [head_] found a node. *)
Lemma pop_false_on_nonempty_counterexample :
  ¬ false_iff_observed_empty (atomic_operations_04.ABAProneStack.pop 0%Z).
Proof.
  intros Hclaim.
  destruct (Hclaim aba_raced (false, 0%Z) _ ltac:(vm_compute; reflexivity))
    as (evs & Ht & Hiff).
  change (trace aba_raced) with (@nil event) in Ht.
  rewrite app_nil_r in Ht. subst evs.
  destruct Hiff as [Hiff _]. specialize (Hiff eq_refl). vm_compute in Hiff.
  discriminate.
Qed.

(** C7, as the code has it.  Let a pass of [dequeue] load [Some fl] from
    [head_], [last] from [tail_], [next] from [fl->next] and [head2] from
    [head_] again.  If [last] is [Some fl] and [next] is not null, the
    pass returns nothing and goes round again; it has then issued one
    [compare_exchange_weak] on [tail_] from [last] to [next] when [head2]
    is still [Some fl], and none when [head_] has changed meanwhile.  A
    pass returns false only when [last] is [Some fl], [next] is null and
    [head2] is [Some fl].  A thread that runs alone always finds [head2]
    equal to [Some fl].  A call of [dequeue] that returns false ends with
    such a pass. *)
Theorem dequeue_helps_a_lagging_tail {T} (fuel : nat) (r : T)
    (s s' : state T) :
  (∀ o, atomic_cpp.LockFreeQueue.dequeue_iter r s = Done o s' →
     ∃ fl last next head2 rest,
       trace s' = rest ++ snapshot fl last next head2 ++ trace s ∧
       (Some fl = last → next ≠ None →
          o = None ∧
          if decide (head2 = Some fl)
          then ∃ cur ok,
                 rest = [AtomicCas Tail last next cur ok memory_order_seq_cst]
          else rest = []) ∧
       (∀ out, o = Some (false, out) →
          Some fl = last ∧ next = None ∧ head2 = Some fl) ∧
       (env (orc s) = [] → head2 = Some fl)) ∧
  (∀ out, atomic_cpp.LockFreeQueue.dequeue fuel r s = Done (false, out) s' →
     ∃ l tr0, trace s' = snapshot l (Some l) None (Some l) ++ tr0).
Proof.
  split.
  - intros o Hrun.
    apply dequeue_iter_run in Hrun
      as (fl & last & next & head2 & rest & Ht & (Hhelp & Hfalse & _) & Halone).
    exists fl, last, next, head2, rest. split_and!; [done|done| |done].
    intros out Ho. by destruct (Hfalse out Ho) as (_ & _ & ? & ? & ?).
  - intros out Hrun.
    apply dequeue_yields in Hrun as (evs & Ht & Hfalse & _).
    destruct (Hfalse eq_refl) as (_ & l & tr0 & ->).
    exists l, (tr0 ++ trace s). by rewrite Ht, <- app_assoc.
Qed.

Lemma dequeue_helps_a_lagging_tail_witness :
  ∃ s',
    atomic_cpp.LockFreeQueue.dequeue_iter 0%Z (St queue_lagging [] []) =
      Done None s' ∧
    ∃ fl last next head2 rest,
      trace s' = rest ++ snapshot fl last next head2 ++ [] ∧
      (Some fl = last → next ≠ None →
         None = (None : option (bool * Z)) ∧
         if decide (head2 = Some fl)
         then ∃ cur ok,
                rest = [AtomicCas Tail last next cur ok memory_order_seq_cst]
         else rest = []) ∧
      (∀ out : Z, None = Some (false, out) →
         Some fl = last ∧ next = None ∧ head2 = Some fl) ∧
      (@nil (memory Z → memory Z) = [] → head2 = Some fl).
Proof.
  eexists. split; [vm_compute; reflexivity|].
  apply (proj1 (dequeue_helps_a_lagging_tail 0 0%Z (St queue_lagging [] []) _)).
  vm_compute. reflexivity.
Defined.

(** C7, as stated, fails: the pass loads [head_ == tail_] and a non-null
    [head_->next], another thread dequeues before the second load of
    [head_], and the pass goes round again without an exchange on
    [tail_]. *)
Lemma stale_snapshot_counterexample :
  ¬ always_helps (atomic_cpp.LockFreeQueue.dequeue_iter 0%Z).
Proof.
  intros Hclaim.
  destruct (Hclaim queue_raced None _ 1%positive 2%positive
              (Some 2%positive) []
              ltac:(vm_compute; reflexivity) ltac:(vm_compute; reflexivity))
    as (cur & ok & Hrest).
  discriminate.
Qed.

(** C8, as the code has it.  Every atomic load, store and exchange made
    by [pop] and [empty] of the stack of atomic.cpp, by the constructor, by
    [dequeue] and by the destructor of the queue, and by [push], [pop] and
    [empty] of the stack of 04_atomic_operations.cpp, in whatever state
    they run and however often their loops go round, is made with
    [memory_order_seq_cst], the default of [std::atomic]: none names
    acquire, release or acquire-release, and none is relaxed.  With that
    order a load performs an acquire operation, a store a release
    operation and an exchange both.  These are all the member functions of
    the three classes that are well-formed; the constructors of the stacks
    only initialise [head_]. *)
Theorem containers_use_seq_cst {T} (fuel : nat) (v r : T) :
  (∀ e, seq_cst_if_atomic e →
        synchronises e ∧ atomic_order e ≠ Some memory_order_relaxed) ∧
  emits seq_cst_if_atomic (atomic_cpp.LockFreeStack.pop fuel r) ∧
  emits (T:=T) seq_cst_if_atomic atomic_cpp.LockFreeStack.empty ∧
  emits (T:=T) seq_cst_if_atomic atomic_cpp.LockFreeQueue.construct ∧
  emits seq_cst_if_atomic (atomic_cpp.LockFreeQueue.dequeue fuel r) ∧
  emits (T:=T) seq_cst_if_atomic (atomic_cpp.LockFreeQueue.destroy fuel) ∧
  emits seq_cst_if_atomic (atomic_operations_04.LockFreeStack.push fuel v) ∧
  emits (T:=T) seq_cst_if_atomic (atomic_operations_04.LockFreeStack.pop fuel) ∧
  emits (T:=T) seq_cst_if_atomic atomic_operations_04.LockFreeStack.empty.
Proof.
  split_and!.
  - intros e He.
    destruct e as [c x mo|c x mo|c x d o ok mo| | | | |];
      unfold seq_cst_if_atomic in He; simpl in He; try subst mo; done.
  - apply ipc_pop_orders.
  - apply ipc_empty_orders.
  - apply construct_orders.
  - apply dequeue_orders.
  - apply queue_destroy_orders.
  - apply mt_push_orders.
  - apply mt_pop_orders.
  - apply mt_empty_orders.
Qed.

(** C8, as stated, fails: [pop] on a stack with one element loads [head_]
    to dereference it, and the load is not an acquire load. *)
Lemma acquire_release_counterexample :
  ¬ emits acquire_release_policy (atomic_cpp.LockFreeStack.pop 1 0%Z).
Proof.
  intros Hclaim. specialize (Hclaim (St stack_one [] [])).
  set (res := atomic_cpp.LockFreeStack.pop 1 0%Z (St stack_one [] [])) in Hclaim.
  vm_compute in res. subst res. cbv beta iota in Hclaim.
  destruct Hclaim as (evs & Ht & Hall).
  cbn [trace St] in Ht. rewrite app_nil_r in Ht. subst evs.
  do 4 (apply Forall_cons in Hall as [_ Hall]).
  apply Forall_cons in Hall as [Hload _]. discriminate.
Qed.

(** * Further properties of the code *)

(** ** The containers *)

(** ** What [push] and [pop] do to the heap, exactly *)

Section Exact.
Context {T : Type}.

Lemma ipc_pop_exact fuel (m : memory T) tr sp r l x nx :
  length sp < fuel →
  head_ m = Some l →
  heap m !! l = Some (VNode x nx) →
  wp (atomic_cpp.LockFreeStack.pop fuel r) (St m tr sp)
     (λ out s', out = (true, x) ∧
        ∃ tr' sp', s' = St (Memory (delete l (heap m)) nx (tail_ m)) tr' sp' ∧
                   length sp' ≤ length sp).
Proof.
  intros Hf Hhd Hl. destruct m as [h hd tl]; simpl in *. subst hd.
  apply wp_bind. eapply wp_load; [done|].
  apply wp_bind. eapply wp_mono; [eapply ipc_pop_loop_spec; simpl; eauto|].
  intros ? s' (-> & tr' & sp' & -> & Hle). simpl in *.
  apply wp_bind. eapply wp_read_value; [left; simpl; eauto|].
  apply wp_bind. eapply wp_delete; [simpl; eauto|]. simpl.
  apply wp_ret. split; [done|]. eexists _, _. done.
Qed.
Lemma mt_push_loop_exact fuel : ∀ (m : memory T) tr sp nn d,
  length sp < fuel →
  heap m !! nn = Some (PNode d (head_ m)) →
  wp (atomic_operations_04.LockFreeStack.push_loop fuel nn) (St m tr sp)
     (λ _ s', ∃ tr' sp',
        s' = St (Memory (heap m) (Some nn) (tail_ m)) tr' sp' ∧
        length sp' ≤ length sp).
Proof.
  induction fuel as [|fuel IH]; intros m tr sp nn d Hf Hnn; [lia|].
  destruct m as [h hd tl]; simpl in *.
  apply wp_bind. eapply wp_read; [by simpl; rewrite Hnn|].
  apply wp_bind. apply wp_cas_weak; [done|..].
  - intros sp' ->. simpl in *.
    apply wp_bind. eapply wp_write; [by simpl; rewrite Hnn|].
    eapply wp_mono.
    + eapply IH; simpl; [lia|by rewrite lookup_insert_eq].
    + intros _ s' (tr' & sp'' & -> & Hle). simpl.
      rewrite insert_id by done. eexists _, _. split; [done|lia].
  - intros _. eexists. split; [done|]. apply wp_ret.
    eexists _, _. split; [done|]. destruct sp; simpl; lia.
Qed.
Lemma mt_push_exact fuel (m : memory T) tr sp v :
  length sp < fuel →
  wp (atomic_operations_04.LockFreeStack.push fuel v) (St m tr sp)
     (λ _ s', ∃ l b tr' sp',
        heap m !! l = None ∧ heap m !! b = None ∧ l ≠ b ∧
        s' = St (Memory (<[l := PNode (Some b) (head_ m)]>
                           (<[b := Box v]> (heap m)))
                        (Some l) (tail_ m)) tr' sp' ∧
        length sp' ≤ length sp).
Proof.
  intros Hf. destruct m as [h hd tl]; simpl in *.
  apply wp_bind, wp_new. intros l Hl. simpl.
  apply wp_bind, wp_new. intros b Hb. simpl in *.
  assert (l ≠ b) as Hne by (intros ->; by rewrite lookup_insert_eq in Hb).
  rewrite lookup_insert_ne in Hb by done.
  apply wp_bind. eapply wp_store.
  { simpl. rewrite lookup_insert_ne, lookup_insert_eq by done. done. }
  apply wp_bind. eapply wp_load; [done|]. simpl.
  apply wp_bind. eapply wp_write; [by simpl; rewrite lookup_insert_eq|].
  eapply wp_mono.
  - eapply mt_push_loop_exact; simpl; [done|by rewrite lookup_insert_eq].
  - intros _ s' (tr' & sp' & -> & Hle). simpl.
    eexists l, b, _, _. split_and!; [done|done|done| |done].
    f_equal. f_equal. apply map_eq. intros i.
    destruct (decide (i = l)) as [->|Hil].
    { by rewrite !lookup_insert_eq. }
    rewrite !(lookup_insert_ne _ l) by done.
    destruct (decide (i = b)) as [->|Hib].
    { by rewrite !lookup_insert_eq. }
    by rewrite !lookup_insert_ne by done.
Qed.
Lemma mt_pop_exact fuel (m : memory T) tr sp l d nx :
  length sp < fuel →
  head_ m = Some l →
  heap m !! l = Some (PNode d nx) →
  wp (atomic_operations_04.LockFreeStack.pop fuel) (St m tr sp)
     (λ out s', out = d ∧
        ∃ tr' sp', s' = St (Memory (delete l (heap m)) nx (tail_ m)) tr' sp' ∧
                   length sp' ≤ length sp).
Proof.
  intros Hf Hhd Hl. destruct m as [h hd tl]; simpl in *. subst hd.
  apply wp_bind. eapply wp_load; [done|].
  apply wp_bind. eapply wp_mono; [eapply mt_pop_loop_spec; simpl; eauto|].
  intros ? s' (-> & tr' & sp' & -> & Hle). simpl in *.
  apply wp_bind. eapply wp_load; [by simpl; rewrite Hl|].
  apply wp_bind. eapply wp_delete; [simpl; eauto|]. simpl.
  apply wp_ret. split; [done|]. eexists _, _. done.
Qed.

Lemma mt_pop_value_exact fuel (m : memory T) tr sp l b x nx :
  length sp < fuel →
  head_ m = Some l →
  heap m !! l = Some (PNode (Some b) nx) →
  heap m !! b = Some (Box x) →
  wp (atomic_operations_04.LockFreeStack.pop_value fuel) (St m tr sp)
     (λ out s', out = Some x ∧
        ∃ tr' sp',
          s' = St (Memory (delete b (delete l (heap m))) nx (tail_ m))
                  tr' sp' ∧
          length sp' ≤ length sp).
Proof.
  intros Hf Hhd Hl Hb. destruct m as [h hd tl]; simpl in *. subst hd.
  assert (l ≠ b) as Hne by (intros ->; congruence).
  apply wp_bind. apply wp_bind. eapply wp_load; [done|].
  apply wp_bind. eapply wp_mono; [eapply mt_pop_loop_spec; simpl; eauto|].
  intros ? s' (-> & tr' & sp' & -> & Hle). simpl in *.
  apply wp_bind. eapply wp_load; [by simpl; rewrite Hl|].
  apply wp_bind. eapply wp_delete; [simpl; eauto|]. simpl.
  apply wp_ret. simpl.
  apply wp_bind. eapply wp_read_value.
  { right. simpl. rewrite lookup_delete_ne by done. done. }
  apply wp_bind. eapply wp_delete.
  { simpl. rewrite lookup_delete_ne by done. done. }
  apply wp_ret. split; [done|]. eexists _, _. done.
Qed.
Lemma stack_nodes_length : ∀ (xs : list T) h p,
  chain h p xs → length (stack_nodes (length xs) h p) = length xs.
Proof.
  induction xs as [|x xs IH]; intros h p; simpl; [done|].
  intros (l & nx & -> & Hl & Hch). rewrite Hl. simpl. by rewrite IH.
Qed.

Lemma stack_nodes_cons n (h : gmap positive (object T)) l x nx :
  h !! l = Some (VNode x nx) →
  stack_nodes (S n) h (Some l) = l :: stack_nodes n (delete l h) nx.
Proof. intros Hl. simpl. by rewrite Hl. Qed.

(** [while (pop(value)) {}] on a stack that holds [xs]. *)
Lemma ipc_drain_exact fuel : ∀ (xs : list T) rounds (m : memory T) tr sp value,
  stack_rep m xs → length sp < fuel → length xs < rounds →
  wp (drain (atomic_cpp.LockFreeStack.pop fuel) rounds value) (St m tr sp)
     (λ out s', out = xs ∧
        ∃ tr' sp',
          s' = St (Memory (foldr delete (heap m)
                             (stack_nodes (length xs) (heap m) (head_ m)))
                          None (tail_ m)) tr' sp' ∧
          length sp' ≤ length sp).
Proof.
  induction xs as [|x xs IH]; intros rounds m tr sp value Hrep Hf Hr;
    (destruct rounds as [|rounds]; [simpl in Hr; lia|]); simpl drain.
  - apply wp_bind. eapply wp_mono; [by apply ipc_pop_spec_nil|].
    intros out s' (-> & tr' & ->). apply wp_ret. split; [done|].
    destruct m as [h hd tl]; unfold stack_rep in Hrep; simpl in *. subst hd.
    eexists _, _. done.
  - destruct m as [h hd tl]; unfold stack_rep in Hrep; simpl in Hrep.
    destruct Hrep as (l & nx & -> & Hl & Hch).
    apply wp_bind. eapply wp_mono; [by eapply ipc_pop_exact|].
    intros out s' (-> & tr' & sp' & -> & Hle). cbn beta iota.
    apply wp_bind. eapply wp_mono.
    + apply (IH rounds (Memory (delete l h) nx tl)); [done|lia|simpl in Hr; lia].
    + intros rest s' (-> & tr'' & sp'' & -> & Hle'). apply wp_ret.
      split; [done|]. exists tr'', sp''. split; [|simpl in *; lia].
      cbn [heap head_ tail_ length].
      rewrite (stack_nodes_cons _ _ _ _ _ Hl). simpl.
      by rewrite delete_foldr_delete.
Qed.

End Exact.

(** X1.  On the stack of 04_atomic_operations.cpp a [push] followed at
    once by a [pop] of the same thread returns a [unique_ptr] that owns an
    object holding the element pushed; the node has been allocated and
    freed again, [head_] is back at its old value, and the memory differs
    from the one before the [push] by that object alone.  Once the caller
    has read the element and the [unique_ptr] is destroyed ([pop_value]),
    the memory is exactly what it was.  This holds for any memory, whatever
    [head_] points at, and for any spurious failures of the weak exchanges
    the fuel covers. *)
Theorem push_then_pop_restores_the_memory {T} (fuel : nat) (v : T)
    (m : memory T) (tr : list event) (sp : list bool) :
  length sp < fuel →
  (∃ b tr' sp',
     heap m !! b = None ∧
     (_ ← atomic_operations_04.LockFreeStack.push fuel v;
      atomic_operations_04.LockFreeStack.pop fuel) (St m tr sp) =
     Done (Some b)
       (St (Memory (<[b := Box v]> (heap m)) (head_ m) (tail_ m)) tr' sp')) ∧
  (∃ tr' sp',
     (_ ← atomic_operations_04.LockFreeStack.push fuel v;
      atomic_operations_04.LockFreeStack.pop_value fuel) (St m tr sp) =
     Done (Some v) (St m tr' sp')).
Proof.
  intros Hf. split.
  - assert (wp (_ ← atomic_operations_04.LockFreeStack.push fuel v;
                atomic_operations_04.LockFreeStack.pop fuel) (St m tr sp)
              (λ out s', ∃ b tr' sp', heap m !! b = None ∧ out = Some b ∧
                 s' = St (Memory (<[b := Box v]> (heap m)) (head_ m) (tail_ m))
                         tr' sp'))
      as Hwp.
    { apply wp_bind. eapply wp_mono; [by apply mt_push_exact|].
      intros _ s1 (l & b & tr1 & sp1 & Hl & Hb & Hne & -> & Hle).
      eapply wp_mono.
      - eapply mt_pop_exact; simpl; [lia|done|by rewrite lookup_insert_eq].
      - intros out s' (-> & tr' & sp' & -> & _). simpl.
        exists b, tr', sp'. split_and!; [done|done|].
        rewrite delete_insert_id; [done|]. by rewrite lookup_insert_ne. }
    apply wp_Done in Hwp as (out & s' & Hrun & b & tr' & sp' & Hb & -> & ->).
    eauto.
  - assert (wp (_ ← atomic_operations_04.LockFreeStack.push fuel v;
                atomic_operations_04.LockFreeStack.pop_value fuel)
              (St m tr sp)
              (λ out s', out = Some v ∧ ∃ tr' sp', s' = St m tr' sp'))
      as Hwp.
    { apply wp_bind. eapply wp_mono; [by apply mt_push_exact|].
      intros _ s1 (l & b & tr1 & sp1 & Hl & Hb & Hne & -> & Hle).
      eapply wp_mono.
      - eapply mt_pop_value_exact; simpl; [lia|done|by rewrite lookup_insert_eq|].
        rewrite lookup_insert_ne, lookup_insert_eq by done. done.
      - intros out s' (-> & tr' & sp' & -> & _). split; [done|]. simpl.
        rewrite delete_insert_id.
        + rewrite delete_insert_id by done. destruct m; eauto.
        + by rewrite lookup_insert_ne. }
    apply wp_Done in Hwp as (out & s' & Hrun & -> & tr' & sp' & ->). eauto.
Qed.

Lemma push_then_pop_restores_the_memory_witness :
  length [true; false; true] < 4 ∧
  (∃ b tr' sp',
     heap mt_one !! b = None ∧
     (_ ← atomic_operations_04.LockFreeStack.push 4 8%Z;
      atomic_operations_04.LockFreeStack.pop 4)
       (St mt_one [] [true; false; true]) =
     Done (Some b)
       (St (Memory (<[b := Box 8%Z]> (heap mt_one)) (head_ mt_one)
                   (tail_ mt_one)) tr' sp')) ∧
  (∃ tr' sp',
     (_ ← atomic_operations_04.LockFreeStack.push 4 8%Z;
      atomic_operations_04.LockFreeStack.pop_value 4)
       (St mt_one [] [true; false; true]) =
     Done (Some 8%Z) (St mt_one tr' sp')).
Proof.
  split; [simpl; lia|].
  apply (push_then_pop_restores_the_memory 4 8%Z mt_one []
           [true; false; true]).
  simpl; lia.
Defined.

(** X2.  The loop [while (stack.pop(value))] of
    [demonstrateLockFreeDataStructures] on the stack of atomic.cpp: when
    the stack holds [xs], the calls of [pop] return true with the elements
    of [xs], the top one first, and then false.  Afterwards [head_] is
    null, every node of the stack has been deleted and nothing else on the
    heap has changed. *)
Theorem stack_drain_is_lifo {T} (xs : list T) (value : T)
    (fuel rounds : nat) (m : memory T) (tr : list event) (sp : list bool) :
  stack_rep m xs → length sp < fuel → length xs < rounds →
  ∃ s', drain (atomic_cpp.LockFreeStack.pop fuel) rounds value (St m tr sp) =
        Done xs s' ∧
        mem s' = Memory (foldr delete (heap m)
                           (stack_nodes (length xs) (heap m) (head_ m)))
                        None (tail_ m) ∧
        length (stack_nodes (length xs) (heap m) (head_ m)) = length xs.
Proof.
  intros Hrep Hf Hr.
  destruct (proj1 (wp_Done _ _ _)
              (ipc_drain_exact fuel xs rounds m tr sp value Hrep Hf Hr))
    as (out & s' & Hrun & -> & tr' & sp' & -> & _).
  exists (St (Memory (foldr delete (heap m)
                        (stack_nodes (length xs) (heap m) (head_ m)))
                     None (tail_ m)) tr' sp').
  split_and!; [done|done|]. by apply stack_nodes_length.
Qed.

Lemma stack_three_rep : stack_rep stack_three [3; 2; 1]%Z.
Proof.
  exists 3%positive, (Some 2%positive).
  split; [reflexivity|]. split; [vm_compute; reflexivity|].
  exists 2%positive, (Some 1%positive).
  split; [reflexivity|]. split; [vm_compute; reflexivity|].
  exists 1%positive, None.
  split; [reflexivity|]. split; [vm_compute; reflexivity|]. reflexivity.
Qed.

Lemma stack_drain_is_lifo_witness :
  stack_rep stack_three [3; 2; 1]%Z ∧ length [true; false; true] < 4 ∧
  length [3; 2; 1]%Z < 4 ∧
  ∃ s', drain (atomic_cpp.LockFreeStack.pop 4) 4 0%Z
          (St stack_three [] [true; false; true]) = Done [3; 2; 1]%Z s' ∧
        mem s' = Memory (foldr delete (heap stack_three)
                           (stack_nodes (length [3; 2; 1]%Z) (heap stack_three)
                              (head_ stack_three)))
                        None (tail_ stack_three) ∧
        length (stack_nodes (length [3; 2; 1]%Z) (heap stack_three)
                  (head_ stack_three)) = length [3; 2; 1]%Z.
Proof.
  split; [exact stack_three_rep|]. split; [simpl; lia|]. split; [simpl; lia|].
  apply (stack_drain_is_lifo [3; 2; 1]%Z 0%Z 4 4 stack_three []
           [true; false; true] stack_three_rep); simpl; lia.
Defined.

Section QueueDrain.
Context {T : Type}.

(** [while (queue.dequeue(value)) {}] on a queue with the head node [hd]
    and the cells [cells]. *)
Lemma queue_drain_from fuel n : ∀ (cells : list (@slot T)) rounds
    (m : memory T) hd tr sp value,
  queue_shape m hd cells → length sp ≤ n → n + 1 < fuel →
  length cells < rounds →
  wp (drain (atomic_cpp.LockFreeQueue.dequeue fuel) rounds value) (St m tr sp)
     (λ out s', out = slot_value <$> cells ∧
        settled (length sp)
          (λ m', queue_shape m' (default hd (last (slot_node <$> cells))) []) s').
Proof.
  induction cells as [|c cells IH]; intros rounds m hd tr sp value Hshape Hn Hf Hr;
    (destruct rounds as [|rounds]; [simpl in Hr; lia|]); simpl drain.
  - pose proof Hshape as (pre & t & suf & Hat).
    assert (length sp + length suf < fuel) as Hf'.
    { destruct Hat as (_ & _ & _ & _ & _ & ? & _). lia. }
    apply wp_bind. eapply wp_mono; [by eapply dequeue_spec_at|].
    intros out s' (-> & tr' & ->). apply wp_ret. split; [done|].
    exists m, tr', sp. done.
  - destruct Hshape as (pre & t & suf & Hat).
    assert (length sp + length suf < fuel) as Hf'.
    { destruct Hat as (_ & _ & _ & _ & _ & ? & _). lia. }
    apply wp_bind. eapply wp_mono; [by eapply dequeue_spec_at|].
    intros out s' (-> & m' & tr' & sp' & -> & Hle & Hshape'). cbn beta iota.
    apply wp_bind. eapply wp_mono.
    + eapply (IH rounds m' (slot_node c)); [done|lia|done|simpl in Hr; lia].
    + intros rest s' (-> & Hs'). apply wp_ret. split; [done|].
      eapply settled_mono; [exact Hs'|lia|].
      intros m''. rewrite fmap_cons, last_cons.
      by destruct (last (slot_node <$> cells)).
Qed.

End QueueDrain.

(** X3.  The loop [while (queue.dequeue(value))] of
    [demonstrateLockFreeDataStructures]: when the queue has the head node
    [hd] and holds the elements of [cells], the calls of [dequeue] return
    true with these elements, the oldest one first, and then false.
    Afterwards the queue is empty and well-formed, and its head node is the
    node of the element that was dequeued last ([hd] itself when there was
    none). *)
Theorem queue_drain_is_fifo {T} (cells : list slot) (hd : loc) (value : T)
    (fuel rounds : nat) (m : memory T) (tr : list event) (sp : list bool) :
  queue_shape m hd cells → length sp + 1 < fuel → length cells < rounds →
  ∃ s', drain (atomic_cpp.LockFreeQueue.dequeue fuel) rounds value
          (St m tr sp) = Done (slot_value <$> cells) s' ∧
        queue_shape (mem s') (default hd (last (slot_node <$> cells))) [].
Proof.
  intros Hshape Hf Hr.
  destruct (proj1 (wp_Done _ _ _)
              (queue_drain_from fuel (length sp) cells rounds m hd tr sp value
                 Hshape ltac:(lia) Hf Hr))
    as (out & s' & Hrun & -> & m' & tr' & sp' & -> & _ & Hshape').
  eauto.
Qed.

Lemma queue_two_shape :
  queue_shape queue_two 1%positive [Slot 2 3 5%Z; Slot 4 5 6%Z].
Proof.
  exists [1%positive; 2%positive], 4%positive, []. split_and!.
  - reflexivity.
  - apply (bool_decide_unpack _). vm_compute. exact I.
  - split; [exists None; vm_compute; reflexivity|].
    split; [exists (Some 3%positive); vm_compute; reflexivity|].
    exists (Some 5%positive); vm_compute; reflexivity.
  - apply Forall_cons. split; [split; [eexists|]; vm_compute; reflexivity|].
    apply Forall_singleton. split; [eexists|]; vm_compute; reflexivity.
  - reflexivity.
  - simpl. lia.
  - reflexivity.
Qed.

Lemma queue_drain_is_fifo_witness :
  queue_shape queue_two 1%positive [Slot 2 3 5%Z; Slot 4 5 6%Z] ∧
  length [true] + 1 < 3 ∧
  length [Slot 2 3 5%Z; Slot 4 5 6%Z] < 3 ∧
  ∃ s', drain (atomic_cpp.LockFreeQueue.dequeue 3) 3 0%Z
          (St queue_two [] [true]) =
        Done (slot_value <$> [Slot 2 3 5%Z; Slot 4 5 6%Z]) s' ∧
        queue_shape (mem s')
          (default 1%positive (last (slot_node <$> [Slot 2 3 5%Z; Slot 4 5 6%Z]))) [].
Proof.
  split; [exact queue_two_shape|]. split; [simpl; lia|]. split; [simpl; lia|].
  apply (queue_drain_is_fifo [Slot 2 3 5%Z; Slot 4 5 6%Z] 1%positive 0%Z 3 3
           queue_two [] [true] queue_two_shape); simpl; lia.
Defined.

Section Destructors.
Context {T : Type}.

Lemma queue_destroy_spec : ∀ (ns : list loc) fuel (h : gmap positive (object T))
    hd tl tr sp,
  linked h hd ns → NoDup (hd :: ns) → S (length ns) < fuel →
  wp (atomic_cpp.LockFreeQueue.destroy fuel) (St (Memory h (Some hd) tl) tr sp)
     (λ _ s', ∃ h' tr', s' = St (Memory h' None tl) tr' sp ∧
        ∀ i, h' !! i = if decide (i ∈ hd :: ns) then None else h !! i).
Proof.
  induction ns as [|n ns IH]; intros fuel h hd tl tr sp Hl Hnd Hf;
    (destruct fuel as [|fuel]; [simpl in Hf; lia|]); simpl in Hl.
  - destruct Hl as [d Hd].
    apply wp_bind. eapply wp_load; [done|]. cbn beta iota.
    apply wp_bind. eapply wp_load; [by simpl; rewrite Hd|].
    apply wp_bind. eapply wp_store; [done|]. simpl.
    apply wp_bind. eapply wp_delete; [simpl; eauto|]. simpl.
    destruct fuel as [|fuel]; [simpl in Hf; lia|]. simpl.
    apply wp_bind. eapply wp_load; [done|]. apply wp_ret.
    eexists _, _. split; [done|]. intros i.
    case_decide as Hi.
    + apply list_elem_of_singleton in Hi as ->. apply lookup_delete_eq.
    + rewrite lookup_delete_ne; [done|]. intros ->. apply Hi. left.
  - destruct Hl as [[d Hd] Hl].
    apply NoDup_cons in Hnd as [Hhd Hnd].
    apply wp_bind. eapply wp_load; [done|]. cbn beta iota.
    apply wp_bind. eapply wp_load; [by simpl; rewrite Hd|].
    apply wp_bind. eapply wp_store; [done|]. simpl.
    apply wp_bind. eapply wp_delete; [simpl; eauto|]. simpl.
    eapply wp_mono.
    + apply (IH fuel (delete hd h)); [|done|simpl in Hf; lia].
      eapply linked_ext; [exact Hl|]. intros i Hi.
      rewrite lookup_delete_ne; [done|]. by intros ->.
    + intros _ s' (h' & tr' & -> & Hh'). eexists h', _. split; [done|].
      intros i. rewrite Hh'.
      destruct (decide (i = hd)) as [->|Hne].
      * rewrite decide_False by done. rewrite lookup_delete_eq.
        rewrite decide_True by left. done.
      * rewrite lookup_delete_ne by done.
        case_decide as Hi.
        -- rewrite decide_True; [done|]. by right.
        -- rewrite decide_False; [done|].
           rewrite elem_of_cons. by intros [?|?].
Qed.

End Destructors.

Section Aba.
Import atomic_operations_04.ABAProneStack.

Lemma aba_push_loop_spec fuel : ∀ (m : memory Z) tr sp nn d nx0 xs,
  length sp < fuel →
  heap m !! nn = Some (VNode d nx0) →
  chain (delete nn (heap m)) (head_ m) xs →
  wp (push_loop fuel nn (head_ m)) (St m tr sp)
     (λ _, settled (length sp) (λ m', stack_rep m' (d :: xs))).
Proof.
  induction fuel as [|fuel IH]; intros m tr sp nn d nx0 xs Hf Hnn Hch; [lia|].
  destruct m as [h hd tl]; simpl in *.
  apply wp_bind. eapply wp_store; [by simpl; rewrite Hnn|].
  apply wp_bind. apply wp_cas_weak; [done|..].
  - intros sp' ->. simpl in *.
    eapply wp_mono.
    + apply (IH (Memory (<[nn:=VNode d hd]> h) hd tl) _ sp' nn d hd xs);
        simpl; [lia|by rewrite lookup_insert_eq|by rewrite delete_insert_eq].
    + intros _ s' (m' & tr' & sp'' & -> & Hle & Hrep).
      exists m', tr', sp''. split_and!; [done|lia|done].
  - intros _. eexists. split; [done|]. apply wp_ret.
    eexists _, _, _. split_and!; [done|..].
    + destruct sp; simpl; lia.
    + exists nn, hd. simpl. rewrite lookup_insert_eq, delete_insert_eq. done.
Qed.

Lemma aba_push_spec fuel (m : memory Z) tr sp d xs :
  length sp < fuel →
  stack_rep m xs →
  wp (push fuel d) (St m tr sp)
     (λ _, settled (length sp) (λ m', stack_rep m' (d :: xs))).
Proof.
  intros Hf Hrep. destruct m as [h hd tl]; unfold stack_rep in *; simpl in *.
  apply wp_bind, wp_new. intros l Hl. simpl.
  apply wp_bind. eapply wp_load; [done|]. simpl.
  apply (aba_push_loop_spec fuel (Memory (<[l:=VNode d None]> h) hd tl)
           _ sp l d None xs); simpl; [done|by rewrite lookup_insert_eq|].
  by rewrite delete_insert_id.
Qed.

Lemma aba_pop_exact (m : memory Z) tr sp r l x nx :
  head_ m = Some l →
  heap m !! l = Some (VNode x nx) →
  wp (pop r) (St m tr sp)
     (λ out s', out = (true, x) ∧
        ∃ tr', s' = St (Memory (delete l (heap m)) nx (tail_ m)) tr' sp).
Proof.
  intros Hhd Hl. destruct m as [h hd tl]; simpl in *. subst hd.
  apply wp_bind. eapply wp_load; [done|].
  apply wp_bind. eapply wp_load; [by simpl; rewrite Hl|].
  apply wp_bind. eapply wp_cas_strong; [done|done|].
  apply wp_bind. eapply wp_read_value; [left; simpl; eauto|].
  apply wp_bind. eapply wp_delete; [simpl; eauto|]. simpl.
  apply wp_ret. split; [done|]. eauto.
Qed.

Lemma aba_destroy_spec : ∀ (xs : list Z) fuel (m : memory Z) tr sp dummy,
  stack_rep m xs → length xs < fuel →
  wp (atomic_operations_04.ABAProneStack.destroy fuel dummy) (St m tr sp)
     (λ _ s', ∃ tr',
        s' = St (Memory (foldr delete (heap m)
                           (stack_nodes (length xs) (heap m) (head_ m)))
                        None (tail_ m)) tr' sp).
Proof.
  induction xs as [|x xs IH]; intros fuel m tr sp dummy Hrep Hf;
    (destruct fuel as [|fuel]; [simpl in Hf; lia|]); simpl destroy.
  - apply wp_bind. eapply wp_mono; [by apply aba_pop_spec_nil|].
    intros out s' (-> & tr' & ->). apply wp_ret.
    destruct m as [h hd tl]; unfold stack_rep in Hrep; simpl in *. subst hd.
    eexists. done.
  - destruct m as [h hd tl]; unfold stack_rep in Hrep; simpl in Hrep.
    destruct Hrep as (l & nx & -> & Hl & Hch).
    apply wp_bind. eapply wp_mono; [by eapply aba_pop_exact|].
    intros out s' (-> & tr' & ->). cbn beta iota.
    eapply wp_mono;
      [apply (IH fuel (Memory (delete l h) nx tl)); [done|simpl in Hf; lia]|].
    intros _ s' (tr'' & ->). eexists.
    cbn [heap head_ tail_ length].
    rewrite (stack_nodes_cons _ _ _ _ _ Hl). simpl.
    by rewrite delete_foldr_delete.
Qed.

Lemma aba_fill_drain_from (items xs : list Z) fuel rounds value
    (m : memory Z) tr sp :
  stack_rep m xs → length sp < fuel → length items + length xs < rounds →
  wp (_ ← for_each (push fuel) items; drain pop rounds value) (St m tr sp)
     (λ out s', out = rev items ++ xs ∧
                settled (length sp) (λ m', stack_rep m' []) s').
Proof.
  intros Hrep0 Hf Hr.
  eapply (wp_then _ _ _ _ (λ _, True)).
  - eapply wp_mono.
    + apply (for_each_spec (λ xs m, stack_rep m xs) (λ acc v, v :: acc)
               _ (length sp)) with (xs := xs); [|lia|done].
      intros m' tr' sp' xs' v Hle Hrep. apply aba_push_spec; [lia|done].
    + intros a s' Hs'. split; [done|exact Hs'].
  - intros _ m' tr' sp' _ Hle Hrep. rewrite foldl_cons_rev in Hrep.
    eapply wp_mono.
    + apply (drain_spec (λ xs m, stack_rep m xs) _ (length sp));
        [| |by rewrite length_app, length_rev|lia|done].
      * intros m'' tr'' sp'' r Hle' Hrep'.
        eapply wp_mono; [by apply aba_pop_spec_nil|].
        intros out s' (-> & tr3 & ->). split; [done|].
        exists m'', tr3, sp''. done.
      * intros m'' tr'' sp'' r x xs' Hle' Hrep'.
        by apply aba_pop_spec_cons.
    + intros out s' [-> Hs']. split; [done|].
      eapply settled_mono; [exact Hs'|lia|done].
Qed.

End Aba.

(** X5.  [~LockFreeQueue()] frees the head node and the node of every
    element still in the queue, and nothing else: the object [data] points
    at, made by [new T] in [enqueue], stays allocated for every such
    element (it is leaked), and [tail_] is left pointing at a freed
    node. *)
Theorem queue_destructor_leaks_the_elements {T} (fuel : nat) (m : memory T)
    (hd : loc) (cells : list slot) (tr : list event) (sp : list bool) :
  queue_shape m hd cells → S (length cells) < fuel →
  ∃ h' tr',
    atomic_cpp.LockFreeQueue.destroy fuel (St m tr sp) =
      Done tt (St (Memory h' None (tail_ m)) tr' sp) ∧
    (∀ i, h' !! i = if decide (i ∈ hd :: map slot_node cells) then None
                    else heap m !! i) ∧
    Forall (λ c, h' !! slot_box c = Some (Box (slot_value c))) cells ∧
    (∃ t, tail_ m = Some t ∧ h' !! t = None).
Proof.
  intros (pre & t & suf & Hhd & Hnd & Hl & Hfill & Hsplit & _ & Htl) Hf.
  destruct m as [h hd' tl]; simpl in *. subst hd' tl.
  assert (NoDup (hd :: map slot_node cells)) as Hnd'.
  { unfold footprint in Hnd. rewrite app_comm_cons in Hnd.
    by apply NoDup_app in Hnd as (? & _ & _). }
  destruct (proj1 (wp_Done _ _ _)
              (queue_destroy_spec (map slot_node cells) fuel h hd (Some t) tr sp
                 Hl Hnd' ltac:(by rewrite length_map)))
    as ([] & s' & Hrun & h' & tr' & -> & Hh').
  exists h', tr'. split_and!; [done|done| |].
  - apply Forall_forall. intros c Hc.
    rewrite Hh'. rewrite decide_False.
    + rewrite Forall_forall in Hfill. by destruct (Hfill c Hc) as [_ ?].
    + intros Hin. unfold footprint in Hnd. rewrite app_comm_cons in Hnd.
      apply NoDup_app in Hnd as (_ & Hdis & _).
      apply (Hdis _ Hin). apply list_elem_of_fmap. eauto.
  - exists t. split; [done|]. rewrite Hh', decide_True; [done|].
    rewrite Hsplit. apply elem_of_app. right. left.
Qed.

Lemma queue_destructor_leaks_the_elements_witness :
  queue_shape queue_one 1%positive [Slot 2 3 5%Z] ∧
  S (length [Slot 2 3 5%Z]) < 3 ∧
  ∃ h' tr',
    atomic_cpp.LockFreeQueue.destroy 3 (St queue_one [] []) =
      Done tt (St (Memory h' None (tail_ queue_one)) tr' []) ∧
    (∀ i, h' !! i =
          if decide (i ∈ 1%positive :: map slot_node [Slot 2 3 5%Z]) then None
          else heap queue_one !! i) ∧
    Forall (λ c, h' !! slot_box c = Some (Box (slot_value c))) [Slot 2 3 5%Z] ∧
    (∃ t, tail_ queue_one = Some t ∧ h' !! t = None).
Proof.
  split; [exact queue_one_shape|]. split; [simpl; lia|].
  apply (queue_destructor_leaks_the_elements 3 queue_one 1%positive
           [Slot 2 3 5%Z] [] [] queue_one_shape).
  simpl; lia.
Defined.

Lemma aba_three_rep : stack_rep aba_three [3; 2; 1]%Z.
Proof.
  exists 3%positive, (Some 2%positive).
  split; [reflexivity|]. split; [vm_compute; reflexivity|].
  exists 2%positive, (Some 1%positive).
  split; [reflexivity|]. split; [vm_compute; reflexivity|].
  exists 1%positive, None.
  split; [reflexivity|]. split; [vm_compute; reflexivity|]. reflexivity.
Qed.

(** X6.  [ABAProneStack] used by one thread is a stack: with [xs] on it,
    pushing [items] and then popping until [pop] returns false yields the
    items in reverse order, followed by [xs]. *)
Theorem aba_stack_is_lifo (items xs : list Z) (value : Z) (fuel rounds : nat)
    (m : memory Z) (tr : list event) (sp : list bool) :
  stack_rep m xs → length sp < fuel → length items + length xs < rounds →
  ∃ s', (_ ← for_each (atomic_operations_04.ABAProneStack.push fuel) items;
         drain atomic_operations_04.ABAProneStack.pop rounds value)
          (St m tr sp) = Done (rev items ++ xs) s' ∧
        stack_rep (mem s') [].
Proof.
  intros Hrep Hf Hr.
  destruct (proj1 (wp_Done _ _ _)
              (aba_fill_drain_from items xs fuel rounds value m tr sp Hrep Hf Hr))
    as (out & s' & Hrun & -> & m' & tr' & sp' & -> & _ & Hrep').
  eauto.
Qed.

Lemma aba_stack_is_lifo_witness :
  stack_rep aba_three [3; 2; 1]%Z ∧ length [true] < 2 ∧
  length [4; 5]%Z + length [3; 2; 1]%Z < 6 ∧
  ∃ s', (_ ← for_each (atomic_operations_04.ABAProneStack.push 2) [4; 5]%Z;
         drain atomic_operations_04.ABAProneStack.pop 6 0%Z)
          (St aba_three [] [true]) = Done (rev [4; 5]%Z ++ [3; 2; 1]%Z) s' ∧
        stack_rep (mem s') [].
Proof.
  split; [exact aba_three_rep|]. split; [simpl; lia|]. split; [simpl; lia|].
  apply (aba_stack_is_lifo [4; 5]%Z [3; 2; 1]%Z 0%Z 2 6 aba_three [] [true]
           aba_three_rep); simpl; lia.
Defined.

(** X7.  [~ABAProneStack()], which pops until [pop] returns false, run on
    a stack of [n] elements: it returns, [head_] is null afterwards, and
    the heap is the heap before without the [n] nodes of the stack; these
    are freed and no other object is touched. *)
Theorem aba_destructor_frees_every_node (fuel : nat) (dummy : Z)
    (m : memory Z) (xs : list Z) (tr : list event) (sp : list bool) :
  stack_rep m xs → length xs < fuel →
  ∃ tr',
    atomic_operations_04.ABAProneStack.destroy fuel dummy (St m tr sp) =
      Done tt (St (Memory (foldr delete (heap m)
                             (stack_nodes (length xs) (heap m) (head_ m)))
                          None (tail_ m)) tr' sp) ∧
    length (stack_nodes (length xs) (heap m) (head_ m)) = length xs.
Proof.
  intros Hrep Hf.
  destruct (proj1 (wp_Done _ _ _)
              (aba_destroy_spec xs fuel m tr sp dummy Hrep Hf))
    as ([] & s' & Hrun & tr' & ->).
  exists tr'. split; [done|]. by apply stack_nodes_length.
Qed.

Lemma aba_destructor_frees_every_node_witness :
  stack_rep aba_three [3; 2; 1]%Z ∧ length [3; 2; 1]%Z < 4 ∧
  ∃ tr',
    atomic_operations_04.ABAProneStack.destroy 4 0%Z (St aba_three [] []) =
      Done tt (St (Memory (foldr delete (heap aba_three)
                             (stack_nodes (length [3; 2; 1]%Z) (heap aba_three)
                                (head_ aba_three)))
                          None (tail_ aba_three)) tr' []) ∧
    length (stack_nodes (length [3; 2; 1]%Z) (heap aba_three)
              (head_ aba_three)) = length [3; 2; 1]%Z.
Proof.
  split; [exact aba_three_rep|]. split; [simpl; lia|].
  apply (aba_destructor_frees_every_node 4 0%Z aba_three [3; 2; 1]%Z [] []
           aba_three_rep).
  simpl; lia.
Defined.

(** X8.  The ABA problem of [ABAProneStack::pop].  The call has loaded
    [head_] (the node [l]) and [l->next] (the value [nx]); before its
    exchange the other threads change the stack so that [head_] is again a
    node at the address [l], now with the element [d] and the successor
    [nx'].  Then the exchange succeeds, the call returns true with [d], and
    [head_] is set to the old [nx], whatever [nx'] is. *)
Theorem aba_pop_installs_a_stale_next (r x d : Z) (m : memory Z)
    (tr : list event) (oom sp : list bool) (l : loc) (nx nx' : ptr)
    (f : memory Z → memory Z) :
  head_ m = Some l → heap m !! l = Some (VNode x nx) →
  head_ (f m) = Some l → heap (f m) !! l = Some (VNode d nx') →
  ∃ tr',
    atomic_operations_04.ABAProneStack.pop r
      (State m tr (Oracle oom sp [id; id; f])) =
    Done (true, d)
      (State (Memory (delete l (heap (f m))) nx (tail_ (f m))) tr'
             (Oracle oom sp [])).
Proof.
  intros Hhd Hl Hhd' Hl'.
  unfold atomic_operations_04.ABAProneStack.pop, load, compare_exchange_strong,
    read_value, delete_, mbind, M_bind, bind, interleave, get_cell, set_cell,
    get_value, free_cell, log, tick; simpl.
  rewrite Hhd. simpl. rewrite Hl. simpl. rewrite Hhd'.
  rewrite decide_True by done. simpl. rewrite Hl'. simpl. rewrite Hl'. simpl.
  eexists. reflexivity.
Qed.

Lemma aba_pop_installs_a_stale_next_witness :
  ∃ s',
    atomic_operations_04.ABAProneStack.pop 0%Z
      (State aba_three [] (Oracle [] [] [id; id; aba_recycle])) =
      Done (true, 9%Z) s' ∧
    head_ (mem s') = Some 2%positive ∧
    heap (mem s') !! 2%positive = Some (Box 0%Z) ∧
    atomic_operations_04.ABAProneStack.pop 0%Z s' = Undefined.
Proof.
  destruct (aba_pop_installs_a_stale_next 0%Z 3%Z 9%Z aba_three [] [] []
              3%positive (Some 2%positive) (Some 1%positive) aba_recycle
              ltac:(vm_compute; reflexivity) ltac:(vm_compute; reflexivity)
              ltac:(vm_compute; reflexivity) ltac:(vm_compute; reflexivity))
    as [tr' Hrun].
  eexists. split; [exact Hrun|]. split_and!; vm_compute; reflexivity.
Defined.

(** ** The stack of 04_atomic_operations.cpp as a list; allocation failure;
    the invariant of the queue *)

(** X23.  The stack of 04_atomic_operations.cpp, used by one thread, is a
    stack: whatever elements [xs] it holds and whatever calls of [push],
    [pop] and [empty] follow, every call returns, the caller observes what
    a list used as a stack shows (a null [unique_ptr] for a [pop] on the
    empty stack), and in the end the stack holds what that list holds.
    Weak exchanges may fail spuriously as [sp] says. *)
Theorem stack_04_behaves_as_a_list {T} (cs : list (call (T:=T)))
    (xs : list T) (fuel : nat) (m : memory T) (tr : list event)
    (sp : list bool) :
  pstack_rep m xs → length sp < fuel →
  ∃ s', run_calls (mt_call fuel) cs (St m tr sp) = Done (model_run cs xs) s' ∧
        pstack_rep (mem s') (model_end cs xs).
Proof.
  intros Hrep Hf.
  destruct (proj1 (wp_Done _ _ _)
              (run_calls_spec (λ xs m, pstack_rep m xs) (mt_call fuel)
                 (length sp)
                 (λ c m tr sp xs HI Hle,
                    mt_call_spec fuel c m tr sp xs HI ltac:(lia))
                 cs m tr sp xs Hrep ltac:(lia)))
    as (os & s' & Hrun & -> & m' & tr' & sp' & -> & _ & Hrep').
  eauto.
Qed.

Lemma mt_one_rep : pstack_rep mt_one [7%Z].
Proof.
  exists 1%positive, 2%positive, None.
  split_and!; [reflexivity|vm_compute; reflexivity|vm_compute; reflexivity|].
  reflexivity.
Qed.

Lemma stack_04_behaves_as_a_list_witness :
  pstack_rep mt_one [7%Z] ∧ length [false; true] < 3 ∧
  ∃ s',
    run_calls (mt_call 3) [Empty; Push 4%Z; Push 5%Z; Pop; Empty; Pop; Pop; Pop]
      (St mt_one [] [false; true]) =
      Done (model_run [Empty; Push 4%Z; Push 5%Z; Pop; Empty; Pop; Pop; Pop]
              [7%Z]) s' ∧
    pstack_rep (mem s')
      (model_end [Empty; Push 4%Z; Push 5%Z; Pop; Empty; Pop; Pop; Pop] [7%Z]).
Proof.
  split; [exact mt_one_rep|]. split; [simpl; lia|].
  apply (stack_04_behaves_as_a_list
           [Empty; Push 4%Z; Push 5%Z; Pop; Empty; Pop; Pop; Pop] [7%Z] 3
           mt_one [] [false; true] mt_one_rep).
  simpl; lia.
Defined.

(** X24.  When the node or the element cannot be allocated in [push] of
    the stack of 04_atomic_operations.cpp ([k] is 0 or 1: the first or the
    second [new] throws), the call ends with that exception before it has
    touched [head_] or any object that was on the heap: the stack holds
    what it held.  When it is the first [new] that throws the memory is
    unchanged; when it is the second, the node allocated by the first stays
    on the heap, reachable from nowhere. *)
Theorem failed_allocation_leaves_the_stack {T} (fuel : nat) (item : T)
    (s : state T) (k : nat) (later : list bool) :
  oom (orc s) = replicate k false ++ true :: later → k < 2 →
  ∃ s', atomic_operations_04.LockFreeStack.push fuel item s = Thrown s' ∧
        preserved s s' ∧
        (∀ xs, pstack_rep (mem s) xs → pstack_rep (mem s') xs) ∧
        heap (mem s') =
          (if decide (k = 0) then heap (mem s)
           else <[fresh (dom (heap (mem s))) := PNode None None]>
                  (heap (mem s))).
Proof.
  intros Ho Hk.
  assert (∃ s', atomic_operations_04.LockFreeStack.push fuel item s = Thrown s' ∧
                preserved s s' ∧
                heap (mem s') =
                  (if decide (k = 0) then heap (mem s)
                   else <[fresh (dom (heap (mem s))) := PNode None None]>
                          (heap (mem s)))) as (s' & Hrun & Hpres & Hheap).
  { unfold atomic_operations_04.LockFreeStack.push.
    destruct k as [|[|k]]; [| |lia]; simpl in Ho.
    - match goal with
      | |- ∃ s', (new_ ?o ≫= ?k) s = _ ∧ _ =>
          destruct (first_new_throws o k s later Ho) as (s' & Hrun & Hmem)
      end.
      exists s'. split_and!; [exact Hrun|by apply preserved_refl|].
      by rewrite Hmem.
    - unfold mbind, M_bind, bind, new_. rewrite Ho. simpl.
      eexists. split_and!; [reflexivity| |reflexivity].
      split_and!; simpl; [done|done|].
      apply insert_subseteq, not_elem_of_dom, is_fresh. }
  exists s'. split_and!; [done|done| |done].
  destruct Hpres as (Hh & Ht & Hsub). intros xs Hrep.
  unfold pstack_rep in *. rewrite Hh. by eapply pchain_mono.
Qed.

Lemma failed_allocation_leaves_the_stack_witness :
  oom (orc (State mt_one [] (Oracle [false; true] [] []))) =
    replicate 1 false ++ true :: [] ∧
  1 < 2 ∧
  ∃ s', atomic_operations_04.LockFreeStack.push 2 9%Z
          (State mt_one [] (Oracle [false; true] [] [])) = Thrown s' ∧
        preserved (State mt_one [] (Oracle [false; true] [] [])) s' ∧
        (∀ xs, pstack_rep mt_one xs → pstack_rep (mem s') xs) ∧
        heap (mem s') =
          (if decide (1 = 0) then heap mt_one
           else <[fresh (dom (heap mt_one)) := PNode None None]> (heap mt_one)).
Proof.
  split_and!; [reflexivity|lia|].
  apply (failed_allocation_leaves_the_stack 2 9%Z
           (State mt_one [] (Oracle [false; true] [] [])) 1 [] eq_refl).
  lia.
Defined.

(** X25.  The queue always has a node.  In whatever state they run, the
    constructor and [dequeue] never put null into [head_] or [tail_].  The
    constructor leaves [head_] and [tail_] on one dummy node with no
    element behind it.  Running alone on a queue whose head node is [hd]
    and whose elements sit in [cells], [dequeue] on no cell returns false
    and changes nothing, and on a first cell [c] returns its value and
    makes the node of [c], now consumed, the head node.  In every such
    state [head_] and [tail_] point at allocated nodes, and the [next] of
    the head node is the node of the first cell, or null when there is
    none. *)
Theorem constructor_and_dequeue_keep_a_node {T} (fuel : nat) (r : T)
    (m : memory T) (hd : loc) (cells : list slot) (tr : list event)
    (sp : list bool) :
  (emits (T:=T) keeps_ends_non_null atomic_cpp.LockFreeQueue.construct ∧
   emits keeps_ends_non_null (atomic_cpp.LockFreeQueue.dequeue fuel r)) ∧
  (∃ d (s' : state T),
     atomic_cpp.LockFreeQueue.construct
       (St atomic_cpp.LockFreeQueue.blank tr sp) = Done tt s' ∧
           heap (mem s') !! d = Some (PNode None None) ∧
           queue_shape (mem s') d []) ∧
  (queue_shape m hd cells → length sp + 1 < fuel →
   (∃ out s', atomic_cpp.LockFreeQueue.dequeue fuel r (St m tr sp) =
                Done out s' ∧
              match cells with
              | [] => out = (false, r) ∧ mem s' = m
              | c :: cells' =>
                  out = (true, slot_value c) ∧
                  queue_shape (mem s') (slot_node c) cells'
              end) ∧
   head_ m = Some hd ∧
   (∃ t, tail_ m = Some t ∧ is_Some (heap m !! t)) ∧
   (∃ d, heap m !! hd = Some (PNode d (slot_node <$> head cells))) ∧
   Forall (filled (heap m)) cells).
Proof.
  split; [|split].
  - split; [apply construct_non_null|apply dequeue_non_null].
  - destruct (proj1 (wp_Done _ _ _) (construct_spec (T:=T) tr sp))
      as ([] & s' & Hrun & d & tr' & -> & Hshape).
    eexists d, _. split_and!; [exact Hrun| |exact Hshape].
    simpl. by rewrite lookup_singleton_eq.
  - intros Hshape Hf. split_and!.
    + destruct Hshape as (pre & t & suf & Hat).
      assert (length sp + length suf < fuel) as Hf'.
      { destruct Hat as (_ & _ & _ & _ & _ & ? & _). lia. }
      destruct (proj1 (wp_Done _ _ _)
                  (dequeue_spec_at fuel m tr sp r hd cells pre t suf Hat Hf'))
        as (out & s' & Hrun & Hpost).
      exists out, s'. split; [exact Hrun|].
      destruct cells as [|c cells']; simpl in Hpost.
      * destruct Hpost as (-> & tr' & ->). done.
      * destruct Hpost as (-> & m' & tr' & sp' & -> & _ & Hshape'). done.
    + by destruct Hshape as (pre & t & suf & ? & _).
    + destruct Hshape as (pre & t & suf & Hat).
      exists t. split; [by destruct Hat as (_ & _ & _ & _ & _ & _ & ?)|].
      eapply footprint_allocated; [exact Hat|].
      by eapply tail_in_footprint.
    + destruct Hshape as (pre & t & suf & _ & _ & Hl & _).
      destruct cells as [|c cells']; simpl in *.
      * exact Hl.
      * by destruct Hl as [? _].
    + by destruct Hshape as (pre & t & suf & _ & _ & _ & ? & _).
Qed.

Lemma constructor_and_dequeue_keep_a_node_witness :
  queue_shape queue_one 1%positive [Slot 2 3 5%Z] ∧ length [true] + 1 < 3 ∧
  ∃ out s', atomic_cpp.LockFreeQueue.dequeue 3 0%Z (St queue_one [] [true]) =
              Done out s' ∧
            out = (true, 5%Z) ∧ queue_shape (mem s') 2%positive [].
Proof.
  split_and!; [exact queue_one_shape|simpl; lia|].
  apply (proj1 (proj2 (proj2 (constructor_and_dequeue_keep_a_node 3 0%Z
                  queue_one 1%positive [Slot 2 3 5%Z] [] [true]))
                  queue_one_shape ltac:(simpl; lia))).
Defined.

(** ** The stack of 04_atomic_operations.cpp among other threads *)

Section Contended.
Context {T : Type}.
Import atomic_operations_04.LockFreeStack.

Implicit Types (m : memory T) (en : list (memory T → memory T)).
Implicit Types (gs : list (list T → list T)) (own : list loc).

(** *** One access, with the step of the other threads before it *)

Lemma tick_after m tr oo sp en :
  tick (State m tr (Oracle oo sp en)) =
  State (after en m) tr (Oracle oo sp (tail en)).
Proof. by destruct en. Qed.

Lemma bind_Done {A B} (c : M T A) (k : A → M T B) s a s' :
  c s = Done a s' → (c ≫= k) s = k a s'.
Proof. intros Hc. unfold mbind, M_bind, bind. by rewrite Hc. Qed.

Lemma load_any c mo m tr oo sp en v :
  read_cell (after en m) c = Some v →
  load c mo (State m tr (Oracle oo sp en)) =
  Done v (State (after en m) (AtomicLoad c v mo :: tr) (Oracle oo sp (tail en))).
Proof.
  intros Hr. unfold load, mbind, M_bind, bind, interleave, get_cell, log.
  rewrite tick_after. simpl. rewrite Hr. reflexivity.
Qed.

Lemma store_any c v mo m m' tr oo sp en :
  write_cell (after en m) c v = Some m' →
  store c v mo (State m tr (Oracle oo sp en)) =
  Done tt (State m' (AtomicStore c v mo :: tr) (Oracle oo sp (tail en))).
Proof.
  intros Hw. unfold store, mbind, M_bind, bind, interleave, set_cell, log.
  rewrite tick_after. simpl. rewrite Hw. reflexivity.
Qed.

Lemma read_any c m tr oo sp en v :
  read_cell (after en m) c = Some v →
  read c (State m tr (Oracle oo sp en)) =
  Done v (State (after en m) (PlainRead c v :: tr) (Oracle oo sp (tail en))).
Proof.
  intros Hr. unfold read, mbind, M_bind, bind, interleave, get_cell, log.
  rewrite tick_after. simpl. rewrite Hr. reflexivity.
Qed.

Lemma write_any c v m m' tr oo sp en :
  write_cell (after en m) c v = Some m' →
  write c v (State m tr (Oracle oo sp en)) =
  Done tt (State m' (PlainWrite c v :: tr) (Oracle oo sp (tail en))).
Proof.
  intros Hw. unfold write, mbind, M_bind, bind, interleave, set_cell, log.
  rewrite tick_after. simpl. rewrite Hw. reflexivity.
Qed.


Lemma cas_weak_any c e d mo m m' tr oo sp en cur :
  read_cell (after en m) c = Some cur →
  write_cell (after en m) c d = Some m' →
  compare_exchange_weak c e d mo (State m tr (Oracle oo sp en)) =
  if decide (cur = e ∧ head sp ≠ Some true)
  then Done (true, e)
         (State m' (AtomicCas c e d cur true mo :: tr)
                (Oracle oo (tail sp) (tail en)))
  else Done (false, cur)
         (State (after en m) (AtomicCas c e d cur false mo :: tr)
                (Oracle oo (tail sp) (tail en))).
Proof.
  intros Hr Hw.
  unfold compare_exchange_weak, mbind, M_bind, bind, interleave, get_cell,
    next_spurious, set_cell, log.
  rewrite tick_after. simpl. rewrite Hr. simpl.
  destruct sp as [|[] sp]; simpl.
  - destruct (decide (cur = e)) as [->|Hne]; simpl.
    + rewrite Hw. rewrite decide_True by done. done.
    + rewrite decide_False by (by intros [? _]). done.
  - destruct (decide (cur = e)) as [->|Hne]; simpl.
    + rewrite decide_False by (by intros [_ ?]). done.
    + rewrite decide_False by (by intros [? _]). done.
  - destruct (decide (cur = e)) as [->|Hne]; simpl.
    + rewrite Hw. rewrite decide_True by done. done.
    + rewrite decide_False by (by intros [? _]). done.
Qed.

(** *** What the steps of the other threads add up to *)

Lemma effect_of_tail k gs (ys : list T) :
  effect_of k (tail gs) (effect_of 1 gs ys) = effect_of (S k) gs ys.
Proof. destruct gs as [|g gs]; unfold effect_of; simpl; [|done]. by rewrite take_nil. Qed.

Lemma effect_of_0 gs (ys : list T) : effect_of 0 gs ys = ys.
Proof. unfold effect_of. by rewrite take_0. Qed.

Lemma drop_tail {A} k (l : list A) : drop k (tail l) = drop (S k) l.
Proof. destruct l; simpl; [by rewrite drop_nil|done]. Qed.



Lemma after_acts own en gs m ys :
  Forall2 acts_as en gs →
  Forall (λ o, is_Some (heap m !! o)) own →
  apart own m ys →
  Forall (λ o, heap (after en m) !! o = heap m !! o) own ∧
  apart own (after en m) (effect_of 1 gs ys) ∧
  Forall2 acts_as (tail en) (tail gs) ∧
  length (tail en) ≤ length en ∧
  (head_ (after en m) ≠ head_ m → length (tail en) < length en).
Proof.
  intros Hen Hown Hap. destruct Hen as [|f g en gs Hf Hen]; simpl.
  - split_and!; [by apply Forall_true|done|done|done|done].
  - destruct (Hf own m ys Hown Hap) as [Hkeep Hap'].
    split_and!; [done|done|done|lia|lia].
Qed.



(** *** [push] *)

Lemma apart_own m nn b (ys : list T) :
  apart [nn; b] m ys ↔ pchain (delete b (delete nn (heap m))) (head_ m) ys.
Proof. unfold apart. simpl. by rewrite delete_delete. Qed.

Lemma push_loop_contended fuel : ∀ m tr oo sp en gs nn b v e ys,
  heap m !! nn = Some (PNode (Some b) e) →
  heap m !! b = Some (Box v) →
  apart [nn; b] m ys →
  Forall2 acts_as en gs →
  length en + length sp + (if decide (head_ m = e) then 0 else 1) < fuel →
  ∃ k s', push_loop fuel nn (State m tr (Oracle oo sp en)) = Done tt s' ∧
          pstack_rep (mem s') (v :: effect_of k gs ys) ∧
          env (orc s') = drop k en.
Proof.
  induction fuel as [|fuel IH];
    intros m tr oo sp en gs nn b v e ys Hnn Hb Hap Hen Hf; [lia|].
  assert (∀ m', heap m' !! nn = heap m !! nn → heap m' !! b = heap m !! b →
                Forall (λ o, is_Some (heap m' !! o)) [nn; b]) as Hown.
  { intros m' E1 E2. repeat constructor; [rewrite E1, Hnn|rewrite E2, Hb]; done. }
  (* the read of new_node->next *)
  destruct (after_acts [nn; b] en gs m ys Hen (Hown m eq_refl eq_refl) Hap)
    as (Hk1 & Hap1 & Hen1 & Hle1 & Hlt1).
  set (m1 := after en m) in *. set (en1 := tail en) in *.
  apply Forall_cons in Hk1 as [Hnn1 Hk1]. apply Forall_cons in Hk1 as [Hb1 _].
  simpl push_loop.
  erewrite bind_Done;
    [|apply read_any; fold m1; simpl; rewrite Hnn1, Hnn; reflexivity].
  fold m1 en1.
  (* the exchange *)
  destruct (after_acts [nn; b] en1 (tail gs) m1 _ Hen1
              (Hown m1 Hnn1 Hb1) Hap1)
    as (Hk2 & Hap2 & Hen2 & Hle2 & Hlt2).
  set (m2 := after en1 m1) in *. set (en2 := tail en1) in *.
  apply Forall_cons in Hk2 as [Hnn2 Hk2]. apply Forall_cons in Hk2 as [Hb2 _].
  rewrite Hnn1 in Hnn2. rewrite Hb1 in Hb2.
  pose proof (cas_weak_any Head e (Some nn) memory_order_seq_cst m1
                (Memory (heap m2) (Some nn) (tail_ m2))
                (PlainRead (NextOf nn) e :: tr)
                oo sp en1 (head_ m2) eq_refl eq_refl) as Hcas.
  fold m2 en2 in Hcas.
  case_decide as Hwin; (erewrite bind_Done; [|exact Hcas]).
  - (* it succeeds *)
    destruct Hwin as [Hcur _].
    exists 2. eexists. split; [reflexivity|]. simpl. split.
    + exists nn, b, e. simpl. rewrite Hnn2, Hnn, Hb2, Hb.
      split_and!; [done|done|done|].
      rewrite <- Hcur, <- (effect_of_tail 1 gs). by apply apart_own.
    + subst en2 en1. by rewrite <- (drop_tail 1), <- (drop_tail 0), drop_0.
  - (* it fails: the head observed goes to new_node->next *)
    cbn beta iota.
    destruct (after_acts [nn; b] en2 (tail (tail gs)) m2 _ Hen2
                (Hown m2 ltac:(by rewrite Hnn2) ltac:(by rewrite Hb2)) Hap2)
      as (Hk3 & Hap3 & Hen3 & Hle3 & Hlt3).
    set (m3 := after en2 m2) in *. set (en3 := tail en2) in *.
    apply Forall_cons in Hk3 as [Hnn3 Hk3]. apply Forall_cons in Hk3 as [Hb3 _].
    rewrite Hnn2 in Hnn3. rewrite Hb2 in Hb3.
    assert (nn ≠ b) as Hne by (intros ->; congruence).
    erewrite bind_Done;
      [|apply write_any; fold m3; simpl; rewrite Hnn3, Hnn; reflexivity].
    fold en3.
    edestruct (IH (Memory (<[nn:=PNode (Some b) (head_ m2)]> (heap m3))
                     (head_ m3) (tail_ m3))
                 (PlainWrite (NextOf nn) (head_ m2)
                  :: AtomicCas Head e (Some nn) (head_ m2) false
                       memory_order_seq_cst
                  :: PlainRead (NextOf nn) e :: tr)
                 oo (tail sp) en3 (tail (tail (tail gs))) nn b v (head_ m2)
                 (effect_of 1 (tail (tail gs))
                    (effect_of 1 (tail gs) (effect_of 1 gs ys))))
      as (k & s' & Hrun & Hrep & Henv).
    + simpl. by rewrite lookup_insert_eq.
    + simpl. rewrite lookup_insert_ne by done. by rewrite Hb3.
    + unfold apart in *. cbn [heap head_].
      rewrite foldr_delete_insert_in; [done|left].
    + done.
    + simpl.
      assert (length (tail sp) ≤ length sp) as Hsp by (destruct sp; simpl; lia).
      assert (head_ m2 = e → length (tail sp) < length sp) as Hsp'.
      { intros E2. destruct sp as [|[] sp]; simpl; [|lia|].
        - exfalso. apply Hwin. done.
        - exfalso. apply Hwin. done. }
      assert (head_ m1 = head_ m ∨ length en1 < length en) as Hd1
        by (destruct (decide (head_ m1 = head_ m)); auto).
      assert (head_ m2 = head_ m1 ∨ length en2 < length en1) as Hd2
        by (destruct (decide (head_ m2 = head_ m1)); auto).
      assert (head_ m3 = head_ m2 ∨ length en3 < length en2) as Hd3
        by (destruct (decide (head_ m3 = head_ m2)); auto).
      destruct (decide (head_ m2 = e)) as [E2|N2];
        [specialize (Hsp' E2)|clear Hsp'];
        destruct Hd1, Hd2, Hd3; repeat case_decide; (lia || congruence).
    + exists (S (S (S k))), s'. split; [exact Hrun|]. split.
      * by rewrite (effect_of_tail k (tail (tail gs))),
          (effect_of_tail (S k) (tail gs)), (effect_of_tail (S (S k)) gs)
          in Hrep.
      * rewrite Henv. subst en3 en2 en1. by rewrite !drop_tail.
Qed.

(** X21.  [push] of the stack of 04_atomic_operations.cpp among other
    threads.  The call starts on a stack that holds [xs].  Before each of
    its accesses the other threads make a step: [en] lists the steps and
    [gs] what each of them makes of the elements of the stack, while it
    leaves alone the objects that are no part of the stack (a whole [push]
    of another thread puts an element on top, a whole [pop] takes the top
    one off).  With fuel for one round more than there are such steps and
    spurious failures of the weak exchange, the call returns.  Its
    successful exchange is the last thing it does: by then the other
    threads have made [k] of their steps, and the stack holds the element
    pushed on top of what these [k] steps have made of [xs]; the steps not
    yet made are still to come. *)
Theorem push_wins_against_other_threads fuel v m xs tr sp en gs :
  pstack_rep m xs →
  Forall2 acts_as en gs →
  length en + length sp < fuel →
  ∃ k s', push fuel v (State m tr (Oracle [] sp en)) = Done tt s' ∧
          pstack_rep (mem s') (v :: effect_of k gs xs) ∧
          env (orc s') = drop k en.
Proof.
  intros Hrep Hen Hf.
  unfold push.
  erewrite bind_Done; [|reflexivity].
  erewrite bind_Done; [|reflexivity].
  cbn [mem heap head_ tail_ orc oom spurious env trace].
  remember (fresh (dom (heap m))) as nn eqn:Enn.
  remember (fresh (dom (<[nn:=PNode None None]> (heap m)))) as b eqn:Eb.
  remember (Memory (<[b:=Box v]> (<[nn:=PNode None None]> (heap m)))
              (head_ m) (tail_ m)) as m0 eqn:Em0.
  assert (heap m !! nn = None) as Hfnn
    by (rewrite Enn; apply not_elem_of_dom, is_fresh).
  assert ((<[nn:=PNode None None]> (heap m) : gmap _ _) !! b = None) as Hfb
    by (rewrite Eb; apply not_elem_of_dom, is_fresh).
  assert (nn ≠ b) as Hne.
  { intros E. rewrite <- E in Hfb. by rewrite lookup_insert_eq in Hfb. }
  assert (heap m0 !! nn = Some (PNode None None)) as Hnn0.
  { rewrite Em0. simpl. rewrite lookup_insert_ne by done.
    by rewrite lookup_insert_eq. }
  assert (heap m0 !! b = Some (Box v)) as Hb0
    by (rewrite Em0; simpl; by rewrite lookup_insert_eq).
  assert (apart [nn; b] m0 xs) as Hap0.
  { apply apart_own. rewrite Em0. simpl.
    rewrite (delete_delete _ b nn), delete_insert_id by done.
    by rewrite delete_insert_id. }
  clear Enn Eb Em0 Hfnn Hfb.
  assert (∀ m' d e, heap m' !! nn = Some (PNode d e) →
                    heap m' !! b = Some (Box v) →
                    Forall (λ o, is_Some (heap m' !! o)) [nn; b]) as Hown.
  { intros m' d e E1 E2. repeat constructor; [rewrite E1|rewrite E2]; done. }
  (* new_node->data.store(...) *)
  destruct (after_acts [nn; b] en gs m0 xs Hen (Hown m0 _ _ Hnn0 Hb0) Hap0)
    as (Hk1 & Hap1 & Hen1 & Hle1 & _).
  remember (after en m0) as m1 eqn:Em1.
  apply Forall_cons in Hk1 as [Hnn1 Hk1]. apply Forall_cons in Hk1 as [Hb1 _].
  rewrite Hnn0 in Hnn1. rewrite Hb0 in Hb1.
  erewrite bind_Done;
    [|apply store_any; rewrite <- Em1; simpl; rewrite Hnn1; reflexivity].
  remember (Memory (<[nn:=PNode (Some b) None]> (heap m1)) (head_ m1)
              (tail_ m1)) as m1' eqn:Em1'.
  assert (heap m1' !! nn = Some (PNode (Some b) None)) as Hnn1'
    by (rewrite Em1'; simpl; by rewrite lookup_insert_eq).
  assert (heap m1' !! b = Some (Box v)) as Hb1'
    by (rewrite Em1'; simpl; by rewrite lookup_insert_ne).
  assert (apart [nn; b] m1' (effect_of 1 gs xs)) as Hap1'.
  { unfold apart in *. rewrite Em1'. cbn [heap head_].
    rewrite foldr_delete_insert_in; [done|left]. }
  clear Em1 Em1' Hnn0 Hb0 Hap0 Hnn1 Hb1 Hap1.
  (* head_.load() *)
  destruct (after_acts [nn; b] (tail en) (tail gs) m1' _ Hen1
              (Hown m1' _ _ Hnn1' Hb1') Hap1')
    as (Hk2 & Hap2 & Hen2 & Hle2 & _).
  remember (after (tail en) m1') as m2 eqn:Em2.
  apply Forall_cons in Hk2 as [Hnn2 Hk2]. apply Forall_cons in Hk2 as [Hb2 _].
  rewrite Hnn1' in Hnn2. rewrite Hb1' in Hb2.
  erewrite bind_Done; [|by apply (load_any Head)].
  rewrite <- Em2. clear Em2.
  (* new_node->next = ... *)
  destruct (after_acts [nn; b] (tail (tail en)) (tail (tail gs)) m2 _ Hen2
              (Hown m2 _ _ Hnn2 Hb2) Hap2)
    as (Hk3 & Hap3 & Hen3 & Hle3 & Hlt3).
  remember (after (tail (tail en)) m2) as m3 eqn:Em3.
  apply Forall_cons in Hk3 as [Hnn3 Hk3]. apply Forall_cons in Hk3 as [Hb3 _].
  rewrite Hnn2 in Hnn3. rewrite Hb2 in Hb3.
  erewrite bind_Done;
    [|apply write_any; rewrite <- Em3; simpl; rewrite Hnn3; reflexivity].
  clear Em3.
  edestruct (push_loop_contended fuel
               (Memory (<[nn:=PNode (Some b) (head_ m2)]> (heap m3))
                  (head_ m3) (tail_ m3))
               (PlainWrite (NextOf nn) (head_ m2)
                :: AtomicLoad Head (head_ m2) memory_order_seq_cst
                :: AtomicStore (DataOf nn) (Some b) memory_order_seq_cst
                :: Alloc b :: Alloc nn :: tr)
               [] sp (tail (tail (tail en))) (tail (tail (tail gs))) nn b v
               (head_ m2)
               (effect_of 1 (tail (tail gs))
                  (effect_of 1 (tail gs) (effect_of 1 gs xs))))
    as (k & s' & Hrun & Hrep' & Henv).
  - simpl. by rewrite lookup_insert_eq.
  - simpl. by rewrite lookup_insert_ne.
  - unfold apart in *. cbn [heap head_].
    rewrite foldr_delete_insert_in; [done|left].
  - done.
  - simpl. case_decide as Hh; [lia|].
    assert (head_ m3 ≠ head_ m2) as Hchg by congruence.
    specialize (Hlt3 Hchg). lia.
  - exists (S (S (S k))), s'. split; [exact Hrun|]. split.
    + by rewrite (effect_of_tail k (tail (tail gs))),
        (effect_of_tail (S k) (tail gs)), (effect_of_tail (S (S k)) gs)
        in Hrep'.
    + rewrite Henv. by rewrite !drop_tail.
Qed.

(** *** What whole calls of other threads do *)

Lemma foldr_delete_subseteq own (h : gmap positive (object T)) :
  foldr delete h own ⊆ h.
Proof.
  apply map_subseteq_spec. intros i o Hi.
  by apply lookup_foldr_delete_Some in Hi as [_ ?].
Qed.

Lemma own_not_fresh own (h : gmap positive (object T)) l :
  Forall (λ o, is_Some (h !! o)) own → h !! l = None → l ∉ own.
Proof.
  intros Hown Hl Hin. rewrite Forall_forall in Hown.
  destruct (Hown l Hin) as [o Ho]. congruence.
Qed.

Lemma push_acts fuel (w : T) :
  0 < fuel → acts_as (as_env (push fuel w)) (cons w).
Proof.
  intros Hf own m ys Hown Hap.
  pose proof (mt_push_exact fuel m [] [] w Hf) as Hp.
  unfold wp in Hp. unfold as_env.
  change (State m [] (Oracle [] [] [])) with (St m [] []).
  destruct (push fuel w (St m [] [])) as [[] s'| | |]; try done.
  destruct Hp as (l & b & tr' & sp' & Hl & Hb & Hne & -> & _). simpl.
  pose proof (own_not_fresh own _ l Hown Hl) as Hlo.
  pose proof (own_not_fresh own _ b Hown Hb) as Hbo.
  split.
  - apply Forall_forall. intros o Ho.
    rewrite !lookup_insert_ne; [done|by intros ->|by intros ->].
  - unfold apart in *. simpl. exists l, b, (head_ m). split_and!; [done|..].
    + rewrite lookup_foldr_delete_not_elem_of by done.
      by rewrite lookup_insert_eq.
    + rewrite lookup_foldr_delete_not_elem_of by done.
      rewrite lookup_insert_ne by done. by rewrite lookup_insert_eq.
    + rewrite !delete_foldr_delete.
      rewrite delete_insert_id by (by rewrite lookup_insert_ne).
      by rewrite delete_insert_id.
Qed.


Lemma pop_acts fuel :
  0 < fuel → acts_as (T:=T) (as_env (pop_value fuel)) tail.
Proof.
  intros Hf own m ys Hown Hap. unfold as_env.
  change (State m [] (Oracle [] [] [])) with (St m [] []).
  assert (pstack_rep m ys) as Hrep
    by (eapply pchain_mono; [exact Hap|apply foldr_delete_subseteq]).
  destruct ys as [|y ys]; simpl.
  - pose proof (mt_pop_spec_nil fuel m [] [] Hrep) as Hp. unfold wp in Hp.
    destruct (pop_value fuel (St m [] [])) as [out s'| | |];
      [|by split; [apply Forall_true|]..].
    destruct Hp as (_ & tr' & ->). simpl. by split; [apply Forall_true|].
  - destruct Hap as (l & b & nx & Hhd & Hl & Hb & Hch).
    apply lookup_foldr_delete_Some in Hl as [Hlo Hl].
    apply lookup_foldr_delete_Some in Hb as [Hbo Hb].
    pose proof (mt_pop_value_exact fuel m [] [] l b y nx Hf Hhd Hl Hb) as Hp.
    unfold wp in Hp.
    destruct (pop_value fuel (St m [] [])) as [out s'| | |]; try done.
    destruct Hp as (_ & tr' & sp' & -> & _). simpl. split.
    + apply Forall_forall. intros o Ho.
      rewrite !lookup_delete_ne; [done|by intros ->|by intros ->].
    + unfold apart. simpl. by rewrite <- !delete_foldr_delete.
Qed.

(** *** [pop] while the other threads push *)



End Contended.

Lemma push_wins_against_other_threads_witness :
  pstack_rep mt_one [7%Z] ∧
  Forall2 acts_as
    [as_env (atomic_operations_04.LockFreeStack.push 1 8%Z);
     as_env (atomic_operations_04.LockFreeStack.pop_value 1)]
    [cons 8%Z; tail] ∧
  length [as_env (atomic_operations_04.LockFreeStack.push 1 8%Z);
          as_env (atomic_operations_04.LockFreeStack.pop_value 1)] +
    length [true] < 4 ∧
  ∃ k s',
    atomic_operations_04.LockFreeStack.push 4 9%Z
      (State mt_one []
         (Oracle [] [true]
            [as_env (atomic_operations_04.LockFreeStack.push 1 8%Z);
             as_env (atomic_operations_04.LockFreeStack.pop_value 1)])) =
      Done tt s' ∧
    pstack_rep (mem s') (9%Z :: effect_of k [cons 8%Z; tail] [7%Z]) ∧
    env (orc s') =
      drop k [as_env (atomic_operations_04.LockFreeStack.push 1 8%Z);
              as_env (atomic_operations_04.LockFreeStack.pop_value 1)].
Proof.
  assert (Forall2 (acts_as (T:=Z))
            [as_env (atomic_operations_04.LockFreeStack.push 1 8%Z);
             as_env (atomic_operations_04.LockFreeStack.pop_value 1)]
            [cons 8%Z; tail]) as Hen.
  { constructor; [apply push_acts; lia|].
    constructor; [apply pop_acts; lia|]. constructor. }
  split; [exact mt_one_rep|]. split; [exact Hen|]. split; [simpl; lia|].
  apply (push_wins_against_other_threads 4 9%Z mt_one [7%Z] [] [true] _ _
           mt_one_rep Hen).
  simpl; lia.
Defined.


(** ** The classes with integral atomics *)

Import SharedObject.

(** Unfolds the primitives of the machine. *)
Ltac unfold_prog :=
  unfold load, store, fetch_add, fetch_sub, test_and_set, test, clear,
    read_modify_write, read, write, yield, access, step, alone, meanwhile,
    mbind, mret, prog_bind, prog_ret, then_, unit_, fault, starve in *.

(** Arithmetic of the wrapping integer types. *)
Ltac solve_wrap :=
  unfold uint64_wrap, size_t_wrap, int_wrap in *;
  Z.div_mod_to_equations; lia.

Lemma int_wrap_id (z : Z) : (- 2 ^ 31 ≤ z < 2 ^ 31)%Z → int_wrap z = z.
Proof. intros Hz. solve_wrap. Qed.

Section Sequence.
Context {Σ : Type}.

Lemma sequence_cons {A} (c : prog Σ A) cs r a r' outs r'' :
  c r = Returned a r' → sequence cs r' = Returned outs r'' →
  sequence (c :: cs) r = Returned (a :: outs) r''.
Proof.
  intros Hc Hcs. simpl. unfold mbind, prog_bind, then_. rewrite Hc, Hcs. done.
Qed.

Lemma sequence_app {A} (cs1 cs2 : list (prog Σ A)) r outs1 r1 :
  sequence cs1 r = Returned outs1 r1 →
  sequence (cs1 ++ cs2) r =
    match sequence cs2 r1 with
    | Returned outs2 r2 => Returned (outs1 ++ outs2) r2
    | Faulted => Faulted
    | Starved => Starved
    end.
Proof.
  revert r outs1 r1. induction cs1 as [|c cs1 IH]; intros r outs1 r1; simpl.
  - intros [= <- <-]. by destruct (sequence cs2 r).
  - unfold mbind, prog_bind, then_. destruct (c r) as [a r'| |]; [|done..].
    destruct (sequence cs1 r') as [outs r''| |] eqn:Hcs1; [|done..].
    intros [= <- <-]. rewrite (IH _ _ _ Hcs1).
    by destruct (sequence cs2 r'').
Qed.

Lemma bind_run {A B} (c : prog Σ A) (k : A → prog Σ B) r a r' :
  c r = Returned a r' → (c ≫= k) r = k a r'.
Proof. intros Hc. unfold mbind, prog_bind, then_. by rewrite Hc. Qed.

Lemma bind_assoc {A B C} (c : prog Σ A) (k1 : A → prog Σ B)
    (k2 : B → prog Σ C) r :
  ((c ≫= k1) ≫= k2) r = (c ≫= λ a, k1 a ≫= k2) r.
Proof. unfold mbind, prog_bind, then_. by destruct (c r). Qed.

Lemma ret_bind {A B} (a : A) (k : A → prog Σ B) r : (mret a ≫= k) r = k a r.
Proof. reflexivity. Qed.

Lemma load_run {V} (x : member Σ V) mo σ os v :
  peek x σ = Some v →
  load x mo (alone σ os) = Returned v (alone σ (mo :: os)).
Proof. intros Hx. unfold load, access, alone; simpl. by rewrite Hx. Qed.

Lemma store_run {V} (x : member Σ V) v mo σ σ' os :
  poke x v σ = Some σ' →
  store x v mo (alone σ os) = Returned tt (alone σ' (mo :: os)).
Proof. intros Hx. unfold store, access, alone; simpl. by rewrite Hx. Qed.

Lemma read_run {V} (x : member Σ V) σ os v :
  peek x σ = Some v → read x (alone σ os) = Returned v (alone σ os).
Proof. intros Hx. unfold read, access, alone; simpl. by rewrite Hx. Qed.

Lemma write_run {V} (x : member Σ V) v σ σ' os :
  poke x v σ = Some σ' → write x v (alone σ os) = Returned tt (alone σ' os).
Proof. intros Hx. unfold write, access, alone; simpl. by rewrite Hx. Qed.

Lemma rmw_run {V} (x : member Σ V) f mo σ σ' os v :
  peek x σ = Some v → poke x (f v) σ = Some σ' →
  read_modify_write x f mo (alone σ os) = Returned v (alone σ' (mo :: os)).
Proof.
  intros Hx Hp. unfold read_modify_write, access, alone; simpl.
  rewrite Hx. simpl. by rewrite Hp.
Qed.

Lemma access_run {A} (f : Σ → option (A * Σ)) mo σ os a σ' :
  f σ = Some (a, σ') →
  access f mo (alone σ os) = Returned a (alone σ' (mo ++ os)).
Proof. intros Hf. unfold access, alone; simpl. by rewrite Hf. Qed.

End Sequence.

(** One step of a thread that runs alone: the first computation of a
    sequence returns by [lem]. *)
Ltac prog_step lem := erewrite bind_run; [|lem]; cbn beta iota.

Section Counter.
Import atomic_operations_04.WaitFreeCounter.
Open Scope Z_scope.


Lemma uint64_wrap_add a b : uint64_wrap (uint64_wrap a + b) = uint64_wrap (a + b).
Proof. unfold uint64_wrap. by rewrite Zplus_mod_idemp_l. Qed.

Lemma add_alone v c os :
  add v (Run c os []) =
  Returned c (Run (uint64_wrap (c + v)) (memory_order_relaxed :: os) []).
Proof. reflexivity. Qed.

Lemma add_after v w c os fs :
  add v (Run c os (meanwhile (add w) :: fs)) =
  Returned (uint64_wrap (c + w))
    (Run (uint64_wrap (uint64_wrap (c + w) + v)) (memory_order_relaxed :: os) fs).
Proof. reflexivity. Qed.

Lemma meanwhile_add w c : meanwhile (add w) c = uint64_wrap (c + w).
Proof. reflexivity. Qed.

Lemma rest_of_adds (ws : list Z) (c : Z) os :
  uint64_wrap (at_rest (Run c os ((λ w, meanwhile (add w)) <$> ws))) =
  uint64_wrap (c + sum_of ws).
Proof.
  unfold at_rest. simpl. revert c.
  induction ws as [|w ws IHw]; intros c; simpl.
  - f_equal. lia.
  - rewrite IHw, meanwhile_add, uint64_wrap_add. f_equal. lia.
Qed.

Lemma sum_of_nil : sum_of [] = 0%Z.
Proof. reflexivity. Qed.

Lemma add_all_at_rest : ∀ (vs ws : list Z) (c : Z) os,
  0 ≤ c < 2 ^ 64 →
  ∃ outs r',
    sequence (add <$> vs) (Run c os ((λ w, meanwhile (add w)) <$> ws)) =
      Returned outs r' ∧
    at_rest r' = uint64_wrap (c + sum_of vs + sum_of ws) ∧
    (ws = [] → ∀ i, (i < length vs)%nat →
       outs !! i = Some (uint64_wrap (c + sum_of (take i vs)))).
Proof.
  induction vs as [|v vs IH]; intros ws c os Hc.
  - eexists [], _. split; [reflexivity|]. split; [|simpl; lia].
    assert (∀ x, 0 ≤ x < 2 ^ 64 →
              foldl (λ σ f, f σ) x ((λ w, meanwhile (add w)) <$> ws) =
              uint64_wrap (x + sum_of ws)) as Hfold.
    { induction ws as [|w ws IHw]; intros x Hx; simpl.
      - solve_wrap.
      - rewrite IHw, meanwhile_add by (rewrite meanwhile_add; solve_wrap).
        solve_wrap. }
    unfold at_rest. simpl. rewrite Hfold by done. simpl. f_equal. lia.
  - destruct ws as [|w ws].
    + destruct (IH [] (uint64_wrap (c + v)) (memory_order_relaxed :: os))
        as (outs & r' & Hrun & Hrest & Houts); [solve_wrap|].
      exists (c :: outs), r'. split_and!.
      * rewrite fmap_cons. eapply sequence_cons; [apply add_alone|exact Hrun].
      * rewrite Hrest. simpl. solve_wrap.
      * intros _ i Hi. destruct i as [|i]; simpl.
        { f_equal. solve_wrap. }
        rewrite Houts by (simpl in Hi; done || lia). f_equal. solve_wrap.
    + destruct (IH ws (uint64_wrap (uint64_wrap (c + w) + v))
                  (memory_order_relaxed :: os))
        as (outs & r' & Hrun & Hrest & _); [solve_wrap|].
      exists (uint64_wrap (c + w) :: outs), r'. split_and!; [| |done].
      * rewrite !fmap_cons. eapply sequence_cons; [apply add_after|].
        exact Hrun.
      * rewrite Hrest. simpl. solve_wrap.
Qed.

End Counter.

(** X9.  [WaitFreeCounter] loses no update.  One thread makes the calls
    [cs] ([increment] or [add]) while other threads make the calls [ds],
    one of them before each access of the first thread and the rest
    afterwards: every call of [cs] returns, and in the end the counter is
    the initial value plus all amounts, modulo [2^64].  With no other
    thread, the [i]-th call returns the initial value plus the amounts of
    the calls before it, and [get] then returns the total. *)
Theorem counter_loses_no_update (c : Z) (cs ds : list counter_call)
    (os : list memory_order) :
  (0 ≤ c < 2 ^ 64)%Z →
  ∃ outs r',
    sequence (counter_perform <$> cs)
      (Run c os ((λ d, meanwhile (counter_perform d)) <$> ds)) =
      Returned outs r' ∧
    at_rest r' =
      uint64_wrap (c + sum_of (amount <$> cs) + sum_of (amount <$> ds)) ∧
    (ds = [] →
     (∀ i, i < length cs →
        outs !! i = Some (uint64_wrap (c + sum_of (amount <$> take i cs)))) ∧
     ∃ r'', atomic_operations_04.WaitFreeCounter.get r' =
            Returned (uint64_wrap (c + sum_of (amount <$> cs))) r'').
Proof.
  intros Hc.
  assert (∀ l : list counter_call,
            counter_perform <$> l =
            atomic_operations_04.WaitFreeCounter.add <$> (amount <$> l)) as E1.
  { intros l. rewrite <- list_fmap_compose. apply list_fmap_ext.
    intros _ [|v] _; reflexivity. }
  assert ((λ d, meanwhile (counter_perform d)) <$> ds =
          (λ w, meanwhile (atomic_operations_04.WaitFreeCounter.add w)) <$>
            (amount <$> ds)) as E2.
  { rewrite <- list_fmap_compose. apply list_fmap_ext.
    intros _ [|v] _; reflexivity. }
  rewrite E1, E2.
  destruct (add_all_at_rest (amount <$> cs) (amount <$> ds) c os Hc)
    as (outs & r' & Hrun & Hrest & Houts).
  exists outs, r'. split; [exact Hrun|]. split; [exact Hrest|].
  intros ->. specialize (Houts eq_refl). split.
  - intros i Hi. rewrite fmap_take. apply Houts. by rewrite length_fmap.
  - destruct r' as [σ os' fs]. unfold at_rest in Hrest. cbn in Hrest.
    assert (fs = []) as ->.
    { clear -Hrun. revert c os outs Hrun.
      induction (amount <$> cs) as [|v vs IH]; intros c os outs Hrun.
      - by injection Hrun as _ _ _ ->.
      - simpl in Hrun. unfold mbind, prog_bind, then_ in Hrun.
        rewrite add_alone in Hrun.
        destruct (sequence _ _) as [outs' r''| |] eqn:Hseq; [|done..].
        injection Hrun as _ ->. by eapply IH. }
    simpl in Hrest. rewrite Z.add_0_r in Hrest. subst σ.
    eexists. reflexivity.
Qed.

Lemma counter_loses_no_update_witness :
  (0 ≤ 2 ^ 64 - 2 < 2 ^ 64)%Z ∧
  ∃ outs r',
    sequence (counter_perform <$> [Increment; Add 5])
      (Run (2 ^ 64 - 2)%Z []
         ((λ d, meanwhile (counter_perform d)) <$> [Add 7])) =
      Returned outs r' ∧
    at_rest r' =
      uint64_wrap (2 ^ 64 - 2 + sum_of (amount <$> [Increment; Add 5]) +
                   sum_of (amount <$> [Add 7])).
Proof.
  split; [lia|].
  destruct (counter_loses_no_update (2 ^ 64 - 2) [Increment; Add 5] [Add 7] [])
    as (outs & r' & Hrun & Hrest & _); [lia|].
  exists outs, r'. split; [exact Hrun|exact Hrest].
Defined.

Section RefCount.
Import atomic_cpp.AtomicRefCounted.
Open Scope Z_scope.

Lemma addRef_alone c os :
  - 2 ^ 31 ≤ c < 2 ^ 31 - 1 →
  addRef (alone (Fields c false) os) =
  Returned tt (alone (Fields (c + 1) false) (memory_order_relaxed :: os)).
Proof.
  intros Hc. unfold addRef. unfold_prog. simpl. do 3 f_equal. solve_wrap.
Qed.

Lemma release_alone c os :
  - 2 ^ 31 < c < 2 ^ 31 →
  release (alone (Fields c false) os) =
  Returned tt (alone (Fields (c - 1) (bool_decide (c = 1)))
                     (memory_order_acq_rel :: os)).
Proof.
  intros Hc. unfold release, delete_this. unfold_prog. simpl.
  assert (int_wrap (c - 1) = c - 1) as -> by solve_wrap.
  case_decide; [rewrite bool_decide_eq_true_2 by done|
                rewrite bool_decide_eq_false_2 by done]; done.
Qed.

Lemma addRefs_alone : ∀ (k : nat) c os,
  - 2 ^ 31 ≤ c → c + Z.of_nat k < 2 ^ 31 →
  ∃ outs os', sequence (replicate k addRef) (alone (Fields c false) os) =
              Returned outs (alone (Fields (c + Z.of_nat k) false) os').
Proof.
  induction k as [|k IH]; intros c os Hlo Hhi; simpl replicate.
  - exists [], os. replace (c + Z.of_nat 0) with c by lia. reflexivity.
  - destruct (IH (c + 1) (memory_order_relaxed :: os)) as (outs & os' & Hrun);
      [lia|lia|].
    exists (tt :: outs), os'.
    replace (c + Z.of_nat (S k)) with (c + 1 + Z.of_nat k) by lia.
    eapply sequence_cons; [apply addRef_alone; lia|exact Hrun].
Qed.

Lemma releases_alone : ∀ (j : nat) c os,
  c < 2 ^ 31 → Z.of_nat j ≤ c →
  ∃ outs os', sequence (replicate j release) (alone (Fields c false) os) =
              Returned outs
                (alone (Fields (c - Z.of_nat j)
                               (bool_decide (j ≠ O ∧ Z.of_nat j = c))) os').
Proof.
  induction j as [|j IH]; intros c os Hhi Hj; simpl replicate.
  - exists [], os. replace (c - Z.of_nat 0) with c by lia.
    rewrite bool_decide_eq_false_2 by (by intros [? _]). reflexivity.
  - destruct (decide (c = 1)) as [->|Hc].
    + assert (j = O) as -> by lia.
      exists [tt], (memory_order_acq_rel :: os).
      rewrite bool_decide_eq_true_2 by (split; [done|lia]).
      eapply sequence_cons; [apply release_alone; lia|].
      rewrite bool_decide_eq_true_2 by done. reflexivity.
    + destruct (IH (c - 1) (memory_order_acq_rel :: os)) as (outs & os' & Hrun);
        [lia|lia|].
      exists (tt :: outs), os'.
      replace (c - Z.of_nat (S j)) with (c - 1 - Z.of_nat j) by lia.
      eapply sequence_cons; [apply release_alone; lia|].
      rewrite bool_decide_eq_false_2 by done. rewrite Hrun.
      do 3 f_equal. apply bool_decide_ext. split.
      * intros [? ?]. split; [done|lia].
      * intros [_ ?]. split; [|lia]. intros ->. lia.
Qed.

End RefCount.

(** X10.  [AtomicRefCounted]: on an object with count [c], [k] calls of
    [addRef] followed by [j] calls of [release] leave the count
    [c + k - j]; the object is deleted by the [release] that takes the
    count from 1 to 0 and by no earlier one.  While it lives, [getRefCount]
    returns the count; once it is deleted, every member function is
    undefined behaviour. *)
Theorem last_release_deletes (c : Z) (k j : nat) (os : list memory_order) :
  (1 ≤ c)%Z → (c + Z.of_nat k < 2 ^ 31)%Z → (Z.of_nat j ≤ c + Z.of_nat k)%Z →
  ∃ outs r',
    sequence (replicate k atomic_cpp.AtomicRefCounted.addRef ++
              replicate j atomic_cpp.AtomicRefCounted.release)
      (alone (atomic_cpp.AtomicRefCounted.Fields c false) os) =
      Returned outs r' ∧
    others r' = [] ∧
    this r' =
      atomic_cpp.AtomicRefCounted.Fields (c + Z.of_nat k - Z.of_nat j)
        (bool_decide (Z.of_nat j = c + Z.of_nat k)%Z) ∧
    ((Z.of_nat j < c + Z.of_nat k)%Z →
     ∃ r'', atomic_cpp.AtomicRefCounted.getRefCount r' =
            Returned (c + Z.of_nat k - Z.of_nat j)%Z r'') ∧
    ((Z.of_nat j = c + Z.of_nat k)%Z →
     atomic_cpp.AtomicRefCounted.addRef r' = Faulted ∧
     atomic_cpp.AtomicRefCounted.release r' = Faulted ∧
     atomic_cpp.AtomicRefCounted.getRefCount r' = Faulted).
Proof.
  intros Hc Hk Hj.
  destruct (addRefs_alone k c os) as (outs1 & os1 & Hrun1); [lia|lia|].
  destruct (releases_alone j (c + Z.of_nat k) os1) as (outs2 & os2 & Hrun2);
    [lia|lia|].
  eexists (outs1 ++ outs2), _. split_and!.
  - rewrite (sequence_app _ _ _ _ _ Hrun1), Hrun2. reflexivity.
  - reflexivity.
  - simpl. f_equal. apply bool_decide_ext. split; [by intros [_ ?]|].
    intros ?. split; [|done]. intros ->. lia.
  - intros Hlt. rewrite bool_decide_eq_false_2 by lia. eexists. reflexivity.
  - intros Heq. rewrite bool_decide_eq_true_2 by (split; [intros ->|]; lia).
    done.
Qed.

Lemma last_release_deletes_witness :
  (1 ≤ 1)%Z ∧ (1 + Z.of_nat 2 < 2 ^ 31)%Z ∧ (Z.of_nat 3 ≤ 1 + Z.of_nat 2)%Z ∧
  ∃ outs r',
    sequence (replicate 2 atomic_cpp.AtomicRefCounted.addRef ++
              replicate 3 atomic_cpp.AtomicRefCounted.release)
      (alone atomic_cpp.AtomicRefCounted.construct []) =
      Returned outs r' ∧
    others r' = [] ∧
    this r' =
      atomic_cpp.AtomicRefCounted.Fields (1 + Z.of_nat 2 - Z.of_nat 3)
        (bool_decide (Z.of_nat 3 = 1 + Z.of_nat 2)%Z) ∧
    ((Z.of_nat 3 < 1 + Z.of_nat 2)%Z →
     ∃ r'', atomic_cpp.AtomicRefCounted.getRefCount r' =
            Returned (1 + Z.of_nat 2 - Z.of_nat 3)%Z r'') ∧
    ((Z.of_nat 3 = 1 + Z.of_nat 2)%Z →
     atomic_cpp.AtomicRefCounted.addRef r' = Faulted ∧
     atomic_cpp.AtomicRefCounted.release r' = Faulted ∧
     atomic_cpp.AtomicRefCounted.getRefCount r' = Faulted).
Proof.
  split_and!; [lia|lia|lia|].
  apply (last_release_deletes 1 2 3 []); lia.
Defined.

Section Demo.
Import atomic_cpp.MemoryOrderingDemo.

Lemma write_then_read d r r' d' value fuel (o : fields) os :
  ∃ os', (_ ← write_with d r value; read_with r' d' (S fuel)) (alone o os) =
         Returned value (alone (Fields value true) os').
Proof. eexists. reflexivity. Qed.

Lemma read_starves r d : ∀ fuel (o : fields) os,
  the_ready o = false → read_with r d fuel (alone o os) = Starved.
Proof.
  induction fuel as [|fuel IH]; intros o os Ho; [done|].
  simpl. unfold_prog. simpl. rewrite Ho. simpl.
  specialize (IH o (r :: os) Ho). unfold alone in IH. by rewrite IH.
Qed.

End Demo.

(** X11.  [MemoryOrderingDemo], one thread: after [write_relaxed],
    [write_acq_rel] or [write_seq_cst] with [value], the matching reader
    returns [value] without waiting; on an object whose [ready_] is false a
    reader that runs alone never returns, whatever fuel it is given. *)
Theorem reader_returns_what_was_written (value : Z) (fuel : nat)
    (o : atomic_cpp.MemoryOrderingDemo.fields) (os : list memory_order) :
  ((∃ os', (_ ← atomic_cpp.MemoryOrderingDemo.write_relaxed value;
            atomic_cpp.MemoryOrderingDemo.read_relaxed (S fuel)) (alone o os) =
           Returned value
             (alone (atomic_cpp.MemoryOrderingDemo.Fields value true) os')) ∧
   (∃ os', (_ ← atomic_cpp.MemoryOrderingDemo.write_acq_rel value;
            atomic_cpp.MemoryOrderingDemo.read_acq_rel (S fuel)) (alone o os) =
           Returned value
             (alone (atomic_cpp.MemoryOrderingDemo.Fields value true) os')) ∧
   (∃ os', (_ ← atomic_cpp.MemoryOrderingDemo.write_seq_cst value;
            atomic_cpp.MemoryOrderingDemo.read_seq_cst (S fuel)) (alone o os) =
           Returned value
             (alone (atomic_cpp.MemoryOrderingDemo.Fields value true) os'))) ∧
  (atomic_cpp.MemoryOrderingDemo.the_ready o = false →
   atomic_cpp.MemoryOrderingDemo.read_relaxed fuel (alone o os) = Starved ∧
   atomic_cpp.MemoryOrderingDemo.read_acq_rel fuel (alone o os) = Starved ∧
   atomic_cpp.MemoryOrderingDemo.read_seq_cst fuel (alone o os) = Starved).
Proof.
  split; [split_and!; apply write_then_read|].
  intros Ho. split_and!; by apply read_starves.
Qed.

Lemma reader_returns_what_was_written_witness :
  atomic_cpp.MemoryOrderingDemo.the_ready
    atomic_cpp.MemoryOrderingDemo.construct = false ∧
  atomic_cpp.MemoryOrderingDemo.read_relaxed 5
    (alone atomic_cpp.MemoryOrderingDemo.construct []) = Starved ∧
  atomic_cpp.MemoryOrderingDemo.read_acq_rel 5
    (alone atomic_cpp.MemoryOrderingDemo.construct []) = Starved ∧
  atomic_cpp.MemoryOrderingDemo.read_seq_cst 5
    (alone atomic_cpp.MemoryOrderingDemo.construct []) = Starved.
Proof.
  split; [reflexivity|].
  apply (proj2 (reader_returns_what_was_written 42 5
                  atomic_cpp.MemoryOrderingDemo.construct [])).
  reflexivity.
Defined.

Section Lock.
Import atomic_cpp.Spinlock.

Lemma wait_held : ∀ fuel os, wait fuel (alone true os) = Starved.
Proof.
  induction fuel as [|fuel IH]; intros os; [done|].
  simpl. unfold_prog. simpl. specialize (IH (memory_order_relaxed :: os)).
  unfold alone in IH. by rewrite IH.
Qed.

Lemma lock_held : ∀ fuel os, lock fuel (alone true os) = Starved.
Proof.
  destruct fuel as [|fuel]; intros os; [done|].
  simpl. unfold_prog. simpl.
  pose proof (wait_held fuel (memory_order_acquire :: os)) as Hw.
  unfold alone in Hw. by rewrite Hw.
Qed.

Lemma lock_takes : ∀ fuel (r r' : run bool),
  lock fuel r = Returned tt r' → this r' = true.
Proof.
  induction fuel as [|fuel IH]; intros r r'; [done|].
  simpl. unfold mbind, prog_bind, then_.
  destruct (test_and_set flag_ memory_order_acquire r) as [held r1| |] eqn:Htas;
    [|done..].
  destruct held.
  - destruct (wait fuel r1) as [[] r2| |]; [|done..]. apply IH.
  - intros [= <-]. revert Htas. unfold_prog. simpl. by intros [= _ <-].
Qed.

Lemma wait_released : ∀ k fuel os,
  k < fuel →
  ∃ os', wait fuel (Run true os (replicate k id ++ [meanwhile unlock])) =
         Returned tt (alone false os').
Proof.
  induction k as [|k IH]; intros fuel os Hk;
    (destruct fuel as [|fuel]; [lia|]).
  - eexists. reflexivity.
  - destruct (IH fuel (memory_order_relaxed :: os)) as [os' Hw]; [lia|].
    exists os'. simpl. unfold_prog. simpl. unfold_prog. simpl in *. exact Hw.
Qed.

Lemma lock_released k fuel os :
  k < fuel →
  ∃ os', lock fuel (Run true os (replicate k id ++ [meanwhile unlock])) =
         Returned tt (alone true os').
Proof.
  intros Hk. destruct fuel as [|fuel]; [lia|].
  destruct k as [|k].
  - eexists. reflexivity.
  - destruct (wait_released k fuel (memory_order_acquire :: os)) as [os' Hw];
      [lia|].
    exists (memory_order_acquire :: os').
    change (lock (S fuel)
              (Run true os (replicate (S k) id ++ [meanwhile unlock])))
      with (match wait fuel (Run true (memory_order_acquire :: os)
                               (replicate k id ++ [meanwhile unlock])) with
            | Returned _ r' => lock fuel r'
            | Faulted => Faulted
            | Starved => Starved
            end).
    rewrite Hw. destruct fuel as [|fuel]; [lia|]. reflexivity.
Qed.

End Lock.

(** X12.  [Spinlock], no other thread running: [try_lock] returns true
    exactly when the flag was clear and leaves it set; [lock] on a free
    lock returns at once and leaves it set; [unlock] clears it; [lock] on a
    held lock never returns, so the lock is not reentrant.  Whatever the
    other threads do, the flag is set when [lock] returns. *)
Theorem spinlock_is_not_reentrant (fuel : nat) (held : bool)
    (os : list memory_order) :
  (∃ os', atomic_cpp.Spinlock.try_lock (alone held os) =
          Returned (negb held) (alone true os')) ∧
  (∃ os', atomic_cpp.Spinlock.lock (S fuel) (alone false os) =
          Returned tt (alone true os')) ∧
  (∃ os', atomic_cpp.Spinlock.unlock (alone held os) =
          Returned tt (alone false os')) ∧
  atomic_cpp.Spinlock.lock fuel (alone true os) = Starved ∧
  (∀ r r', atomic_cpp.Spinlock.lock fuel r = Returned tt r' → this r' = true).
Proof.
  split_and!.
  - eexists. reflexivity.
  - eexists. reflexivity.
  - eexists. reflexivity.
  - apply lock_held.
  - apply lock_takes.
Qed.

Lemma spinlock_is_not_reentrant_witness :
  atomic_cpp.Spinlock.lock 2 (Run true [] [meanwhile atomic_cpp.Spinlock.unlock]) =
    Returned tt (Run true [memory_order_acquire] []) ∧
  this (Run true [memory_order_acquire] [] : run bool) = true.
Proof.
  split; [reflexivity|].
  apply (proj2 (proj2 (proj2 (proj2 (spinlock_is_not_reentrant 2 true []))))
           (Run true [] [meanwhile atomic_cpp.Spinlock.unlock])).
  reflexivity.
Defined.

(** X13.  [Spinlock::lock] on a held lock returns once the holder has
    called [unlock]: if that happens before the [k+1]-th access of the
    waiting thread, fuel [k + 1] is enough, and the waiting thread then
    holds the lock. *)
Theorem lock_returns_once_released (k fuel : nat) (os : list memory_order) :
  k < fuel →
  ∃ os', atomic_cpp.Spinlock.lock fuel
           (Run true os (replicate k id ++ [meanwhile atomic_cpp.Spinlock.unlock])) =
         Returned tt (alone true os').
Proof. apply lock_released. Qed.

Lemma lock_returns_once_released_witness :
  3 < 4 ∧
  ∃ os', atomic_cpp.Spinlock.lock 4
           (Run true [] (replicate 3 id ++ [meanwhile atomic_cpp.Spinlock.unlock])) =
         Returned tt (alone true os').
Proof.
  split; [lia|]. apply (lock_returns_once_released 3 4 []). lia.
Defined.

Section RingProofs.
Import atomic_cpp.AtomicProducerConsumer.
Open Scope Z_scope.

Lemma item_at_set_eq q i it :
  0 ≤ i → (Z.to_nat i < length (the_buffer q))%nat →
  item_at (set_item q i it) i = Some it.
Proof.
  intros Hi Hlen. unfold item_at, set_item. simpl.
  rewrite decide_True by done. by apply list_lookup_insert_eq.
Qed.

Lemma item_at_set_ne q i j it :
  0 ≤ i → 0 ≤ j → i ≠ j → item_at (set_item q i it) j = item_at q j.
Proof.
  intros Hi Hj Hne. unfold item_at, set_item. simpl.
  rewrite !decide_True by done. apply list_lookup_insert_ne. lia.
Qed.

Lemma item_at_Some q i it :
  item_at q i = Some it → 0 ≤ i ∧ (Z.to_nat i < length (the_buffer q))%nat.
Proof.
  unfold item_at. case_decide; [|done]. intros Hs%lookup_lt_Some. done.
Qed.

Lemma construct_holds : holds construct [].
Proof.
  unfold holds, construct. cbn [the_read_pos the_write_pos the_buffer length].
  split; [unfold BUFFER_SIZE; lia|].
  split; [reflexivity|].
  split; [unfold BUFFER_SIZE; lia|].
  split; [apply length_replicate|].
  split; [done|].
  intros j Hj _. exists None. unfold item_at. cbn [the_buffer].
  rewrite decide_True by lia. apply lookup_replicate_2.
  unfold BUFFER_SIZE in *. lia.
Qed.

Lemma item_at_insert w r w' r' buf k it i :
  0 ≤ k → 0 ≤ i → (Z.to_nat k < length buf)%nat →
  item_at (Fields w r (<[Z.to_nat k := it]> buf)) i =
  if decide (i = k) then Some it else item_at (Fields w' r' buf) i.
Proof.
  intros Hk Hi Hlen. unfold item_at. cbn [the_buffer].
  destruct (decide (0 ≤ i)) as [_|]; [|done].
  case_decide as Hik.
  - subst i. by apply list_lookup_insert_eq.
  - apply list_lookup_insert_ne. lia.
Qed.

Lemma produce_run item w r buf it0 os :
  item_at (Fields w r buf) w = Some it0 →
  size_t_wrap (w + 1) `mod` BUFFER_SIZE ≠ r →
  produce item (alone (Fields w r buf) os) =
  Returned true
    (alone (Fields (size_t_wrap (w + 1) `mod` BUFFER_SIZE) r
                   (<[Z.to_nat w := MkItem true (Some item)]> buf))
           (memory_order_relaxed :: memory_order_release ::
            memory_order_acquire :: memory_order_relaxed :: os)).
Proof.
  intros Hit Hne. destruct (item_at_Some _ _ _ Hit) as [Hw Hlen].
  cbn [the_buffer] in Hlen. unfold produce.
  prog_step ltac:(by apply load_run). cbn [the_write_pos].
  prog_step ltac:(by apply load_run). cbn [the_read_pos].
  rewrite decide_False by done.
  prog_step ltac:(apply write_run; cbn [poke data_of]; rewrite Hit; reflexivity).
  prog_step ltac:(apply store_run; cbn [poke ready_of];
                  rewrite item_at_set_eq by done; reflexivity).
  prog_step ltac:(by apply store_run).
  unfold set_item. cbn [the_write_pos the_read_pos the_buffer item_data].
  rewrite list_insert_insert_eq. reflexivity.
Qed.

Lemma produce_full_run item w r buf os :
  size_t_wrap (w + 1) `mod` BUFFER_SIZE = r →
  produce item (alone (Fields w r buf) os) =
  Returned false
    (alone (Fields w r buf) (memory_order_acquire :: memory_order_relaxed :: os)).
Proof.
  intros Heq. unfold produce.
  prog_step ltac:(by apply load_run). cbn [the_write_pos].
  prog_step ltac:(by apply load_run). cbn [the_read_pos].
  rewrite decide_True by done. reflexivity.
Qed.

Lemma consume_none_run item w r buf d os :
  item_at (Fields w r buf) r = Some (MkItem false d) →
  consume item (alone (Fields w r buf) os) =
  Returned (false, item)
    (alone (Fields w r buf) (memory_order_acquire :: memory_order_relaxed :: os)).
Proof.
  intros Hit. unfold consume.
  prog_step ltac:(by apply load_run). cbn [the_read_pos].
  prog_step ltac:(apply load_run; cbn [peek ready_of]; rewrite Hit; reflexivity).
  reflexivity.
Qed.

Lemma consume_some_run item w r buf x os :
  item_at (Fields w r buf) r = Some (MkItem true (Some x)) →
  consume item (alone (Fields w r buf) os) =
  Returned (true, x)
    (alone (Fields w (size_t_wrap (r + 1) `mod` BUFFER_SIZE)
                   (<[Z.to_nat r := MkItem false (Some x)]> buf))
           (memory_order_release :: memory_order_relaxed ::
            memory_order_acquire :: memory_order_relaxed :: os)).
Proof.
  intros Hit. destruct (item_at_Some _ _ _ Hit) as [Hr Hlen].
  unfold consume.
  prog_step ltac:(by apply load_run). cbn [the_read_pos].
  prog_step ltac:(apply load_run; cbn [peek ready_of]; rewrite Hit; reflexivity).
  cbn [negb item_ready].
  prog_step ltac:(apply read_run; cbn [peek data_of]; rewrite Hit; reflexivity).
  prog_step ltac:(apply store_run; cbn [poke ready_of]; rewrite Hit; reflexivity).
  prog_step ltac:(by apply store_run).
  reflexivity.
Qed.

Lemma size_run w r buf os :
  size (alone (Fields w r buf) os) =
  Returned (if decide (r ≤ w) then size_t_wrap (w - r)
            else size_t_wrap (size_t_wrap (BUFFER_SIZE - r) + w))
    (alone (Fields w r buf) (memory_order_relaxed :: memory_order_relaxed :: os)).
Proof.
  unfold size.
  prog_step ltac:(by apply load_run). cbn [the_write_pos].
  prog_step ltac:(by apply load_run). cbn [the_read_pos].
  case_decide; reflexivity.
Qed.

(** Arithmetic modulo [BUFFER_SIZE]. *)
Ltac ring_arith :=
  unfold size_t_wrap, BUFFER_SIZE in *; Z.div_mod_to_equations; lia.

Lemma produce_room item q xs os :
  holds q xs → Z.of_nat (length xs) < BUFFER_SIZE - 1 →
  ∃ q' os', produce item (alone q os) = Returned true (alone q' os') ∧
            holds q' (xs ++ [item]).
Proof.
  intros (Hr & Hw & Hlen & Hbuf & Hfull & Hfree) Hroom.
  destruct q as [w r buf]; cbn [the_write_pos the_read_pos the_buffer] in *.
  assert (0 ≤ w < BUFFER_SIZE) as Hwr by (subst w; ring_arith).
  destruct (Hfree w) as [d Hd]; [done|subst w; ring_arith|].
  eexists _, _. split.
  { eapply produce_run; [exact Hd|]. subst w. ring_arith. }
  assert (Z.to_nat w < length buf)%nat as Hwl.
  { rewrite Hbuf. unfold BUFFER_SIZE in *. lia. }
  unfold holds. cbn [the_write_pos the_read_pos the_buffer].
  split; [done|]. split; [rewrite length_app; simpl; subst w; ring_arith|].
  split; [rewrite length_app; simpl; lia|].
  split; [by rewrite length_insert|]. split.
  - intros i x Hx.
    rewrite (item_at_insert _ _ w r) by (done || ring_arith).
    apply lookup_snoc_Some in Hx as [[Hi Hx]|[-> ->]].
    + rewrite decide_False; [by apply Hfull|].
      subst w. apply lookup_lt_Some in Hx. ring_arith.
    + rewrite decide_True; [done|]. by subst w.
  - intros j Hj Hge. rewrite length_app in Hge. simpl in Hge.
    rewrite (item_at_insert _ _ w r) by (done || lia).
    rewrite decide_False; [apply Hfree; [done|lia]|].
    intros ->. subst w. ring_arith.
Qed.

Lemma produce_full item q xs os :
  holds q xs → Z.of_nat (length xs) = BUFFER_SIZE - 1 →
  ∃ os', produce item (alone q os) = Returned false (alone q os').
Proof.
  intros (Hr & Hw & Hlen & Hbuf & Hfull & Hfree) Hroom.
  destruct q as [w r buf]; cbn [the_write_pos the_read_pos the_buffer] in *.
  eexists. apply produce_full_run. subst w. ring_arith.
Qed.

Lemma consume_none item q os :
  holds q [] →
  ∃ os', consume item (alone q os) = Returned (false, item) (alone q os').
Proof.
  intros (Hr & Hw & Hlen & Hbuf & Hfull & Hfree).
  destruct q as [w r buf]; cbn [the_write_pos the_read_pos the_buffer] in *.
  destruct (Hfree r) as [d Hd]; [done|simpl; ring_arith|].
  eexists. eapply consume_none_run. exact Hd.
Qed.

Lemma consume_some item q x xs os :
  holds q (x :: xs) →
  ∃ q' os', consume item (alone q os) = Returned (true, x) (alone q' os') ∧
            holds q' xs.
Proof.
  intros (Hr & Hw & Hlen & Hbuf & Hfull & Hfree).
  destruct q as [w r buf]; cbn [the_write_pos the_read_pos the_buffer] in *.
  simpl length in *.
  assert (item_at (Fields w r buf) r = Some (MkItem true (Some x))) as Hx.
  { specialize (Hfull O x eq_refl). change (Z.of_nat 0) with 0 in Hfull.
    replace ((r + 0) `mod` BUFFER_SIZE) with r in Hfull by ring_arith. done. }
  eexists _, _. split; [by eapply consume_some_run|].
  assert (Z.to_nat r < length buf)%nat as Hrl.
  { rewrite Hbuf. unfold BUFFER_SIZE in *. lia. }
  unfold holds. cbn [the_write_pos the_read_pos the_buffer].
  split; [ring_arith|]. split; [subst w; ring_arith|].
  split; [lia|]. split; [by rewrite length_insert|]. split.
  - intros i y Hy.
    rewrite (item_at_insert _ _ w r) by (done || ring_arith).
    rewrite decide_False.
    + specialize (Hfull (S i) y Hy).
      replace ((size_t_wrap (r + 1) `mod` BUFFER_SIZE + Z.of_nat i) `mod` BUFFER_SIZE)
        with ((r + Z.of_nat (S i)) `mod` BUFFER_SIZE) by ring_arith.
      done.
    + apply lookup_lt_Some in Hy. ring_arith.
  - intros j Hj Hge.
    rewrite (item_at_insert _ _ w r) by (done || lia).
    case_decide; [eauto|]. apply Hfree; [done|]. ring_arith.
Qed.

Lemma size_counts q xs os :
  holds q xs →
  ∃ os', size (alone q os) = Returned (Z.of_nat (length xs)) (alone q os').
Proof.
  intros (Hr & Hw & Hlen & Hbuf & Hfull & Hfree).
  destruct q as [w r buf]; cbn [the_write_pos the_read_pos the_buffer] in *.
  eexists. rewrite size_run. do 2 f_equal.
  case_decide; subst w; ring_arith.
Qed.

Lemma holds_bound q xs : holds q xs → Z.of_nat (length xs) ≤ BUFFER_SIZE - 1.
Proof. intros (_ & _ & ? & _). lia. Qed.

Lemma ring_perform_spec item c q xs os :
  holds q xs →
  ∃ q' os', ring_perform item c (alone q os) =
              Returned (ring_model c xs).1 (alone q' os') ∧
            holds q' (ring_model c xs).2.
Proof.
  intros Hq. destruct c as [v| |]; simpl.
  - case_decide as Hroom.
    + destruct (produce_room v q xs os Hq Hroom) as (q' & os' & Hrun & Hq').
      exists q', os'. split; [|done].
      prog_step ltac:(exact Hrun). reflexivity.
    + destruct (produce_full v q xs os Hq) as (os' & Hrun).
      { apply holds_bound in Hq. lia. }
      exists q, os'. split; [|done].
      prog_step ltac:(exact Hrun). reflexivity.
  - destruct xs as [|x xs].
    + destruct (consume_none item q os Hq) as (os' & Hrun).
      exists q, os'. split; [|done].
      prog_step ltac:(exact Hrun). reflexivity.
    + destruct (consume_some item q x xs os Hq) as (q' & os' & Hrun & Hq').
      exists q', os'. split; [|done].
      prog_step ltac:(exact Hrun). reflexivity.
  - destruct (size_counts q xs os Hq) as (os' & Hrun).
    exists q, os'. split; [|done].
    prog_step ltac:(exact Hrun). reflexivity.
Qed.

Lemma ring_run item : ∀ cs q xs os,
  holds q xs →
  ∃ q' os', sequence (ring_perform item <$> cs) (alone q os) =
            Returned (ring_model_run cs xs) (alone q' os').
Proof.
  induction cs as [|c cs IH]; intros q xs os Hq.
  - exists q, os. reflexivity.
  - destruct (ring_perform_spec item c q xs os Hq) as (q1 & os1 & Hrun & Hq1).
    destruct (IH q1 _ os1 Hq1) as (q' & os' & Hrest).
    exists q', os'. rewrite fmap_cons. simpl ring_model_run.
    eapply sequence_cons; [exact Hrun|exact Hrest].
Qed.

Lemma ring_run_end item : ∀ cs q xs os,
  holds q xs →
  ∃ q' os', sequence (ring_perform item <$> cs) (alone q os) =
            Returned (ring_model_run cs xs) (alone q' os') ∧
            holds q' (ring_model_end cs xs).
Proof.
  induction cs as [|c cs IH]; intros q xs os Hq.
  - exists q, os. split; [reflexivity|done].
  - destruct (ring_perform_spec item c q xs os Hq) as (q1 & os1 & Hrun & Hq1).
    destruct (IH q1 _ os1 Hq1) as (q' & os' & Hrest & Hq').
    exists q', os'. split; [|done]. rewrite fmap_cons. simpl ring_model_run.
    eapply sequence_cons; [exact Hrun|exact Hrest].
Qed.

Lemma ring_wrapped_holds : holds ring_wrapped [8; 9].
Proof.
  destruct (ring_run_end 0
              (concat (replicate 1023 [Produce 0; Consume]) ++
               [Produce 8; Produce 9]) construct [] [] construct_holds)
    as (q' & os' & Hrun & Hq').
  unfold ring_wrapped, meanwhile.
  change (Run construct [] []) with (alone construct []).
  rewrite Hrun. cbn [this alone].
  assert (ring_model_end
            (concat (replicate 1023 [Produce 0; Consume]) ++
             [Produce 8; Produce 9]) [] = [8; 9]) as E
    by (vm_compute; reflexivity).
  by rewrite E in Hq'.
Qed.

Lemma ring_wrapped_positions :
  the_read_pos ring_wrapped = 1023 ∧ the_write_pos ring_wrapped = 1.
Proof. split; vm_compute; reflexivity. Qed.

End RingProofs.

(** X14.  [AtomicProducerConsumer::produce] on a buffer that holds [xs]:
    the buffer never holds more than [BUFFER_SIZE - 1] items; with fewer,
    [produce] returns true and the buffer holds [xs] followed by the item;
    with [BUFFER_SIZE - 1] it returns false and changes nothing. *)
Theorem produce_appends_unless_full (item : Z)
    (q : atomic_cpp.AtomicProducerConsumer.fields) (xs : list Z)
    (os : list memory_order) :
  holds q xs →
  (Z.of_nat (length xs) ≤ atomic_cpp.AtomicProducerConsumer.BUFFER_SIZE - 1)%Z ∧
  ((Z.of_nat (length xs) < atomic_cpp.AtomicProducerConsumer.BUFFER_SIZE - 1)%Z →
   ∃ q' os',
     atomic_cpp.AtomicProducerConsumer.produce item (alone q os) =
       Returned true (alone q' os') ∧
     holds q' (xs ++ [item])) ∧
  ((Z.of_nat (length xs) = atomic_cpp.AtomicProducerConsumer.BUFFER_SIZE - 1)%Z →
   ∃ os',
     atomic_cpp.AtomicProducerConsumer.produce item (alone q os) =
       Returned false (alone q os')).
Proof.
  intros Hq. split_and!.
  - by apply (holds_bound q).
  - by apply produce_room.
  - by apply produce_full.
Qed.

Lemma produce_appends_unless_full_witness :
  holds atomic_cpp.AtomicProducerConsumer.construct [] ∧
  (Z.of_nat (length (@nil Z)) < atomic_cpp.AtomicProducerConsumer.BUFFER_SIZE - 1)%Z ∧
  ∃ q' os',
    atomic_cpp.AtomicProducerConsumer.produce 5
      (alone atomic_cpp.AtomicProducerConsumer.construct []) =
      Returned true (alone q' os') ∧
    holds q' ([] ++ [5%Z]).
Proof.
  split; [exact construct_holds|]. split; [reflexivity|].
  apply (proj1 (proj2 (produce_appends_unless_full 5
                  atomic_cpp.AtomicProducerConsumer.construct [] []
                  construct_holds))).
  reflexivity.
Defined.

(** X15.  [AtomicProducerConsumer::consume]: on an empty buffer it returns
    false and changes neither the buffer nor [item]; on a buffer that holds
    [x :: xs'] it returns true with [x] and the buffer holds [xs']. *)
Theorem consume_takes_the_oldest (item : Z)
    (q : atomic_cpp.AtomicProducerConsumer.fields) (xs : list Z)
    (os : list memory_order) :
  holds q xs →
  match xs with
  | [] =>
      ∃ os', atomic_cpp.AtomicProducerConsumer.consume item (alone q os) =
             Returned (false, item) (alone q os')
  | x :: xs' =>
      ∃ q' os', atomic_cpp.AtomicProducerConsumer.consume item (alone q os) =
                  Returned (true, x) (alone q' os') ∧
                holds q' xs'
  end.
Proof.
  intros Hq. destruct xs as [|x xs].
  - by apply consume_none.
  - by apply consume_some.
Qed.

Lemma consume_takes_the_oldest_witness :
  holds ring_wrapped [8; 9]%Z ∧
  ∃ q' os', atomic_cpp.AtomicProducerConsumer.consume 3
              (alone ring_wrapped []) = Returned (true, 8%Z) (alone q' os') ∧
            holds q' [9%Z].
Proof.
  split; [exact ring_wrapped_holds|].
  apply (consume_takes_the_oldest 3 ring_wrapped [8; 9]%Z []
           ring_wrapped_holds).
Defined.

(** X16.  [AtomicProducerConsumer::size] returns the number of items the
    buffer holds, also when they wrap round the end of the array, and
    changes nothing. *)
Theorem size_counts_the_items
    (q : atomic_cpp.AtomicProducerConsumer.fields) (xs : list Z)
    (os : list memory_order) :
  holds q xs →
  ∃ os', atomic_cpp.AtomicProducerConsumer.size (alone q os) =
         Returned (Z.of_nat (length xs)) (alone q os').
Proof. apply size_counts. Qed.

Lemma size_counts_the_items_witness :
  holds ring_wrapped [8; 9]%Z ∧
  (atomic_cpp.AtomicProducerConsumer.the_read_pos ring_wrapped = 1023 ∧
   atomic_cpp.AtomicProducerConsumer.the_write_pos ring_wrapped = 1)%Z ∧
  ∃ os', atomic_cpp.AtomicProducerConsumer.size (alone ring_wrapped []) =
         Returned (Z.of_nat (length [8; 9]%Z)) (alone ring_wrapped os').
Proof.
  split; [exact ring_wrapped_holds|]. split; [exact ring_wrapped_positions|].
  apply (size_counts_the_items ring_wrapped [8; 9]%Z [] ring_wrapped_holds).
Defined.

(** X17.  Whatever calls of [produce], [consume] and [size] one thread
    makes on a new [AtomicProducerConsumer], each of them returns (no index
    leaves the array, no [data] is read before it is written) and the
    caller sees what a first-in first-out queue of capacity
    [BUFFER_SIZE - 1] would show. *)
Theorem ring_buffer_is_a_bounded_queue (item : Z) (cs : list ring_call)
    (os : list memory_order) :
  ∃ q' os',
    sequence (ring_perform item <$> cs)
      (alone atomic_cpp.AtomicProducerConsumer.construct os) =
    Returned (ring_model_run cs []) (alone q' os').
Proof. apply ring_run, construct_holds. Qed.

Section SharedPtr.
Import atomic_cpp.AtomicSharedPtr.
Context {T : Type}.

Implicit Types (w : world T) (ptrs : gmap positive (option positive)).

Lemma owners_delete ptrs p cb :
  size (filter (holder cb) (delete p ptrs)) +
    (if decide (ptrs !! p = Some (Some cb)) then 1 else 0) =
  size (filter (holder cb) ptrs).
Proof.
  rewrite map_filter_delete, map_size_delete.
  destruct (filter (holder cb) ptrs !! p) as [y|] eqn:Hy.
  - apply map_lookup_filter_Some in Hy as [Hp Hy]. simpl in Hy. subst y.
    rewrite decide_True by done.
    assert (size (filter (holder cb) ptrs) ≠ 0).
    { apply (map_size_ne_0_lookup_2 _ p). exists (Some cb).
      by apply map_lookup_filter_Some. }
    lia.
  - rewrite decide_False; [simpl; lia|]. intros Hp.
    assert (filter (holder cb) ptrs !! p = Some (Some cb)) as Hf
      by (by apply map_lookup_filter_Some).
    congruence.
Qed.

Lemma owners_insert ptrs p v cb :
  size (filter (holder cb) (<[p:=v]> ptrs)) +
    (if decide (ptrs !! p = Some (Some cb)) then 1 else 0) =
  size (filter (holder cb) ptrs) + (if decide (v = Some cb) then 1 else 0).
Proof.
  rewrite <- (owners_delete ptrs p cb).
  rewrite <- (insert_delete_eq ptrs).
  rewrite map_filter_insert. cbn [snd].
  case_decide as Hv.
  - rewrite map_size_insert_None; [lia|].
    apply map_lookup_filter_None. left. apply lookup_delete_eq.
  - rewrite delete_delete_eq. lia.
Qed.

Lemma owners_none ptrs cb :
  (∀ p, ptrs !! p ≠ Some (Some cb)) → size (filter (holder cb) ptrs) = 0.
Proof.
  intros Hno. apply map_size_empty_iff, map_empty. intros p.
  apply map_lookup_filter_None. right. intros y Hy ?; simplify_eq/=.
  by apply (Hno p).
Qed.

Lemma owners_some ptrs p cb :
  ptrs !! p = Some (Some cb) → 0 < size (filter (holder cb) ptrs).
Proof.
  intros Hp.
  assert (size (filter (holder cb) ptrs) ≠ 0); [|lia].
  apply (map_size_ne_0_lookup_2 _ p). exists (Some cb).
  by apply map_lookup_filter_Some.
Qed.

Lemma sound_begin w p :
  sound w → pointers w !! p = None →
  sound (World (objects w) (blocks w) (<[p := None]> (pointers w))).
Proof.
  intros (S1 & S2 & S3) Hp. split_and!; cbn [pointers blocks objects].
  - intros p' cb Hp'. apply lookup_insert_Some in Hp' as [[_ ?]|[_ Hp']]; [done|].
    by eapply S1.
  - intros cb b Hb. destruct (S2 cb b Hb) as (Hn & Hpos & Hl).
    split; [|done]. rewrite Hn. unfold owners. cbn [pointers].
    pose proof (owners_insert (pointers w) p None cb) as Ho.
    rewrite Hp in Ho. rewrite !decide_False in Ho by done. lia.
  - exact S3.
Qed.

Lemma sound_end w p :
  sound w → pointers w !! p = Some None →
  sound (World (objects w) (blocks w) (delete p (pointers w))).
Proof.
  intros (S1 & S2 & S3) Hp. split_and!; cbn [pointers blocks objects].
  - intros p' cb Hp'. apply lookup_delete_Some in Hp' as [_ Hp'].
    by eapply S1.
  - intros cb b Hb. destruct (S2 cb b Hb) as (Hn & Hpos & Hl).
    split; [|done]. rewrite Hn. unfold owners. cbn [pointers].
    pose proof (owners_delete (pointers w) p cb) as Ho.
    rewrite Hp in Ho. rewrite decide_False in Ho by done. lia.
  - exact S3.
Qed.

Lemma sound_attach w p cb q n :
  sound w → pointers w !! p = Some None →
  blocks w !! cb = Some (Block q n) → (n + 1 < 2 ^ 31)%Z →
  sound (World (objects w) (<[cb := Block q (n + 1)]> (blocks w))
               (<[p := Some cb]> (pointers w))).
Proof.
  intros (S1 & S2 & S3) Hp Hcb Hn. split_and!; cbn [pointers blocks objects].
  - intros p' c Hp'. apply lookup_insert_is_Some'.
    apply lookup_insert_Some in Hp' as [[_ [= <-]]|[_ Hp']]; [by left|].
    right. by eapply S1.
  - intros c b Hb. unfold owners. cbn [pointers].
    pose proof (owners_insert (pointers w) p (Some cb) c) as Ho.
    rewrite Hp in Ho. rewrite (decide_False (P := Some None = _)) in Ho by done.
    apply lookup_insert_Some in Hb as [[<- <-]|[Hne Hb]].
    + destruct (S2 cb _ Hcb) as (Hc & Hpos & Hl). cbn [cb_ref_count cb_ptr] in *.
      rewrite decide_True in Ho by done. unfold owners in Hc.
      split_and!; [lia|lia|lia|done].
    + destruct (S2 c b Hb) as (Hc & Hpos & Hl).
      rewrite decide_False in Ho by congruence. unfold owners in Hc.
      split_and!; [lia|lia|lia|done].
  - intros c1 c2 b1 b2 H1 H2 Heq.
    assert (∀ c b, <[cb:=Block q (n + 1)%Z]> (blocks w) !! c = Some b →
              ∃ b0, blocks w !! c = Some b0 ∧ cb_ptr b0 = cb_ptr b) as Hback.
    { intros c b Hb. apply lookup_insert_Some in Hb as [[<- <-]|[_ Hb]]; eauto. }
    destruct (Hback _ _ H1) as (b1' & H1' & E1).
    destruct (Hback _ _ H2) as (b2' & H2' & E2).
    eapply S3; [exact H1'|exact H2'|congruence].
Qed.

Lemma sound_detach w p cb q n :
  sound w → pointers w !! p = Some (Some cb) →
  blocks w !! cb = Some (Block q n) → n ≠ 1%Z →
  sound (World (objects w) (<[cb := Block q (n - 1)]> (blocks w))
               (<[p := None]> (pointers w))).
Proof.
  intros (S1 & S2 & S3) Hp Hcb Hn. split_and!; cbn [pointers blocks objects].
  - intros p' c Hp'. apply lookup_insert_is_Some'.
    apply lookup_insert_Some in Hp' as [[_ ?]|[_ Hp']]; [done|].
    right. by eapply S1.
  - intros c b Hb. unfold owners. cbn [pointers].
    pose proof (owners_insert (pointers w) p None c) as Ho.
    rewrite Hp in Ho. rewrite (decide_False (P := None = _)) in Ho by done.
    apply lookup_insert_Some in Hb as [[<- <-]|[Hne Hb]].
    + destruct (S2 cb _ Hcb) as (Hc & Hpos & Hl). cbn [cb_ref_count cb_ptr] in *.
      rewrite decide_True in Ho by done. unfold owners in Hc.
      split_and!; [lia|lia|lia|done].
    + destruct (S2 c b Hb) as (Hc & Hpos & Hl).
      rewrite decide_False in Ho by congruence. unfold owners in Hc.
      split_and!; [lia|lia|lia|done].
  - intros c1 c2 b1 b2 H1 H2 Heq.
    assert (∀ c b, <[cb:=Block q (n - 1)%Z]> (blocks w) !! c = Some b →
              ∃ b0, blocks w !! c = Some b0 ∧ cb_ptr b0 = cb_ptr b) as Hback.
    { intros c b Hb. apply lookup_insert_Some in Hb as [[<- <-]|[_ Hb]]; eauto. }
    destruct (Hback _ _ H1) as (b1' & H1' & E1).
    destruct (Hback _ _ H2) as (b2' & H2' & E2).
    eapply S3; [exact H1'|exact H2'|congruence].
Qed.

Lemma sound_detach_last w p cb l :
  sound w → pointers w !! p = Some (Some cb) →
  blocks w !! cb = Some (Block (Some l) 1) →
  sound (World (delete l (objects w)) (delete cb (blocks w))
               (<[p := None]> (pointers w))).
Proof.
  intros (S1 & S2 & S3) Hp Hcb.
  assert (∀ p', <[p:=None]> (pointers w) !! p' ≠ Some (Some cb)) as Hgone.
  { intros p' Hp'.
    pose proof (owners_insert (pointers w) p None cb) as Ho.
    rewrite Hp in Ho. rewrite decide_True, decide_False in Ho by done.
    destruct (S2 cb _ Hcb) as (Hc & _). cbn [cb_ref_count] in Hc.
    unfold owners in Hc.
    pose proof (owners_some _ _ _ Hp'). lia. }
  split_and!; cbn [pointers blocks objects].
  - intros p' c Hp'.
    assert (c ≠ cb) as Hne by (intros ->; by apply (Hgone p')).
    rewrite lookup_delete_ne by done.
    apply lookup_insert_Some in Hp' as [[_ ?]|[_ Hp']]; [done|].
    by eapply S1.
  - intros c b Hb. apply lookup_delete_Some in Hb as [Hne Hb].
    destruct (S2 c b Hb) as (Hc & Hpos & l' & Hl' & Hobj).
    unfold owners in *. cbn [pointers].
    pose proof (owners_insert (pointers w) p None c) as Ho.
    rewrite Hp in Ho. rewrite !decide_False in Ho by congruence.
    split_and!; [lia|lia|lia|].
    exists l'. split; [done|]. rewrite lookup_delete_ne; [done|].
    intros <-. apply Hne. eapply S3; [exact Hcb|exact Hb|]. by rewrite Hl'.
  - intros c1 c2 b1 b2 H1 H2 Heq.
    apply lookup_delete_Some in H1 as [_ H1].
    apply lookup_delete_Some in H2 as [_ H2]. by eapply S3.
Qed.

Lemma sound_adopt w p cb l :
  sound w → pointers w !! p = Some None → blocks w !! cb = None →
  is_Some (objects w !! l) → unmanaged w l →
  sound (World (objects w) (<[cb := Block (Some l) 1]> (blocks w))
               (<[p := Some cb]> (pointers w))).
Proof.
  intros (S1 & S2 & S3) Hp Hcb Hl Hun. split_and!; cbn [pointers blocks objects].
  - intros p' c Hp'. apply lookup_insert_is_Some'.
    apply lookup_insert_Some in Hp' as [[_ [= <-]]|[_ Hp']]; [by left|].
    right. by eapply S1.
  - intros c b Hb. unfold owners. cbn [pointers].
    pose proof (owners_insert (pointers w) p (Some cb) c) as Ho.
    rewrite Hp in Ho. rewrite (decide_False (P := Some None = _)) in Ho by done.
    apply lookup_insert_Some in Hb as [[<- <-]|[Hne Hb]].
    + cbn [cb_ref_count cb_ptr]. rewrite decide_True in Ho by done.
      rewrite (owners_none (pointers w) cb) in Ho.
      * split_and!; [lia|lia|lia|eauto].
      * intros p' Hp'. destruct (S1 _ _ Hp') as [? ?]. congruence.
    + destruct (S2 c b Hb) as (Hc & Hpos & Hl').
      rewrite decide_False in Ho by congruence. unfold owners in Hc.
      split_and!; [lia|lia|lia|done].
  - intros c1 c2 b1 b2 H1 H2 Heq.
    apply lookup_insert_Some in H1 as [[<- <-]|[Hn1 H1]];
      apply lookup_insert_Some in H2 as [[<- <-]|[Hn2 H2]].
    + done.
    + exfalso. eapply Hun; [exact H2|]. by rewrite <- Heq.
    + exfalso. eapply Hun; [exact H1|]. by rewrite Heq.
    + by eapply S3.
Qed.

Lemma world_eta w : World (objects w) (blocks w) (pointers w) = w.
Proof. by destruct w. Qed.

Lemma begin_run w p os :
  begin_lifetime p (alone w os) =
  Returned tt
    (alone (World (objects w) (blocks w) (<[p := None]> (pointers w))) os).
Proof. reflexivity. Qed.

Lemma new_block_run w q os :
  new_ControlBlock q (alone w os) =
  Returned (fresh (dom (blocks w)))
    (alone (World (objects w)
                  (<[fresh (dom (blocks w)) := Block q 1]> (blocks w))
                  (pointers w)) os).
Proof. reflexivity. Qed.

Lemma attach_run w p a c q n os :
  pointers w !! p = Some a → blocks w !! c = Some (Block q n) →
  (- 2 ^ 31 ≤ n + 1 < 2 ^ 31)%Z →
  (_ ← fetch_add int_wrap (ref_count_of c) 1 sc;
   store (control_block_ p) (Some c) sc) (alone w os) =
  Returned tt
    (alone (World (objects w) (<[c := Block q (n + 1)]> (blocks w))
                  (<[p := Some c]> (pointers w)))
           (sc :: sc :: os)).
Proof.
  intros Hp Hc Hn.
  prog_step ltac:(apply rmw_run; cbn [peek poke ref_count_of];
                  rewrite Hc; reflexivity).
  cbn [cb_ptr].
  erewrite store_run; [|cbn [poke control_block_ pointers]; rewrite Hp;
                          reflexivity].
  cbn [objects blocks pointers]. rewrite int_wrap_id by done. reflexivity.
Qed.

Lemma release_empty w p os :
  pointers w !! p = Some None →
  release p (alone w os) = Returned tt (alone w (sc :: sc :: os)).
Proof.
  intros Hp. unfold release.
  prog_step ltac:(by apply load_run).
  rewrite ret_bind.
  erewrite store_run; [|cbn [poke control_block_]; rewrite Hp; reflexivity].
  rewrite insert_id by done. by rewrite world_eta.
Qed.

Lemma release_shared w p c q n os :
  pointers w !! p = Some (Some c) → blocks w !! c = Some (Block q n) →
  n ≠ 1%Z → (- 2 ^ 31 ≤ n - 1 < 2 ^ 31)%Z →
  release p (alone w os) =
  Returned tt
    (alone (World (objects w) (<[c := Block q (n - 1)]> (blocks w))
                  (<[p := None]> (pointers w)))
           (sc :: sc :: sc :: os)).
Proof.
  intros Hp Hc Hne Hn. unfold release.
  prog_step ltac:(by apply load_run).
  rewrite bind_assoc.
  prog_step ltac:(apply rmw_run; cbn [peek poke ref_count_of];
                  rewrite Hc; reflexivity).
  rewrite decide_False by done. rewrite ret_bind. cbn [cb_ptr].
  erewrite store_run; [|cbn [poke control_block_ pointers]; rewrite Hp;
                          reflexivity].
  cbn [objects blocks pointers]. rewrite int_wrap_id by done. reflexivity.
Qed.

Lemma release_last w p c l v os :
  pointers w !! p = Some (Some c) → blocks w !! c = Some (Block (Some l) 1) →
  objects w !! l = Some v →
  release p (alone w os) =
  Returned tt
    (alone (World (delete l (objects w)) (delete c (blocks w))
                  (<[p := None]> (pointers w)))
           (sc :: sc :: sc :: os)).
Proof.
  intros Hp Hc Hl. unfold release.
  prog_step ltac:(by apply load_run).
  rewrite bind_assoc.
  prog_step ltac:(apply rmw_run; cbn [peek poke ref_count_of];
                  rewrite Hc; reflexivity).
  rewrite decide_True by done. rewrite !bind_assoc. cbn [cb_ptr].
  prog_step ltac:(apply read_run; cbn [peek ptr_of blocks];
                  rewrite lookup_insert_eq; reflexivity).
  cbn [cb_ptr]. rewrite bind_assoc. unfold delete_object.
  prog_step ltac:(apply access_run; cbn [objects]; rewrite Hl; reflexivity).
  unfold delete_block.
  prog_step ltac:(apply access_run; cbn [blocks];
                  rewrite lookup_insert_eq; reflexivity).
  erewrite store_run; [|cbn [poke control_block_ pointers]; rewrite Hp;
                          reflexivity].
  cbn [objects blocks pointers]. rewrite delete_insert_eq. reflexivity.
Qed.

Lemma release_spec w p a os :
  sound w → pointers w !! p = Some a →
  ∃ w' os', release p (alone w os) = Returned tt (alone w' os') ∧
            sound w' ∧ pointers w' = <[p := None]> (pointers w) ∧
            released w w' a.
Proof.
  intros Hs Hp. destruct a as [c|].
  - destruct Hs as (S1 & S2 & S3).
    destruct (S1 p c Hp) as [[q n] Hc].
    destruct (S2 c _ Hc) as (Hn & Hpos & l & Hq & [v Hl]).
    cbn [cb_ref_count cb_ptr] in *. subst q.
    assert (sound w) as Hs by done.
    destruct (decide (n = 1%Z)) as [->|Hne].
    + eexists _, _. split; [by eapply release_last|].
      split; [by apply sound_detach_last|]. split; [done|].
      exists l, 1%Z. split; [done|]. by rewrite decide_True.
    + eexists _, _. split; [eapply release_shared; eauto; lia|].
      split; [by apply sound_detach|]. split; [done|].
      exists l, n. split; [done|]. by rewrite decide_False.
  - exists w, (sc :: sc :: os). split; [by apply release_empty|].
    split; [done|]. split; [by rewrite insert_id|]. done.
Qed.

Lemma destroy_spec w p a os :
  sound w → pointers w !! p = Some a →
  ∃ w' os', destroy p (alone w os) = Returned tt (alone w' os') ∧
            sound w' ∧ pointers w' = delete p (pointers w) ∧
            released w w' a.
Proof.
  intros Hs Hp.
  destruct (release_spec w p a os Hs Hp) as (w1 & os1 & Hrun & Hs1 & Hp1 & Hrel).
  assert (pointers w1 !! p = Some None) as Hp1'
    by (by rewrite Hp1, lookup_insert_eq).
  eexists _, _. split.
  { unfold destroy. prog_step ltac:(exact Hrun). unfold end_lifetime.
    apply access_run. rewrite Hp1'. reflexivity. }
  split; [by apply sound_end|].
  cbn [pointers objects blocks]. split; [by rewrite Hp1, delete_insert_eq|].
  destruct a as [c|]; exact Hrel.
Qed.

Lemma shared_construct_spec w p os :
  sound w → pointers w !! p = None →
  ∃ w' os', construct p (alone w os) = Returned tt (alone w' os') ∧
            sound w' ∧ pointers w' = <[p := None]> (pointers w) ∧
            objects w' = objects w ∧ blocks w' = blocks w.
Proof.
  intros Hs Hp. eexists _, _. split; [reflexivity|].
  split; [by apply sound_begin|]. done.
Qed.

Lemma construct_from_spec w p l os :
  sound w → pointers w !! p = None →
  is_Some (objects w !! l) → unmanaged w l →
  ∃ cb w' os',
    construct_from p (Some l) (alone w os) = Returned tt (alone w' os') ∧
    sound w' ∧ blocks w !! cb = None ∧
    pointers w' = <[p := Some cb]> (pointers w) ∧
    blocks w' = <[cb := Block (Some l) 1]> (blocks w) ∧
    objects w' = objects w.
Proof.
  intros Hs Hp Hl Hun.
  set (cb := fresh (dom (blocks w))).
  assert (blocks w !! cb = None) as Hcb by apply not_elem_of_dom, is_fresh.
  exists cb. eexists _, _. split.
  { unfold construct_from.
    prog_step ltac:(apply begin_run).
    prog_step ltac:(apply new_block_run). cbn [blocks objects pointers].
    apply store_run. cbn [poke control_block_ pointers].
    rewrite lookup_insert_eq. reflexivity. }
  cbn [pointers objects blocks]. rewrite insert_insert_eq.
  split_and!; [|done..].
  pose proof (sound_adopt
                (World (objects w) (blocks w) (<[p:=None]> (pointers w)))
                p cb l (sound_begin w p Hs Hp)) as Hs'.
  cbn [pointers objects blocks] in Hs'. rewrite insert_insert_eq in Hs'.
  apply Hs'; [apply lookup_insert_eq|done|done|done].
Qed.

Lemma construct_copy_spec w p other c os :
  sound w → pointers w !! p = None → pointers w !! other = Some c →
  (∀ cb b, c = Some cb → blocks w !! cb = Some b →
           (cb_ref_count b < 2 ^ 31 - 1)%Z) →
  ∃ w' os', construct_copy p other (alone w os) = Returned tt (alone w' os') ∧
            sound w' ∧ pointers w' = <[p := c]> (pointers w) ∧
            objects w' = objects w.
Proof.
  intros Hs Hp Ho Hbound.
  assert (p ≠ other) as Hne by congruence.
  pose proof (sound_begin w p Hs Hp) as Hs1.
  set (w1 := World (objects w) (blocks w) (<[p:=None]> (pointers w))) in *.
  assert (pointers w1 !! other = Some c) as Ho1
    by (by cbn; rewrite lookup_insert_ne).
  assert (pointers w1 !! p = Some None) as Hp1 by apply lookup_insert_eq.
  destruct c as [cb|].
  - destruct Hs as (S1 & S2 & S3). destruct (S1 _ _ Ho) as [[q n] Hcb].
    destruct (S2 _ _ Hcb) as (_ & Hpos & _). cbn [cb_ref_count] in Hpos.
    specialize (Hbound cb _ eq_refl Hcb). cbn [cb_ref_count] in Hbound.
    eexists _, _. split.
    { unfold construct_copy. prog_step ltac:(apply begin_run). fold w1.
      prog_step ltac:(by apply load_run).
      eapply (attach_run w1); [exact Hp1|exact Hcb|lia]. }
    split; [apply (sound_attach w1); [done|done|done|lia]|].
    subst w1. cbn [pointers objects]. by rewrite insert_insert_eq.
  - eexists _, _. split.
    { unfold construct_copy. prog_step ltac:(apply begin_run). fold w1.
      prog_step ltac:(by apply load_run). reflexivity. }
    done.
Qed.

Lemma assign_spec w p other a c os :
  sound w → pointers w !! p = Some a → pointers w !! other = Some c →
  (∀ cb b, c = Some cb → blocks w !! cb = Some b →
           (cb_ref_count b < 2 ^ 31 - 1)%Z) →
  ∃ w' os', assign p other (alone w os) = Returned tt (alone w' os') ∧
            sound w' ∧ pointers w' = <[p := c]> (pointers w).
Proof.
  intros Hs Hp Ho Hbound. unfold assign. case_decide as Hne.
  2:{ assert (p = other) as <- by (by destruct (decide (p = other))).
      exists w, os. split; [reflexivity|]. split; [done|].
      rewrite insert_id; [done|congruence]. }
  destruct (release_spec w p a os Hs Hp) as (w1 & os1 & Hrun & Hs1 & Hp1 & Hrel).
  assert (pointers w1 !! other = Some c) as Ho1
    by (by rewrite Hp1, lookup_insert_ne).
  assert (pointers w1 !! p = Some None) as Hp1'
    by (by rewrite Hp1, lookup_insert_eq).
  destruct c as [cb|].
  - destruct Hs1 as (S1 & S2 & S3). destruct (S1 _ _ Ho1) as [[q n1] Hcb1].
    assert (sound w1) as Hs1 by done.
    destruct (S2 _ _ Hcb1) as (_ & Hpos & _). cbn [cb_ref_count] in Hpos.
    assert (n1 < 2 ^ 31 - 1)%Z as Hn1.
    { destruct a as [c'|]; cbn [released] in Hrel.
      - destruct Hrel as (l & n & Hc' & Hrel). case_decide.
        + destruct Hrel as [_ Hb]. rewrite Hb in Hcb1.
          apply lookup_delete_Some in Hcb1 as [_ Hcb1].
          apply (Hbound cb _ eq_refl Hcb1).
        + destruct Hrel as [_ Hb]. rewrite Hb in Hcb1.
          apply lookup_insert_Some in Hcb1 as [[<- [= <- <-]]|[_ Hcb1]].
          * specialize (Hbound c' _ eq_refl Hc'). cbn [cb_ref_count] in Hbound.
            lia.
          * apply (Hbound cb _ eq_refl Hcb1).
      - destruct Hrel as [_ Hb]. rewrite Hb in Hcb1.
        apply (Hbound cb _ eq_refl Hcb1). }
    eexists _, _. split.
    { prog_step ltac:(exact Hrun).
      prog_step ltac:(by apply load_run).
      eapply (attach_run w1); [exact Hp1'|exact Hcb1|lia]. }
    split; [apply (sound_attach w1); [done|done|done|lia]|].
    cbn [pointers]. by rewrite Hp1, insert_insert_eq.
  - exists w1, (sc :: os1). split.
    { prog_step ltac:(exact Hrun).
      prog_step ltac:(by apply load_run). reflexivity. }
    done.
Qed.

Lemma get_spec w p c q n os :
  pointers w !! p = Some (Some c) → blocks w !! c = Some (Block q n) →
  get p (alone w os) = Returned q (alone w (sc :: os)).
Proof.
  intros Hp Hc. unfold get. prog_step ltac:(by apply load_run).
  apply read_run. cbn [peek ptr_of]. by rewrite Hc.
Qed.

Lemma get_empty w p os :
  pointers w !! p = Some None →
  get p (alone w os) = Returned None (alone w (sc :: os)).
Proof.
  intros Hp. unfold get. prog_step ltac:(by apply load_run). reflexivity.
Qed.

End SharedPtr.

Lemma one_object_sound : sound one_object.
Proof.
  split_and!.
  - intros p cb Hp. vm_compute in Hp. discriminate.
  - intros cb b Hb. vm_compute in Hb. discriminate.
  - intros cb1 cb2 b1 b2 Hb. vm_compute in Hb. discriminate.
Qed.

Lemma two_owners_sound : sound two_owners.
Proof.
  destruct (construct_from_spec one_object 10 1 [] one_object_sound)
    as (cb & w1 & os1 & Hrun1 & Hs1 & Hcb & Hp1 & Hb1 & Ho1).
  { reflexivity. }
  { by exists 7%Z. }
  { intros cb b Hb. vm_compute in Hb. discriminate. }
  destruct (construct_copy_spec w1 11 10 (Some cb) os1 Hs1)
    as (w2 & os2 & Hrun2 & Hs2 & _).
  { rewrite Hp1. reflexivity. }
  { rewrite Hp1. reflexivity. }
  { intros cb' b [= <-]. rewrite Hb1, lookup_insert_eq. intros [= <-].
    simpl. lia. }
  unfold two_owners, meanwhile.
  change (Run one_object [] []) with (alone one_object []).
  erewrite bind_run by exact Hrun1. rewrite Hrun2. exact Hs2.
Qed.

(** X18.  The operations of [AtomicSharedPtr] keep the invariant [sound]:
    the count of a control block is the number of smart pointers that hold
    it.  In a sound world, construction of a smart pointer at a free
    address [p] (empty, from an object that is not managed yet, or as a
    copy of [other]), assignment from [other] and destruction all return
    and leave a sound world, in which [p] holds what it should: nothing, a
    new control block, what [other] holds, or, after destruction, is
    gone. *)
Theorem shared_ptr_counts_its_owners {T}
    (w : atomic_cpp.AtomicSharedPtr.world T) (p other l : positive)
    (a c : option positive) (os : list memory_order) :
  sound w →
  (∀ cb b, c = Some cb → atomic_cpp.AtomicSharedPtr.blocks w !! cb = Some b →
           (atomic_cpp.AtomicSharedPtr.cb_ref_count b < 2 ^ 31 - 1)%Z) →
  (atomic_cpp.AtomicSharedPtr.pointers w !! p = None →
   (∃ w' os',
      atomic_cpp.AtomicSharedPtr.construct p (alone w os) =
        Returned tt (alone w' os') ∧
      sound w' ∧
      atomic_cpp.AtomicSharedPtr.pointers w' =
        <[p := None]> (atomic_cpp.AtomicSharedPtr.pointers w)) ∧
   (is_Some (atomic_cpp.AtomicSharedPtr.objects w !! l) → unmanaged w l →
    ∃ cb w' os',
      atomic_cpp.AtomicSharedPtr.construct_from p (Some l) (alone w os) =
        Returned tt (alone w' os') ∧
      sound w' ∧
      atomic_cpp.AtomicSharedPtr.blocks w !! cb = None ∧
      atomic_cpp.AtomicSharedPtr.pointers w' =
        <[p := Some cb]> (atomic_cpp.AtomicSharedPtr.pointers w)) ∧
   (atomic_cpp.AtomicSharedPtr.pointers w !! other = Some c →
    ∃ w' os',
      atomic_cpp.AtomicSharedPtr.construct_copy p other (alone w os) =
        Returned tt (alone w' os') ∧
      sound w' ∧
      atomic_cpp.AtomicSharedPtr.pointers w' =
        <[p := c]> (atomic_cpp.AtomicSharedPtr.pointers w))) ∧
  (atomic_cpp.AtomicSharedPtr.pointers w !! p = Some a →
   (atomic_cpp.AtomicSharedPtr.pointers w !! other = Some c →
    ∃ w' os',
      atomic_cpp.AtomicSharedPtr.assign p other (alone w os) =
        Returned tt (alone w' os') ∧
      sound w' ∧
      atomic_cpp.AtomicSharedPtr.pointers w' =
        <[p := c]> (atomic_cpp.AtomicSharedPtr.pointers w)) ∧
   (∃ w' os',
      atomic_cpp.AtomicSharedPtr.destroy p (alone w os) =
        Returned tt (alone w' os') ∧
      sound w' ∧
      atomic_cpp.AtomicSharedPtr.pointers w' =
        delete p (atomic_cpp.AtomicSharedPtr.pointers w))).
Proof.
  intros Hs Hbound. split.
  - intros Hp. split_and!.
    + destruct (shared_construct_spec w p os Hs Hp) as (w' & os' & ? & ? & ? & _).
      eauto.
    + intros Hl Hun.
      destruct (construct_from_spec w p l os Hs Hp Hl Hun)
        as (cb & w' & os' & ? & ? & ? & ? & _).
      eauto 10.
    + intros Ho.
      destruct (construct_copy_spec w p other c os Hs Hp Ho Hbound)
        as (w' & os' & ? & ? & ? & _).
      eauto.
  - intros Hp. split.
    + intros Ho. by eapply assign_spec.
    + destruct (destroy_spec w p a os Hs Hp) as (w' & os' & ? & ? & ? & _).
      eauto.
Qed.

Lemma shared_ptr_counts_its_owners_witness :
  sound two_owners ∧
  atomic_cpp.AtomicSharedPtr.pointers two_owners !! 10%positive =
    Some (Some 1%positive) ∧
  ∃ w' os',
    atomic_cpp.AtomicSharedPtr.destroy 10 (alone two_owners []) =
      Returned tt (alone w' os') ∧
    sound w' ∧
    atomic_cpp.AtomicSharedPtr.pointers w' =
      delete 10%positive (atomic_cpp.AtomicSharedPtr.pointers two_owners).
Proof.
  split; [exact two_owners_sound|]. split; [vm_compute; reflexivity|].
  apply (proj2 (shared_ptr_counts_its_owners two_owners 10 11 1
                  (Some 1%positive) None [] two_owners_sound
                  ltac:(discriminate))).
  vm_compute. reflexivity.
Defined.

(** X19.  The destructor of an [AtomicSharedPtr] that holds the control
    block [cb] with count [n], the number of owners: when [n] is 1 it
    deletes the object and the control block, otherwise it leaves both and
    the count becomes [n - 1]. *)
Theorem object_dies_with_its_last_owner {T}
    (w : atomic_cpp.AtomicSharedPtr.world T) (p cb l : positive) (n : Z)
    (os : list memory_order) :
  sound w →
  atomic_cpp.AtomicSharedPtr.pointers w !! p = Some (Some cb) →
  atomic_cpp.AtomicSharedPtr.blocks w !! cb =
    Some (atomic_cpp.AtomicSharedPtr.Block (Some l) n) →
  n = Z.of_nat (size (owners w cb)) ∧
  ∃ w' os',
    atomic_cpp.AtomicSharedPtr.destroy p (alone w os) =
      Returned tt (alone w' os') ∧
    if decide (n = 1%Z)
    then atomic_cpp.AtomicSharedPtr.objects w' =
           delete l (atomic_cpp.AtomicSharedPtr.objects w) ∧
         atomic_cpp.AtomicSharedPtr.blocks w' =
           delete cb (atomic_cpp.AtomicSharedPtr.blocks w)
    else atomic_cpp.AtomicSharedPtr.objects w' =
           atomic_cpp.AtomicSharedPtr.objects w ∧
         atomic_cpp.AtomicSharedPtr.blocks w' =
           <[cb := atomic_cpp.AtomicSharedPtr.Block (Some l) (n - 1)]>
             (atomic_cpp.AtomicSharedPtr.blocks w).
Proof.
  intros Hs Hp Hcb. split.
  - destruct Hs as (_ & S2 & _). by destruct (S2 _ _ Hcb) as (? & _).
  - destruct (destroy_spec w p (Some cb) os Hs Hp)
      as (w' & os' & Hrun & _ & _ & l' & n' & Hcb' & Hrel).
    rewrite Hcb in Hcb'. injection Hcb' as <- <-. eauto.
Qed.

Lemma object_dies_with_its_last_owner_witness :
  sound two_owners ∧
  atomic_cpp.AtomicSharedPtr.pointers two_owners !! 11%positive =
    Some (Some 1%positive) ∧
  atomic_cpp.AtomicSharedPtr.blocks two_owners !! 1%positive =
    Some (atomic_cpp.AtomicSharedPtr.Block (Some 1%positive) 2) ∧
  2%Z = Z.of_nat (size (owners two_owners 1)) ∧
  ∃ w' os',
    atomic_cpp.AtomicSharedPtr.destroy 11 (alone two_owners []) =
      Returned tt (alone w' os') ∧
    if decide (2 = 1)%Z
    then atomic_cpp.AtomicSharedPtr.objects w' =
           delete 1%positive (atomic_cpp.AtomicSharedPtr.objects two_owners) ∧
         atomic_cpp.AtomicSharedPtr.blocks w' =
           delete 1%positive (atomic_cpp.AtomicSharedPtr.blocks two_owners)
    else atomic_cpp.AtomicSharedPtr.objects w' =
           atomic_cpp.AtomicSharedPtr.objects two_owners ∧
         atomic_cpp.AtomicSharedPtr.blocks w' =
           <[1%positive := atomic_cpp.AtomicSharedPtr.Block (Some 1%positive) (2 - 1)]>
             (atomic_cpp.AtomicSharedPtr.blocks two_owners).
Proof.
  split; [exact two_owners_sound|]. split; [vm_compute; reflexivity|].
  split; [vm_compute; reflexivity|].
  apply (object_dies_with_its_last_owner two_owners 11 1 1 2 []
           two_owners_sound); vm_compute; reflexivity.
Defined.

(** X20.  In a sound world a smart pointer that is not empty never
    dangles: [get] returns the address of an object that exists,
    [operator bool] returns true and [operator*] reads the object.  On an
    empty smart pointer [get] returns null, [operator bool] false, and
    [operator*] is undefined behaviour. *)
Theorem shared_ptr_never_dangles {T}
    (w : atomic_cpp.AtomicSharedPtr.world T) (p : positive)
    (a : option positive) (os : list memory_order) :
  sound w →
  atomic_cpp.AtomicSharedPtr.pointers w !! p = Some a →
  match a with
  | Some cb =>
      ∃ l v os1 os2 os3,
        atomic_cpp.AtomicSharedPtr.objects w !! l = Some v ∧
        atomic_cpp.AtomicSharedPtr.get p (alone w os) =
          Returned (Some l) (alone w os1) ∧
        atomic_cpp.AtomicSharedPtr.to_bool p (alone w os) =
          Returned true (alone w os2) ∧
        atomic_cpp.AtomicSharedPtr.deref p (alone w os) =
          Returned v (alone w os3)
  | None =>
      ∃ os1 os2,
        atomic_cpp.AtomicSharedPtr.get p (alone w os) =
          Returned None (alone w os1) ∧
        atomic_cpp.AtomicSharedPtr.to_bool p (alone w os) =
          Returned false (alone w os2) ∧
        atomic_cpp.AtomicSharedPtr.deref p (alone w os) = Faulted
  end.
Proof.
  intros Hs Hp. destruct a as [cb|].
  - destruct Hs as (S1 & S2 & _). destruct (S1 _ _ Hp) as [[q n] Hcb].
    destruct (S2 _ _ Hcb) as (_ & _ & l & Hq & [v Hl]).
    cbn in Hq. subst q.
    pose proof (get_spec w p cb (Some l) n os Hp Hcb) as Hget.
    exists l, v. eexists _, _, _. split_and!; [done|exact Hget|..].
    + unfold atomic_cpp.AtomicSharedPtr.to_bool.
      erewrite bind_run by exact Hget. reflexivity.
    + unfold atomic_cpp.AtomicSharedPtr.deref.
      erewrite bind_run by exact Hget. cbn beta iota.
      apply access_run. rewrite Hl. reflexivity.
  - pose proof (get_empty w p os Hp) as Hget.
    eexists _, _. split_and!; [exact Hget|..].
    + unfold atomic_cpp.AtomicSharedPtr.to_bool.
      erewrite bind_run by exact Hget. reflexivity.
    + unfold atomic_cpp.AtomicSharedPtr.deref.
      erewrite bind_run by exact Hget. reflexivity.
Qed.

Lemma shared_ptr_never_dangles_witness :
  sound two_owners ∧
  atomic_cpp.AtomicSharedPtr.pointers two_owners !! 11%positive =
    Some (Some 1%positive) ∧
  ∃ l v os1 os2 os3,
    atomic_cpp.AtomicSharedPtr.objects two_owners !! l = Some v ∧
    atomic_cpp.AtomicSharedPtr.get 11 (alone two_owners []) =
      Returned (Some l) (alone two_owners os1) ∧
    atomic_cpp.AtomicSharedPtr.to_bool 11 (alone two_owners []) =
      Returned true (alone two_owners os2) ∧
    atomic_cpp.AtomicSharedPtr.deref 11 (alone two_owners []) =
      Returned v (alone two_owners os3).
Proof.
  split; [exact two_owners_sound|]. split; [vm_compute; reflexivity|].
  apply (shared_ptr_never_dangles two_owners 11 (Some 1%positive) []
           two_owners_sound).
  vm_compute. reflexivity.
Defined.
